(** * Link-validation engine of main.py: RateLimiter, LinkChecker and the
      result dictionary of TelegramToolsManager.

    The Python code is embedded as a state-and-exception monad over an
    explicit machine state.  Everything outside the repository (the clock,
    [time.sleep], [requests.get], BeautifulSoup, [str.strip], [strftime],
    the interpreter's recursion limit and the moment at which the GUI thread
    calls [stop()]) is supplied by an environment record or stored in the
    state, so that every definition below can be evaluated on concrete
    inputs.  Timestamps are integers (clock ticks, of one second in the
    checker), and the clock never runs backwards. *)

From Stdlib Require Import ZArith String Ascii.
From stdpp Require Import gmap strings list.

Local Open Scope Z_scope.

(** ** Strings as Python uses them in [check_link] *)

(** [s.startswith(p)] *)
Definition startswith (s p : string) : bool := String.prefix p s.

(** [s[1:]]; slicing never raises, also on the empty string *)
Definition slice_from_1 (s : string) : string :=
  match s with
  | EmptyString => EmptyString
  | String _ rest => rest
  end.

Definition t_me : string := "https://t.me/".

(** Lines 70-74 of [check_link]: the rewriting of [link] at the start of the
    [try] block. *)
Definition normalize_link (link : string) : string :=
  if startswith link "@" then t_me +:+ slice_from_1 link
  else if negb (startswith link "http") then t_me +:+ link
  else link.

(** The normalizer as section 4.2 of the specification words it: three
    rules, tried in order, each producing a result. *)
Inductive NormalizerRule := StripSigil | BareUsername | PassThrough.

Definition spec_rule (input : string) : NormalizerRule :=
  match input with
  | String "@"%char _ => StripSigil
  | _ => if String.prefix "http" input then PassThrough else BareUsername
  end.

Definition spec_normalizer (input : string) : option string :=
  match spec_rule input with
  | StripSigil => Some (String.append "https://t.me/" (substring 1 (String.length input - 1)%nat input))
  | BareUsername => Some (String.append "https://t.me/" input)
  | PassThrough => Some input
  end.

(** ** Data *)

(** [str(e)] of a raised exception; nothing else of an exception is used. *)
Definition Exc := string.

(** The dictionary built by [check_link]; the keys are, in order,
    链接, 名称, 成员信息, 状态, 检查时间, 重定向链接. *)
Record CheckResult := {
  r_link : string;
  r_name : string;
  r_members : string;
  r_status : string;
  r_time : string;
  r_redirect : string
}.

Definition status_valid : string := "有效".
Definition status_invalid : string := "无效".
Definition status_error_prefix : string := "错误：".
Definition name_unknown : string := "未知".
Definition name_error : string := "错误".

(** What [check_link] uses of a [requests] response. *)
Record Response := { resp_url : string; resp_text : string }.

(** What [check_link] uses of the parsed page: the [.text] of the first
    [div] of class [tgme_page_title] and of class [tgme_page_extra], when
    [soup.find] returns an element ([None] when it returns [None]; an
    element is truthy also when it is empty). *)
Record Soup := { find_title : option string; find_extra : option string }.

(** The world outside the repository. *)
Record Env := {
  (** [requests.get(url, ...)] issued at a given time: raises or answers *)
  requests_get : string -> Z -> Exc + Response;
  (** how long that call blocks *)
  get_latency : string -> Z -> N;
  (** [BeautifulSoup(text, 'html.parser')] and the two lookups *)
  BeautifulSoup : string -> Exc + Soup;
  (** by how much [time.sleep(d)], started at a given time, oversleeps *)
  sleep_extra : Z -> Z -> N;
  (** [str.strip()] *)
  str_strip : string -> string;
  (** [datetime.now().strftime('%Y-%m-%d %H:%M:%S')] at a given time *)
  strftime : Z -> string;
  (** nested [acquire] frames the interpreter allows before RecursionError *)
  recursion_limit : nat
}.

Record RateLimiter := {
  max_requests : Z;
  time_window : Z;
  requests : list Z
}.

(** [ThreadPoolExecutor]: its size and the tasks handed to it. *)
Record Executor := { max_workers : nat; work_items : list string }.

(** Observable actions of the worker thread, in the order they happen.
    [EvStop] marks the moment [LinkChecker.stop] runs in the GUI thread. *)
Inductive Event :=
| EvStop
| EvFlag (seen : bool)
| EvSleep (d : Z)
| EvPurge (held : list Z)
| EvAdmit (t : Z) (held : list Z)
| EvFetchStart (url : string)
| EvFetchEnd (url : string)
| EvProgress (link : string) (result : CheckResult)
| EvFinished
| EvError (msg : string).

Record State := {
  clock : Z;
  (** number of further actions of the worker thread before [stop()] lands *)
  pending_stop : option nat;
  trace : list Event;
  is_running : bool;
  rate_limiter : RateLimiter;
  executor : option Executor
}.

Definition with_clock (t : Z) (st : State) : State :=
  {| clock := t; pending_stop := pending_stop st; trace := trace st;
     is_running := is_running st; rate_limiter := rate_limiter st;
     executor := executor st |}.

Definition with_trace (tr : list Event) (st : State) : State :=
  {| clock := clock st; pending_stop := pending_stop st; trace := tr;
     is_running := is_running st; rate_limiter := rate_limiter st;
     executor := executor st |}.

Definition with_requests (rs : list Z) (st : State) : State :=
  {| clock := clock st; pending_stop := pending_stop st; trace := trace st;
     is_running := is_running st;
     rate_limiter := {| max_requests := max_requests (rate_limiter st);
                        time_window := time_window (rate_limiter st);
                        requests := rs |};
     executor := executor st |}.

Definition with_executor (ex : option Executor) (st : State) : State :=
  {| clock := clock st; pending_stop := pending_stop st; trace := trace st;
     is_running := is_running st; rate_limiter := rate_limiter st;
     executor := ex |}.

(** [LinkChecker.stop], run by the GUI thread. *)
Definition stop (st : State) : State :=
  {| clock := clock st; pending_stop := None; trace := trace st ++ [EvStop];
     is_running := false; rate_limiter := rate_limiter st;
     executor := executor st |}.

(** Before each action of the worker thread the pending [stop()] may land. *)
Definition deliver_stop (st : State) : State :=
  match pending_stop st with
  | None => st
  | Some O => stop st
  | Some (S n) =>
      {| clock := clock st; pending_stop := Some n; trace := trace st;
         is_running := is_running st; rate_limiter := rate_limiter st;
         executor := executor st |}
  end.

Definition log (e : Event) (st : State) : State :=
  with_trace (trace st ++ [e]) st.

(** ** The monad: state plus exceptions (the state survives a raise) *)

Definition M (A : Type) : Type := State -> (Exc + A) * State.

Definition ret {A} (a : A) : M A := fun st => (inr a, st).
Definition raise {A} (e : Exc) : M A := fun st => (inl e, st).
Definition bind {A B} (m : M A) (k : A -> M B) : M B :=
  fun st => match m st with
            | (inl e, st') => (inl e, st')
            | (inr a, st') => k a st'
            end.
Definition try_except {A} (body : M A) (handler : Exc -> M A) : M A :=
  fun st => match body st with
            | (inl e, st') => handler e st'
            | (inr a, st') => (inr a, st')
            end.

Notation "x <- m ;; k" := (bind m (fun x => k))
  (at level 100, m at next level, right associativity).
Notation "m ;; k" := (bind m (fun _ => k))
  (at level 100, right associativity).

Definition act (e : Event) : M unit :=
  fun st => (inr tt, log e (deliver_stop st)).

(** a read of [self.is_running] *)
Definition read_is_running : M bool :=
  fun st => let st' := deliver_stop st in
            (inr (is_running st'), log (EvFlag (is_running st')) st').

Definition time_time : M Z := fun st => (inr (clock st), st).

Definition get_limiter : M RateLimiter := fun st => (inr (rate_limiter st), st).

Section Engine.

Variable E : Env.

Definition time_sleep (d : Z) : M unit :=
  fun st => let st' := deliver_stop st in
            (inr tt, log (EvSleep d)
                       (with_clock (clock st' + d + Z.of_N (sleep_extra E (clock st') d)) st')).

(** ** RateLimiter *)

(** [RateLimiter.__init__] *)
Definition RateLimiter_init (max_requests time_window : Z) : RateLimiter :=
  {| max_requests := max_requests; time_window := time_window; requests := [] |}.

(** [self.requests.pop(0)] *)
Definition pop_front (rs' : list Z) : M unit :=
  fun st => (inr tt, log (EvPurge rs') (deliver_stop (with_requests rs' st))).

(** [self.requests.append(current_time)] *)
Definition append_request (t : Z) : M unit :=
  fun st => let rs' := requests (rate_limiter st) ++ [t] in
            (inr tt, log (EvAdmit t rs') (deliver_stop (with_requests rs' st))).

(** The [while] loop of [acquire], on the current value [rs] of
    [self.requests]. *)
Fixpoint purge_loop (cutoff : Z) (rs : list Z) : M unit :=
  match rs with
  | [] => ret tt
  | r :: rs' =>
      if r <=? cutoff then pop_front rs' ;; purge_loop cutoff rs'
      else ret tt
  end.

(** [RateLimiter.acquire]; [depth] is the number of nested calls the
    interpreter still allows. *)
Fixpoint acquire (depth : nat) : M unit :=
  match depth with
  | O => raise "maximum recursion depth exceeded"
  | S depth' =>
      current_time <- time_time ;;
      rl <- get_limiter ;;
      purge_loop (current_time - time_window rl) (requests rl) ;;
      rl <- get_limiter ;;
      if max_requests rl <=? Z.of_nat (length (requests rl)) then
        match requests rl with
        | [] => raise "list index out of range"
        | r0 :: _ =>
            let sleep_time := r0 + time_window rl - current_time in
            if 0 <? sleep_time then time_sleep sleep_time ;; acquire depth'
            else append_request current_time
        end
      else append_request current_time
  end.

(** ** LinkChecker *)

(** [LinkChecker.__init__], started at time [t0]; [stop_after] tells after
    how many actions of the worker the user presses stop, if ever. *)
Definition LinkChecker_init (t0 : Z) (stop_after : option nat) : State :=
  {| clock := t0; pending_stop := stop_after; trace := [];
     is_running := true;
     rate_limiter := RateLimiter_init 20 60;
     executor := None |}.

(** Lines 79-102: the dictionary of a fetched page. *)
Definition page_result (link : string) (response : Response) (soup : Soup)
    (now : Z) : CheckResult :=
  {| r_link := link;
     r_name := match find_title soup with
               | Some text => str_strip E text
               | None => name_unknown
               end;
     r_members := match find_extra soup with
                  | Some text => str_strip E text
                  | None => name_unknown
                  end;
     r_status := match find_title soup with
                 | Some _ => status_valid
                 | None => status_invalid
                 end;
     r_time := strftime E now;
     r_redirect := if decide (resp_url response = link) then "" else resp_url response |}.

(** Lines 105-112: the dictionary of the [except] branch. *)
Definition error_result (link : string) (e : Exc) (now : Z) : CheckResult :=
  {| r_link := link;
     r_name := name_error;
     r_members := name_unknown;
     r_status := status_error_prefix +:+ e;
     r_time := strftime E now;
     r_redirect := "" |}.

(** [requests.get(link, headers=..., timeout=10)] *)
Definition http_get (url : string) : M Response :=
  act (EvFetchStart url) ;;
  fun st =>
    let outcome := requests_get E url (clock st) in
    let st1 := with_clock (clock st + Z.of_N (get_latency E url (clock st))) st in
    let st2 := log (EvFetchEnd url) (deliver_stop st1) in
    match outcome with
    | inl e => (inl e, st2)
    | inr response => (inr response, st2)
    end.

Definition parse_html (text : string) : M Soup :=
  fun st => match BeautifulSoup E text with
            | inl e => (inl e, st)
            | inr soup => (inr soup, st)
            end.

(** [LinkChecker.check_link] *)
Definition check_link (link : string) : M (option CheckResult) :=
  running <- read_is_running ;;
  if negb running then ret None
  else
    acquire (recursion_limit E) ;;
    let link := normalize_link link in
    try_except
      (response <- http_get link ;;
       soup <- parse_html (resp_text response) ;;
       now <- time_time ;;
       ret (Some (page_result link response soup now)))
      (fun e =>
         now <- time_time ;;
         ret (Some (error_result link e now))).

(** The [for] loop of [run]. *)
Fixpoint run_loop (links : list string) : M unit :=
  match links with
  | [] => ret tt
  | link :: rest =>
      running <- read_is_running ;;
      if negb running then ret tt
      else
        result <- check_link (str_strip E link) ;;
        match result with
        | Some r => act (EvProgress link r)
        | None => ret tt
        end ;;
        run_loop rest
  end.

(** [with ThreadPoolExecutor(max_workers=n) as executor: body]: the pool
    object exists from here on; leaving the block waits for its tasks, of
    which [body] may have submitted some. *)
Definition with_pool (n : nat) (body : M unit) : M unit :=
  fun st => body (with_executor (Some {| max_workers := n; work_items := [] |}) st).

(** [LinkChecker.run] *)
Definition run (links : list string) : M unit :=
  try_except
    (with_pool 5 (run_loop links) ;; act EvFinished)
    (fun e => act (EvError e)).

(** A caller that lets [g] ticks pass and then calls [acquire()], once per
    element of [gaps]: sequential calls on one limiter. *)
Definition pass_time (g : N) : M unit :=
  fun st => (inr tt, with_clock (clock st + Z.of_N g) st).

Fixpoint acquire_calls (gaps : list N) : M unit :=
  match gaps with
  | [] => ret tt
  | g :: gaps' => pass_time g ;; acquire (recursion_limit E) ;; acquire_calls gaps'
  end.

(** The record [check_link] produces for address [u] when its request is
    issued at time [t]: the page's dictionary, or the [except] branch's. *)
Definition fetch_result (u : string) (t : Z) : CheckResult :=
  let done := t + Z.of_N (get_latency E u t) in
  match requests_get E u t with
  | inl e => error_result u e done
  | inr response =>
      match BeautifulSoup E (resp_text response) with
      | inl e => error_result u e done
      | inr soup => page_result u response soup done
      end
  end.

(** The loop a reader of the behaviour would write: no pool, one link after
    the other, each result reported before the next link is looked at. *)
Fixpoint sequential_loop (links : list string) (st : State) : (Exc + unit) * State :=
  match links with
  | [] => (inr tt, st)
  | link :: rest =>
      let st1 := deliver_stop st in
      let st1 := log (EvFlag (is_running st1)) st1 in
      if is_running st1 then
        match check_link (str_strip E link) st1 with
        | (inl e, st2) => (inl e, st2)
        | (inr None, st2) => sequential_loop rest st2
        | (inr (Some r), st2) =>
            sequential_loop rest (log (EvProgress link r) (deliver_stop st2))
        end
      else (inr tt, st1)
  end.

Definition sequential_run (links : list string) (st : State) : (Exc + unit) * State :=
  match sequential_loop links st with
  | (inr _, st') => (inr tt, log EvFinished (deliver_stop st'))
  | (inl e, st') => (inr tt, log (EvError e) (deliver_stop st'))
  end.

End Engine.

(** A limiter on its own, first used at time [t0]. *)
Definition limiter_state (t0 : Z) (rl : RateLimiter) : State :=
  {| clock := t0; pending_stop := None; trace := []; is_running := true;
     rate_limiter := rl; executor := None |}.

(** ** Reading a trace *)

(** The [while] loop of [acquire] as a function on lists. *)
Fixpoint purge (cutoff : Z) (rs : list Z) : list Z :=
  match rs with
  | [] => []
  | r :: rs' => if r <=? cutoff then purge cutoff rs' else rs
  end.

Definition admitted (e : Event) : list Z :=
  match e with EvAdmit t _ => [t] | _ => [] end.

(** the timestamps recorded by the limiter, in order of admission *)
Definition admissions (tr : list Event) : list Z := flat_map admitted tr.

Definition snapshot (e : Event) : list (list Z) :=
  match e with EvAdmit _ held | EvPurge held => [held] | _ => [] end.

(** every value [self.requests] took after a mutation *)
Definition held_snapshots (tr : list Event) : list (list Z) := flat_map snapshot tr.

(** how many of the held timestamps lie in [[now - window, now]] *)
Definition count_in_window (now window : Z) (held : list Z) : nat :=
  length (filter (fun t => now - window <= t /\ t <= now) held).

Definition emitted (e : Event) : list (string * CheckResult) :=
  match e with EvProgress link r => [(link, r)] | _ => [] end.

(** the [progress_signal] emissions, in order *)
Definition progress (tr : list Event) : list (string * CheckResult) :=
  flat_map emitted tr.

(** [TelegramToolsManager.update_check_result], the slot connected to
    [progress_signal]: its effect on [self.check_results]. *)
Definition update_check_result (link : string) (result : CheckResult)
    (check_results : gmap string CheckResult) : gmap string CheckResult :=
  <[link := result]> check_results.

(** [check_results] after the signals of a trace have been delivered to a
    dictionary that [start_check] had cleared. *)
Definition aggregate (tr : list Event) : gmap string CheckResult :=
  foldl (fun m lr => update_check_result lr.1 lr.2 m) ∅ (progress tr).

Definition fetch_delta (e : Event) : Z :=
  match e with
  | EvFetchStart _ => 1
  | EvFetchEnd _ => -1
  | _ => 0
  end.

(** requests started and not yet returned at the end of a trace *)
Definition in_flight (tr : list Event) : Z :=
  foldr (fun e n => fetch_delta e + n) 0 tr.

Definition is_io (e : Event) : bool :=
  match e with
  | EvFetchStart _ | EvFetchEnd _ | EvProgress _ _ => true
  | _ => false
  end.

(** the requests and emissions of a trace, nothing else *)
Definition io_events (tr : list Event) : list Event := List.filter is_io tr.

Definition is_stop (e : Event) : bool :=
  match e with EvStop => true | _ => false end.

Definition has_stop (tr : list Event) : bool := existsb is_stop tr.





Definition is_fetch_start (e : Event) : bool :=
  match e with EvFetchStart _ => true | _ => false end.

(** The states of section 4.4, read off the worker's last signal and the
    flag: the code has one [finished_signal] for both ways of ending, and
    the flag tells them apart. *)
Inductive EngineState :=
| Idle | Running | Completed | Stopped | Failed (msg : string).

Definition engine_state (st : State) : EngineState :=
  match last (trace st) with
  | None => Idle
  | Some EvFinished => if is_running st then Completed else Stopped
  | Some (EvError msg) => Failed msg
  | Some _ => Running
  end.

(** a status string the code gives a checked link *)
Definition terminal_status (s : string) : bool :=
  bool_decide (s = status_valid) || bool_decide (s = status_invalid)
  || String.prefix status_error_prefix s.

(** ** Vocabulary of the verification *)

(** events of the limiter and of the GUI thread: no flag read, no request,
    no signal *)
Definition calm (e : Event) : Prop :=
  match e with
  | EvStop | EvSleep _ | EvPurge _ | EvAdmit _ _ => True
  | _ => False
  end.

(** events that are neither a request nor a signal *)
Definition quiet (e : Event) : Prop :=
  match e with
  | EvStop | EvSleep _ | EvPurge _ | EvAdmit _ _ | EvFlag _ => True
  | _ => False
  end.

(** events that are neither a request nor a [progress_signal] *)
Definition silent (e : Event) : Prop := is_io e = false.

Definition any_event (e : Event) : Prop := True.

Definition bounded (st : State) : Prop :=
  Z.of_nat (length (requests (rate_limiter st))) <= max_requests (rate_limiter st).

Definition stop_mark (st : State) : list Event :=
  match pending_stop st with
  | Some O => [EvStop]
  | _ => []
  end.

(** each flag read returns [true] exactly when no [stop()] came before it *)
Definition flag_ok (stopped : bool) (e : Event) : bool :=
  match e with
  | EvFlag b => Bool.eqb b (negb stopped)
  | _ => true
  end.

Fixpoint flags_follow (stopped : bool) (tr : list Event) : bool :=
  match tr with
  | [] => true
  | e :: tr' => flag_ok stopped e && flags_follow (stopped || is_stop e) tr'
  end.

Definition coherent (st : State) : Prop :=
  is_running st = negb (has_stop (trace st)) /\
  (is_running st = false -> pending_stop st = None) /\
  flags_follow false (trace st) = true.

(** [st'] is [st] after some actions that added [d] to the trace and left
    the limiter's parameters and the pool alone *)
Record steps (P : Event -> Prop) (st st' : State) (d : list Event) : Prop := {
  st_trace : trace st' = trace st ++ d;
  st_events : Forall P d;
  st_clock : clock st <= clock st';
  st_max : max_requests (rate_limiter st') = max_requests (rate_limiter st);
  st_window : time_window (rate_limiter st') = time_window (rate_limiter st);
  st_executor : executor st' = executor st;
  st_unstopped : pending_stop st = None ->
                 pending_stop st' = None /\ is_running st' = is_running st /\ has_stop d = false;
  st_false : is_running st = false -> is_running st' = false;
  st_coherent : coherent st -> coherent st'
}.

(** what an admission leaves behind *)
Definition admitted_at (st st' : State) (d : list Event) : Prop :=
  let rl := rate_limiter st in
  steps calm st st' d /\
  requests (rate_limiter st') =
    purge (clock st' - time_window rl) (requests rl) ++ [clock st'] /\
  Z.of_nat (length (purge (clock st' - time_window rl) (requests rl))) < max_requests rl /\
  admissions d = [clock st'] /\
  Forall (fun held => Z.of_nat (length held) <=
                      Z.max (max_requests rl) (Z.of_nat (length (requests rl))))
         (held_snapshots d).

(** admissions [max_requests] apart are at least a window apart *)
Definition spaced (max window : Z) (history : list Z) : Prop :=
  forall (k : nat) (a b : Z),
    history !! k = Some a -> history !! (k + Z.to_nat max)%nat = Some b ->
    a + window <= b.

(** the limiter's list is the tail of the admission history, and what was
    purged from it left the window *)
Definition limiter_inv (st : State) : Prop :=
  let rl := rate_limiter st in
  exists purged,
    admissions (trace st) = purged ++ requests rl /\
    Forall (fun t => t + time_window rl <= clock st) purged /\
    Z.of_nat (length (requests rl)) <= max_requests rl /\
    spaced (max_requests rl) (time_window rl) (admissions (trace st)).

(** an operation that neither reads nor changes the [executor] field *)
Definition pool_blind {A : Type} (m : M A) : Prop :=
  forall (ex : option Executor) (st : State),
    m (with_executor ex st) = ((m st).1, with_executor ex (m st).2).

Definition closing (r : Exc + unit) : Event :=
  match r with
  | inr _ => EvFinished
  | inl e => EvError e
  end.

Definition the_pool : option Executor :=
  Some {| max_workers := 5; work_items := [] |}.

Section Shapes.

Variable E : Env.

(** the three ways [check_link] can end *)
Inductive check_outcome (link : string) (st : State) :
    Exc + option CheckResult -> State -> list Event -> Prop :=
| co_skipped st' :
    is_running st' = false ->
    check_outcome link st (inr None) st' (stop_mark st ++ [EvFlag false])
| co_raised e st' q :
    Forall calm q ->
    acquire E (recursion_limit E) (log (EvFlag true) (deliver_stop st)) = (inl e, st') ->
    check_outcome link st (inl e) st' (EvFlag true :: q)
| co_checked st' q1 q2 t :
    Forall calm q1 -> Forall calm q2 ->
    check_outcome link st
      (inr (Some (fetch_result E (normalize_link link) t))) st'
      (EvFlag true :: q1 ++ EvFetchStart (normalize_link link) :: q2
                  ++ [EvFetchEnd (normalize_link link)]).

(** an exception leaves the loop only if [acquire] raised it *)
Definition raised_by_acquire (st : State) (r : Exc + unit) : Prop :=
  match r with
  | inr _ => True
  | inl e =>
      exists st_a st_b,
        acquire E (recursion_limit E) st_a = (inl e, st_b) /\
        (bounded st -> bounded st_a) /\
        max_requests (rate_limiter st_a) = max_requests (rate_limiter st)
  end.

(** the request for [u] at time [t], or the parsing of its answer, raises *)
Definition fetch_raises (u : string) (t : Z) (msg : Exc) : Prop :=
  requests_get E u t = inl msg \/
  exists response,
    requests_get E u t = inr response /\ BeautifulSoup E (resp_text response) = inl msg.


End Shapes.

(** The shape of what the loop adds to the trace: one block per processed
    link (two flag reads that saw [true], the limiter, the request, its
    return, the signal), then an end without requests or signals. *)
Inductive loop_trace (E : Env) : list string -> list Event -> Prop :=
| LT_end links q :
    Forall quiet q -> loop_trace E links q
| LT_item link links q1 q2 q3 t d :
    Forall calm q1 -> Forall calm q2 -> Forall calm q3 ->
    loop_trace E links d ->
    loop_trace E (link :: links)
      (EvFlag true :: EvFlag true :: q1
         ++ EvFetchStart (normalize_link (str_strip E link)) :: q2
         ++ EvFetchEnd (normalize_link (str_strip E link)) :: q3
         ++ EvProgress link (fetch_result E (normalize_link (str_strip E link)) t) :: d).

(** the request and the signal of one processed link *)
Definition link_io (E : Env) (lr : string * CheckResult) : list Event :=
  [EvFetchStart (normalize_link (str_strip E lr.1));
   EvFetchEnd (normalize_link (str_strip E lr.1));
   EvProgress lr.1 lr.2].

(** requests never overlap: a request starts only when none is under way *)
Fixpoint alternates (busy : bool) (tr : list Event) : Prop :=
  match tr with
  | [] => busy = false
  | EvFetchStart _ :: tr' => busy = false /\ alternates true tr'
  | EvFetchEnd _ :: tr' => busy = true /\ alternates false tr'
  | _ :: tr' => alternates busy tr'
  end.

(** ** A concrete world, for evaluating the definitions *)

Definition is_space (c : ascii) : bool :=
  match c with
  | " "%char | "009"%char | "010"%char | "011"%char | "012"%char | "013"%char
  | "028"%char | "029"%char | "030"%char | "031"%char => true
  | _ => false
  end.

Fixpoint lstrip (s : string) : string :=
  match s with
  | EmptyString => EmptyString
  | String c rest => if is_space c then lstrip rest else s
  end.

Fixpoint rstrip (s : string) : string :=
  match s with
  | EmptyString => EmptyString
  | String c rest =>
      match rstrip rest with
      | EmptyString => if is_space c then EmptyString else String c EmptyString
      | kept => String c kept
      end
  end.

(** [str.strip()] on ASCII text *)
Definition ascii_strip (s : string) : string := rstrip (lstrip s).

(** A world in which the network answers as [net] says, every request takes
    one tick, sleeps are exact, and pages are parsed by [parser]. *)
Definition canned_env (net : string -> Z -> Exc + Response)
    (parser : string -> Exc + Soup) : Env :=
  {| requests_get := net;
     get_latency := fun _ _ => 1%N;
     BeautifulSoup := parser;
     sleep_extra := fun _ _ => 0%N;
     str_strip := ascii_strip;
     strftime := fun _ => "2024-01-01 00:00:00";
     recursion_limit := 1000 |}.

(** every address answers with an empty page without title *)
Definition blank_env : Env :=
  canned_env (fun url _ => inr {| resp_url := url; resp_text := "" |})
             (fun _ => inr {| find_title := None; find_extra := None |}).

(** a world in which every request times out *)
Definition timeout_env : Env :=
  canned_env (fun _ _ => inl "Read timed out.")
             (fun _ => inr {| find_title := None; find_extra := None |}).

(** a page whose title element holds the name between blanks, as the
    preview pages do *)
Definition padded_title : Soup :=
  {| find_title := Some " ExampleChannel "; find_extra := None |}.

(** a world in which the first request is answered with a page that has a
    title and every later one times out *)
Definition flaky_env : Env :=
  canned_env
    (fun url t =>
       if t <? 1 then inr {| resp_url := url; resp_text := "" |}
       else inl "Read timed out.")
    (fun _ => inr {| find_title := Some "News"; find_extra := None |}).



(** * The window: extraction, comparison and the check tab *)

From stdpp Require pretty sorting.

Local Open Scope nat_scope.

(** ** Link extraction *)

(** [[A-Za-z0-9_]] *)
Definition is_word (c : ascii) : bool :=
  let n := N_of_ascii c in
  ((65 <=? n) && (n <=? 90) || (97 <=? n) && (n <=? 122)
   || (48 <=? n) && (n <=? 57) || (n =? 95))%N.

(** the longest run of word characters at the start of [s]: what the greedy
    [[A-Za-z0-9_]*] consumes there *)
Fixpoint word_prefix (s : string) : string :=
  match s with
  | EmptyString => EmptyString
  | String c rest => if is_word c then String c (word_prefix rest) else EmptyString
  end.

(** what follows the literal [p] at the start of [s], if [s] starts with it *)
Fixpoint after_literal (p s : string) : option string :=
  match p with
  | EmptyString => Some s
  | String a p' =>
      match s with
      | EmptyString => None
      | String b s' => if Ascii.eqb a b then after_literal p' s' else None
      end
  end.

(** one alternative of the pattern: the literal, then one or more word
    characters; the result is the captured group and the length of the
    match *)
Definition match_alternative (literal s : string) : option (string * nat) :=
  match after_literal literal s with
  | None => None
  | Some rest =>
      match word_prefix rest with
      | EmptyString => None
      | username => Some (username, (String.length literal + String.length username)%nat)
      end
  end.

(** the pattern [(?:https://t\.me/|@)([A-Za-z0-9_]+)] tried at the start of
    [s]: first alternative first *)
Definition match_here (s : string) : option (string * nat) :=
  match match_alternative "https://t.me/" s with
  | Some m => Some m
  | None => match_alternative "@" s
  end.

(** [re.findall(pattern, text)]: the captured groups of the leftmost
    non-overlapping matches; [skip] characters still belong to the previous
    match *)
Fixpoint findall_from (skip : nat) (s : string) : list string :=
  match s with
  | EmptyString => []
  | String c rest =>
      match skip with
      | S k => findall_from k rest
      | O =>
          match match_here s with
          | Some (username, len) => username :: findall_from (len - 1) rest
          | None => findall_from 0 rest
          end
      end
  end.

Definition re_findall (text : string) : list string := findall_from 0 text.

(** [s.replace(c, '')] for a one-character [c] *)
Fixpoint replace_char_by_empty (c : ascii) (s : string) : string :=
  match s with
  | EmptyString => EmptyString
  | String a rest =>
      if Ascii.eqb a c then replace_char_by_empty c rest
      else String a (replace_char_by_empty c rest)
  end.

(** [TelegramToolsManager.extract_links] *)
Definition extract_links (text : string) : list string :=
  map (fun username => "https://t.me/" +:+ replace_char_by_empty "@" username)
      (re_findall text).

(** [sep.join(parts)] *)
Fixpoint str_join (sep : string) (parts : list string) : string :=
  match parts with
  | [] => EmptyString
  | [p] => p
  | p :: rest => p +:+ sep +:+ str_join sep rest
  end.

Definition newline : string := String "010" EmptyString.

(** every character of [s] is a word character *)
Fixpoint all_word (s : string) : bool :=
  match s with
  | EmptyString => true
  | String c rest => is_word c && all_word rest
  end.

(** [s[n:]] and [s[:n]] *)
Fixpoint string_drop (n : nat) (s : string) : string :=
  match n, s with
  | S k, String _ rest => string_drop k rest
  | _, _ => s
  end.

Fixpoint string_take (n : nat) (s : string) : string :=
  match n, s with
  | S k, String c rest => String c (string_take k rest)
  | _, _ => EmptyString
  end.

(** [username] stands in [text] right after one of the two literals of the
    pattern *)
Definition found_in (text username : string) : Prop :=
  exists before after,
    text = before +:+ "https://t.me/" +:+ username +:+ after \/
    text = before +:+ "@" +:+ username +:+ after.

(** [p] holds no line feed, as is the case of both literals of the pattern *)
Fixpoint no_line_feed (p : string) : bool :=
  match p with
  | EmptyString => true
  | String a p' => negb (Ascii.eqb a "010") && no_line_feed p'
  end.

(** a link as [extract_links] writes it *)
Definition written_link (link : string) : Prop :=
  exists username,
    link = "https://t.me/" +:+ username /\ username <> "" /\ all_word username = true.

(** ** Dialogs and files *)

(** a [QMessageBox] shown to the user: its kind, title and text *)
Inductive Dialog :=
| Warning (title text : string)
| Critical (title text : string)
| Information (title text : string)
| Question (title text : string).

(** what [open(path, 'r', encoding='utf-8')] and [read()] give for a file
    the user picked *)
Inductive FileRead :=
| OpenError (e : Exc)
| ReadError (e : Exc)
| Content (text : string).

(** ** The comparison tab *)

Record CompareTab := {
  links_to_remove : gset string;
  (** [remove_btn.isEnabled()] *)
  remove_btn : bool;
  (** the paragraphs of [compare_result] *)
  compare_result : list string
}.

(** after [__init__] and [setup_compare_tab] *)
Definition CompareTab_init : CompareTab :=
  {| links_to_remove := ∅; remove_btn := false; compare_result := [] |}.

Definition str_le (a b : string) : Prop := String.leb a b = true.

Global Instance str_le_dec (a b : string) : Decision (str_le a b).
Proof. unfold str_le. apply _. Defined.

(** [sorted(s)] for a set of strings *)
Definition sorted_strings (s : gset string) : list string :=
  sorting.merge_sort str_le (elements s).

(** the [except] branch of [compare_files] *)
Definition compare_failed (e : Exc) (tab : CompareTab) : CompareTab * list Dialog :=
  ({| links_to_remove := links_to_remove tab; remove_btn := false;
      compare_result := compare_result tab |},
   [Critical "错误" ("比较文件时发生错误：" +:+ e)]).

(** [TelegramToolsManager.compare_files]; [file1] and [file2] are [None]
    when the user cancels the dialog *)
Definition compare_files (file1 file2 : option FileRead) (tab : CompareTab)
    : CompareTab * list Dialog :=
  match file1, file2 with
  | None, _ => (tab, [])
  | Some _, None => (tab, [])
  | Some (OpenError e), Some _ => compare_failed e tab
  | Some _, Some (OpenError e) => compare_failed e tab
  | Some (ReadError e), Some _ => compare_failed e tab
  | Some (Content _), Some (ReadError e) => compare_failed e tab
  | Some (Content text1), Some (Content text2) =>
      let links1 : gset string := list_to_set (extract_links text1) in
      let links2 : gset string := list_to_set (extract_links text2) in
      let duplicates := links1 ∩ links2 in
      let counts :=
        ["文件1中的链接数: " +:+ pretty.pretty (size links1);
         "文件2中的链接数: " +:+ pretty.pretty (size links2);
         "重复的链接数: " +:+ pretty.pretty (size duplicates) +:+ newline] in
      if decide (duplicates = ∅) then
        ({| links_to_remove := duplicates; remove_btn := false;
            compare_result := counts ++ ["没有找到重复的链接"] |}, [])
      else
        ({| links_to_remove := duplicates; remove_btn := true;
            compare_result := counts ++ "重复的链接:" :: sorted_strings duplicates |}, [])
  end.

(** what [remove_duplicate_links] leaves behind: the dialogs it showed and
    the file it wrote, as (path, text) *)
Definition RemoveOutcome : Type := list Dialog * option (string * string).

(** [TelegramToolsManager.remove_duplicate_links]; [file] is [None] when the
    user cancels the first dialog, [save] is [None] when the user cancels
    the second one and otherwise the chosen path and the exception that
    writing raises, if any *)
Definition remove_duplicate_links (file : option FileRead)
    (save : option (string * option Exc)) (tab : CompareTab) : RemoveOutcome :=
  if decide (links_to_remove tab = ∅) then
    ([Warning "提示" "没有需要删除的重复链接！"], None)
  else
    match file with
    | None => ([], None)
    | Some (OpenError e) | Some (ReadError e) =>
        ([Critical "错误" ("删除重复链接时发生错误：" +:+ e)], None)
    | Some (Content content) =>
        let all_links := extract_links content in
        let filtered := filter (fun link => link ∉ links_to_remove tab) all_links in
        match save with
        | None => ([], None)
        | Some (save_path, Some e) =>
            ([Critical "错误" ("删除重复链接时发生错误：" +:+ e)], None)
        | Some (save_path, None) =>
            ([Information "成功"
                ("已删除 " +:+ pretty.pretty (length all_links - length filtered)%nat
                 +:+ " 个重复链接" +:+ newline +:+ "结果已保存到：" +:+ save_path)],
             Some (save_path, str_join newline filtered))
        end
    end.

Definition is_warning (d : Dialog) : bool :=
  match d with
  | Warning _ _ => true
  | _ => false
  end.

(** the comparison tab after the comparisons of the given pairs of files *)
Definition after_comparisons (comparisons : list (option FileRead * option FileRead))
    (tab : CompareTab) : CompareTab :=
  foldl (fun t c => (compare_files c.1 c.2 t).1) tab comparisons.

(** ** The extraction tab *)

(** [TelegramToolsManager.extract_links_from_text]: the text set in
    [extract_result] for the plain text of [extract_input] *)
Definition extract_links_from_text (text : string) : string :=
  match extract_links text with
  | [] => "未找到任何Telegram链接"
  | links => str_join newline links
  end.

(** [TelegramToolsManager.save_to_file]: the dialog it shows, the file it
    writes as (path, text), and its return value; [save] is [None] when the
    user cancels the dialog and otherwise the chosen path and the exception
    that writing raises, if any *)
Definition save_to_file (content : string) (save : option (string * option Exc))
    : list Dialog * option (string * string) * bool :=
  match save with
  | None => ([], None, false)
  | Some (file_path, None) =>
      ([Information "成功" ("文件已保存到：" +:+ file_path)],
       Some (file_path, content), true)
  | Some (file_path, Some e) =>
      ([Critical "错误" ("保存文件时出错：" +:+ e)], None, false)
  end.

(** ** The check tab *)

(** [s.split(sep)] for a one-character [sep] *)
Fixpoint split_char (sep : ascii) (s : string) : list string :=
  match s with
  | EmptyString => [EmptyString]
  | String c rest =>
      if Ascii.eqb c sep then EmptyString :: split_char sep rest
      else match split_char sep rest with
           | [] => [String c EmptyString]
           | part :: parts => String c part :: parts
           end
  end.

(** [c * n] for a one-character string *)
Fixpoint repeat_char (c : ascii) (n : nat) : string :=
  match n with
  | O => EmptyString
  | S k => String c (repeat_char c k)
  end.

(** The text that [update_check_result] and [save_check_results] build for
    one record (lines 458-467 and 494-503). *)
Definition format_result (result : CheckResult) : string :=
  let formatted_result :=
    "链接: " +:+ r_link result +:+ newline
    +:+ "名称: " +:+ r_name result +:+ newline
    +:+ "成员信息: " +:+ r_members result +:+ newline
    +:+ "状态: " +:+ r_status result +:+ newline
    +:+ "检查时间: " +:+ r_time result +:+ newline in
  let formatted_result :=
    if decide (r_redirect result = "") then formatted_result
    else formatted_result +:+ "重定向到: " +:+ r_redirect result +:+ newline in
  formatted_result +:+ repeat_char "-" 50 +:+ newline.

(** a Python [dict] with string keys: the items in insertion order *)
Definition PyDict (V : Type) : Type := list (string * V).

(** [d[k] = v]: an existing key keeps its place *)
Fixpoint dict_set {V : Type} (k : string) (v : V) (d : PyDict V) : PyDict V :=
  match d with
  | [] => [(k, v)]
  | (k', v') :: d' =>
      if decide (k' = k) then (k, v) :: d' else (k', v') :: dict_set k v d'
  end.

(** the [LinkChecker] object held in [self.checker] *)
Record Checker := {
  ck_links : list string;
  ck_is_running : bool;
  (** the signals that have a slot connected, in order of connection *)
  ck_connected : list (string * string);
  (** [start()] has been called *)
  ck_started : bool
}.

Record CheckTab := {
  (** [check_input.toPlainText()] and [check_input.isReadOnly()] *)
  check_input : string;
  check_input_read_only : bool;
  (** the paragraphs appended to [check_result] since it was last cleared *)
  check_result : list string;
  (** the arguments of the last [setMaximum] and [setValue] of
      [check_progress], and whether it is shown *)
  progress_maximum : option nat;
  progress_value : option nat;
  progress_shown : bool;
  (** [isEnabled()] of the four buttons *)
  start_check_btn : bool;
  stop_check_btn : bool;
  save_check_btn : bool;
  clear_check_btn : bool;
  check_results : PyDict CheckResult;
  checker : option Checker;
  (** the message boxes shown so far, and the files written *)
  shown : list Dialog;
  saved : list (string * string)
}.

(** after [__init__] and [setup_check_tab] *)
Definition CheckTab_init : CheckTab :=
  {| check_input := ""; check_input_read_only := false; check_result := [];
     progress_maximum := None; progress_value := None; progress_shown := false;
     start_check_btn := true; stop_check_btn := false;
     save_check_btn := false; clear_check_btn := false;
     check_results := []; checker := None; shown := []; saved := [] |}.

(** the methods that class [TelegramToolsManager] defines and the
    attributes that its [__init__] and [setup_*] methods set *)
Definition TelegramToolsManager_attributes : list string :=
  ["__init__"; "init_ui"; "create_styled_button"; "create_styled_text_edit";
   "setup_extract_tab"; "setup_check_tab"; "setup_compare_tab"; "setup_help_tab";
   "load_file_for_extract"; "extract_links_from_text"; "extract_links";
   "save_extract_results"; "start_check"; "stop_check"; "update_check_result";
   "check_finished"; "clear_check_results"; "save_check_results"; "compare_files";
   "remove_duplicate_links"; "save_to_file";
   "check_results"; "links_to_remove"; "checker"; "tabs"; "extract_input";
   "extract_result"; "check_input"; "start_check_btn"; "stop_check_btn";
   "save_check_btn"; "clear_check_btn"; "check_progress"; "check_result";
   "remove_btn"; "compare_result"].

(** [self.name] for a name that [QMainWindow] does not provide *)
Definition self_attribute (name : string) : Exc + string :=
  if decide (name ∈ TelegramToolsManager_attributes) then inr name
  else inl ("'TelegramToolsManager' object has no attribute '" +:+ name +:+ "'").

Definition show_dialog (d : Dialog) (tab : CheckTab) : CheckTab :=
  {| check_input := check_input tab; check_input_read_only := check_input_read_only tab;
     check_result := check_result tab;
     progress_maximum := progress_maximum tab; progress_value := progress_value tab;
     progress_shown := progress_shown tab;
     start_check_btn := start_check_btn tab; stop_check_btn := stop_check_btn tab;
     save_check_btn := save_check_btn tab; clear_check_btn := clear_check_btn tab;
     check_results := check_results tab; checker := checker tab;
     shown := shown tab ++ [d]; saved := saved tab |}.

Definition with_checker (c : option Checker) (tab : CheckTab) : CheckTab :=
  {| check_input := check_input tab; check_input_read_only := check_input_read_only tab;
     check_result := check_result tab;
     progress_maximum := progress_maximum tab; progress_value := progress_value tab;
     progress_shown := progress_shown tab;
     start_check_btn := start_check_btn tab; stop_check_btn := stop_check_btn tab;
     save_check_btn := save_check_btn tab; clear_check_btn := clear_check_btn tab;
     check_results := check_results tab; checker := c;
     shown := shown tab; saved := saved tab |}.

(** [self.checker.<signal>.connect(self.<slot>)]: the signal is looked up
    first, then the slot *)
Definition connect (signal slot : string) (tab : CheckTab) : (Exc + unit) * CheckTab :=
  match self_attribute slot with
  | inl e => (inl e, tab)
  | inr bound =>
      (inr tt,
       with_checker
         (option_map (fun c => {| ck_links := ck_links c; ck_is_running := ck_is_running c;
                                  ck_connected := ck_connected c ++ [(signal, bound)];
                                  ck_started := ck_started c |})
                     (checker tab))
         tab)
  end.

Section CheckTabHandlers.

Variable E : Env.

(** the list comprehension of [start_check] *)
Definition input_links (text : string) : list string :=
  filter (fun link => link <> "") (map (str_strip E) (split_char "010" text)).

(** lines 424-442 of [start_check]: the tab is reset and the checker
    created *)
Definition prepare_check (links : list string) (tab : CheckTab) : CheckTab :=
  {| check_input := check_input tab; check_input_read_only := true;
     check_result :=
       ["开始检查链接..." +:+ newline;
        "注意：为避免请求过于频繁，限制每分钟最多检查20个链接" +:+ newline];
     progress_maximum := Some (length links); progress_value := Some O;
     progress_shown := true;
     start_check_btn := false; stop_check_btn := true;
     save_check_btn := false; clear_check_btn := false;
     check_results := [];
     checker := Some {| ck_links := links; ck_is_running := true;
                        ck_connected := []; ck_started := false |};
     shown := shown tab; saved := saved tab |}.

(** [self.checker.start()] *)
Definition start_thread (tab : CheckTab) : CheckTab :=
  with_checker
    (option_map (fun c => {| ck_links := ck_links c; ck_is_running := ck_is_running c;
                             ck_connected := ck_connected c; ck_started := true |})
                (checker tab))
    tab.

(** [TelegramToolsManager.start_check]; [reply_yes] is the user's answer to
    the question asked for more than fifty links *)
Definition start_check (reply_yes : bool) (tab : CheckTab) : (Exc + unit) * CheckTab :=
  let text := str_strip E (check_input tab) in
  if decide (text = "") then
    (inr tt, show_dialog (Warning "提示" "请输入要检查的链接！") tab)
  else
    let links := input_links text in
    if decide (links = []) then
      (inr tt, show_dialog (Warning "提示" "没有找到有效的链接！") tab)
    else
      let asked :=
        if (50 <? length links)%nat then
          show_dialog
            (Question "确认"
               ("您输入了" +:+ pretty.pretty (length links)
                +:+ "个链接，检查可能需要较长时间。是否继续？")) tab
        else tab in
      if (50 <? length links)%nat && negb reply_yes then (inr tt, asked)
      else
        let tab1 := prepare_check links asked in
        match connect "progress_signal" "update_check_result" tab1 with
        | (inl e, tab2) => (inl e, tab2)
        | (inr _, tab2) =>
            match connect "finished_signal" "check_finished" tab2 with
            | (inl e, tab3) => (inl e, tab3)
            | (inr _, tab3) =>
                match connect "error_signal" "handle_check_error" tab3 with
                | (inl e, tab4) => (inl e, tab4)
                | (inr _, tab4) => (inr tt, start_thread tab4)
                end
            end
        end.

End CheckTabHandlers.

(** [TelegramToolsManager.stop_check] *)
Definition stop_check (tab : CheckTab) : CheckTab :=
  match checker tab with
  | None => tab
  | Some c =>
      {| check_input := check_input tab; check_input_read_only := check_input_read_only tab;
         check_result := check_result tab;
         progress_maximum := progress_maximum tab; progress_value := progress_value tab;
         progress_shown := progress_shown tab;
         start_check_btn := start_check_btn tab; stop_check_btn := false;
         save_check_btn := save_check_btn tab; clear_check_btn := clear_check_btn tab;
         check_results := check_results tab;
         checker := Some {| ck_links := ck_links c; ck_is_running := false;
                            ck_connected := ck_connected c; ck_started := ck_started c |};
         shown := shown tab; saved := saved tab |}
  end.

(** the whole of [TelegramToolsManager.update_check_result]: the
    dictionary, the text shown and the progress bar *)
Definition update_check_result_slot (link : string) (result : CheckResult) (tab : CheckTab) : CheckTab :=
  let results := dict_set link result (check_results tab) in
  {| check_input := check_input tab; check_input_read_only := check_input_read_only tab;
     check_result := check_result tab ++ [format_result result];
     progress_maximum := progress_maximum tab;
     progress_value := Some (length results);
     progress_shown := progress_shown tab;
     start_check_btn := start_check_btn tab; stop_check_btn := stop_check_btn tab;
     save_check_btn := save_check_btn tab; clear_check_btn := clear_check_btn tab;
     check_results := results; checker := checker tab;
     shown := shown tab; saved := saved tab |}.

(** [TelegramToolsManager.check_finished] *)
Definition check_finished (tab : CheckTab) : CheckTab :=
  {| check_input := check_input tab; check_input_read_only := check_input_read_only tab;
     check_result := check_result tab ++ [newline +:+ "检查完成！"];
     progress_maximum := progress_maximum tab; progress_value := progress_value tab;
     progress_shown := progress_shown tab;
     start_check_btn := start_check_btn tab; stop_check_btn := stop_check_btn tab;
     save_check_btn := save_check_btn tab; clear_check_btn := clear_check_btn tab;
     check_results := check_results tab; checker := checker tab;
     shown := shown tab; saved := saved tab |}.

(** [TelegramToolsManager.clear_check_results] *)
Definition clear_check_results (tab : CheckTab) : CheckTab :=
  {| check_input := check_input tab; check_input_read_only := check_input_read_only tab;
     check_result := [];
     progress_maximum := progress_maximum tab; progress_value := Some O;
     progress_shown := false;
     start_check_btn := start_check_btn tab; stop_check_btn := stop_check_btn tab;
     save_check_btn := false; clear_check_btn := false;
     check_results := []; checker := checker tab;
     shown := shown tab; saved := saved tab |}.

(** [TelegramToolsManager.save_check_results] *)
Definition save_check_results (save : option (string * option Exc)) (tab : CheckTab)
    : CheckTab :=
  match check_results tab with
  | [] => show_dialog (Warning "提示" "没有可保存的结果！") tab
  | _ =>
      let content := map (fun kv => format_result kv.2) (check_results tab) in
      let '(dialogs, written, _) := save_to_file (str_join newline content) save in
      {| check_input := check_input tab; check_input_read_only := check_input_read_only tab;
         check_result := check_result tab;
         progress_maximum := progress_maximum tab; progress_value := progress_value tab;
         progress_shown := progress_shown tab;
         start_check_btn := start_check_btn tab; stop_check_btn := stop_check_btn tab;
         save_check_btn := save_check_btn tab; clear_check_btn := clear_check_btn tab;
         check_results := check_results tab; checker := checker tab;
         shown := shown tab ++ dialogs;
         saved := saved tab ++ match written with Some f => [f] | None => [] end |}
  end.

(** what can happen to the check tab: the user edits the input or clicks a
    button (a disabled button does not react, a read-only input cannot be
    edited), or a signal of a started checker arrives.  An exception that
    leaves a slot ends the program unless an excepthook is installed; the
    events are let to go on after it, which covers both. *)
Inductive TabEvent :=
| EditInput (text : string)
| ClickStart (reply_yes : bool)
| ClickStop
| ClickSave (save : option (string * option Exc))
| ClickClear
| ProgressSignal (link : string) (result : CheckResult)
| FinishedSignal.

Definition with_input (text : string) (tab : CheckTab) : CheckTab :=
  {| check_input := text; check_input_read_only := check_input_read_only tab;
     check_result := check_result tab;
     progress_maximum := progress_maximum tab; progress_value := progress_value tab;
     progress_shown := progress_shown tab;
     start_check_btn := start_check_btn tab; stop_check_btn := stop_check_btn tab;
     save_check_btn := save_check_btn tab; clear_check_btn := clear_check_btn tab;
     check_results := check_results tab; checker := checker tab;
     shown := shown tab; saved := saved tab |}.

(** [run] has been entered: signals are emitted only from there *)
Definition thread_started (tab : CheckTab) : bool :=
  match checker tab with
  | Some c => ck_started c
  | None => false
  end.

Definition handle (E : Env) (tab : CheckTab) (ev : TabEvent) : CheckTab :=
  match ev with
  | EditInput text => if check_input_read_only tab then tab else with_input text tab
  | ClickStart reply_yes =>
      if start_check_btn tab then (start_check E reply_yes tab).2 else tab
  | ClickStop => if stop_check_btn tab then stop_check tab else tab
  | ClickSave save => if save_check_btn tab then save_check_results save tab else tab
  | ClickClear => if clear_check_btn tab then clear_check_results tab else tab
  | ProgressSignal link result =>
      if thread_started tab then update_check_result_slot link result tab else tab
  | FinishedSignal => if thread_started tab then check_finished tab else tab
  end.

(** the slot [update_check_result] run on each emission, in order *)
Definition deliver (emits : list (string * CheckResult)) (tab : CheckTab) : CheckTab :=
  foldl (fun t lr => update_check_result_slot lr.1 lr.2 t) tab emits.

(** the distinct elements of a list, each at its first occurrence *)
Fixpoint first_occurrences (l : list string) : list string :=
  match l with
  | [] => []
  | k :: l' => k :: filter (fun k' => k' <> k) (first_occurrences l')
  end.

(** what no handler of the check tab undoes once it holds *)
Definition check_tab_idle (tab : CheckTab) : Prop :=
  save_check_btn tab = false /\ clear_check_btn tab = false /\
  check_results tab = [] /\ saved tab = [] /\ thread_started tab = false.

Definition sample_result (link status : string) : CheckResult :=
  {| r_link := link; r_name := "name"; r_members := "12 members";
     r_status := status; r_time := "2024-01-01 00:00:00"; r_redirect := "" |}.

(** [TelegramToolsManager.save_extract_results] for the plain text of
    [extract_result]: the dialogs shown and the file written *)
Definition save_extract_results (E : Env) (extract_result : string)
    (save : option (string * option Exc)) : list Dialog * option (string * string) :=
  let links := str_strip E extract_result in
  if decide (links = "") then ([Warning "提示" "没有可保存的链接！"], None)
  else (save_to_file links save).1.

(** ** The sleeps of the limiter *)

Definition slept (e : Event) : list Z :=
  match e with EvSleep d => [d] | _ => [] end.

(** the arguments of the calls of [time.sleep], in order *)
Definition sleeps (tr : list Event) : list Z := flat_map slept tr.

Local Open Scope Z_scope.
(** * Verification *)

(** ** The normalizer *)

Lemma startswith_at (s : string) :
  startswith s "@" = true <-> exists rest, s = String "@"%char rest.
Proof.
  unfold startswith. destruct s as [|c rest]; cbn [String.prefix].
  - split; [discriminate | intros [r Hr]; discriminate].
  - destruct (Ascii.ascii_dec "@"%char c) as [<- | Hne].
    + split; [eauto | intros _; now destruct rest].
    + split; [discriminate | intros [r Hr]; congruence].
Qed.

Lemma substring_tail (c : ascii) (rest : string) :
  substring 1 (String.length (String c rest) - 1)%nat (String c rest) = rest.
Proof.
  simpl. rewrite Nat.sub_0_r.
  induction rest as [|c' rest' IH]; simpl; [reflexivity | now rewrite IH].
Qed.

Lemma t_me_prefixed (s : string) :
  startswith (t_me +:+ s) "@" = false /\ startswith (t_me +:+ s) "http" = true.
Proof. split; reflexivity. Qed.

(** C9: on every input the code computes what the three ordered rules of the
    specification prescribe, and it always produces a result: rule 1 fires
    exactly on inputs starting with the sigil, rule 3 exactly on the other
    inputs that start with http, rule 2 on the rest. *)
Theorem C9_normalizer_rules (input : string) :
  spec_normalizer input = Some (normalize_link input) /\
  normalize_link input =
    match spec_rule input with
    | StripSigil => "https://t.me/" +:+ slice_from_1 input
    | BareUsername => "https://t.me/" +:+ input
    | PassThrough => input
    end /\
  (spec_rule input = StripSigil <-> startswith input "@" = true) /\
  (spec_rule input = PassThrough <->
     startswith input "@" = false /\ startswith input "http" = true) /\
  (spec_rule input = BareUsername <->
     startswith input "@" = false /\ startswith input "http" = false).
Proof.
  unfold spec_normalizer, normalize_link, spec_rule.
  destruct (startswith input "@") eqn:Hat.
  - apply startswith_at in Hat as [rest ->].
    rewrite substring_tail. simpl.
    repeat split; try reflexivity; try discriminate; intros []; discriminate.
  - assert (Hm : forall (X : Type) (a b : X),
               match input with String "@"%char _ => a | _ => b end = b).
    { intros X a b. destruct input as [|c rest]; [reflexivity|].
      destruct (Ascii.ascii_dec c "@"%char) as [-> | Hne].
      - assert (startswith (String "@"%char rest) "@" = true)
          by (apply startswith_at; eauto). congruence.
      - destruct c as [[] [] [] [] [] [] [] []]; try reflexivity.
        now contradiction Hne. }
    rewrite !Hm. unfold startswith.
    destruct (String.prefix "http" input) eqn:Hh; simpl;
      repeat split; try reflexivity; try discriminate; intros []; discriminate.
Qed.

Lemma normalize_t_me (s : string) : normalize_link (t_me +:+ s) = t_me +:+ s.
Proof.
  unfold normalize_link. destruct (t_me_prefixed s) as [-> ->]. reflexivity.
Qed.

(** C10: normalizing an already normalized address changes nothing. *)
Theorem C10_normalizer_idempotent (input : string) :
  normalize_link (normalize_link input) = normalize_link input.
Proof.
  remember (normalize_link input) as out eqn:Hout.
  unfold normalize_link in Hout.
  destruct (startswith input "@") eqn:Hat.
  - subst out. apply normalize_t_me.
  - destruct (startswith input "http") eqn:Hh; simpl in Hout; subst out.
    + unfold normalize_link. now rewrite Hat, Hh.
    + apply normalize_t_me.
Qed.

(** ** What an action of the worker does to the bookkeeping *)

Lemma calm_quiet (d : list Event) : Forall calm d -> Forall quiet d.
Proof. intros H. eapply Forall_impl; [exact H|]. intros []; simpl; tauto. Qed.

Lemma has_stop_app (a b : list Event) : has_stop (a ++ b) = has_stop a || has_stop b.
Proof. apply existsb_app. Qed.

Lemma flags_follow_app (s : bool) (a b : list Event) :
  flags_follow s (a ++ b) = flags_follow s a && flags_follow (s || has_stop a) b.
Proof.
  revert s. induction a as [|e a IH]; intros s; simpl.
  - now rewrite orb_false_r.
  - rewrite IH, <- andb_assoc, orb_assoc. reflexivity.
Qed.


Lemma trace_deliver_stop (st : State) :
  trace (deliver_stop st) = trace st ++ stop_mark st.
Proof.
  unfold deliver_stop, stop_mark.
  destruct (pending_stop st) as [[|n]|]; simpl; now rewrite ?app_nil_r.
Qed.

Lemma deliver_stop_none (st : State) :
  pending_stop st = None -> deliver_stop st = st.
Proof. unfold deliver_stop. now intros ->. Qed.

Lemma deliver_stop_frame (st : State) :
  clock (deliver_stop st) = clock st /\
  rate_limiter (deliver_stop st) = rate_limiter st /\
  executor (deliver_stop st) = executor st.
Proof. unfold deliver_stop. destruct (pending_stop st) as [[|n]|]; simpl; auto. Qed.

Lemma deliver_stop_false (st : State) :
  is_running st = false -> is_running (deliver_stop st) = false.
Proof. unfold deliver_stop. destruct (pending_stop st) as [[|n]|]; simpl; auto. Qed.

Lemma deliver_stop_true (st : State) :
  is_running (deliver_stop st) = true -> stop_mark st = [] /\ is_running st = true.
Proof.
  unfold deliver_stop, stop_mark.
  destruct (pending_stop st) as [[|n]|]; simpl; auto. discriminate.
Qed.

Lemma stop_mark_calm (st : State) : Forall calm (stop_mark st).
Proof.
  unfold stop_mark. destruct (pending_stop st) as [[|n]|]; repeat constructor.
Qed.

Lemma coherent_deliver (st : State) : coherent st -> coherent (deliver_stop st).
Proof.
  intros (Hr & Hp & Hf). unfold deliver_stop, coherent.
  destruct (pending_stop st) as [[|n]|] eqn:Hpend; simpl.
  - rewrite has_stop_app, flags_follow_app, Hf. simpl.
    rewrite orb_true_r. auto.
  - repeat split; auto. intros H. apply Hp in H. discriminate.
  - rewrite Hpend. auto.
Qed.

Lemma coherent_log (e : Event) (st : State) :
  coherent st -> is_stop e = false -> flag_ok (negb (is_running st)) e = true ->
  coherent (log e st).
Proof.
  intros (Hr & Hp & Hf) He Hflag. rewrite Hr, negb_involutive in Hflag.
  unfold coherent, log. simpl.
  rewrite has_stop_app, flags_follow_app, Hf. simpl.
  rewrite He, Hflag, !orb_false_r. auto.
Qed.

Lemma steps_refl (P : Event -> Prop) (st : State) : steps P st st [].
Proof. split; auto; try lia. now rewrite app_nil_r. Qed.

Lemma steps_trans (P : Event -> Prop) (st1 st2 st3 : State) (d1 d2 : list Event) :
  steps P st1 st2 d1 -> steps P st2 st3 d2 -> steps P st1 st3 (d1 ++ d2).
Proof.
  intros [] []. split; try congruence; auto.
  - rewrite app_assoc. congruence.
  - apply Forall_app. auto.
  - lia.
  - intros H. destruct (st_unstopped0 H) as (Hp & Hr & Hs).
    destruct (st_unstopped1 Hp) as (Hp' & Hr' & Hs').
    rewrite has_stop_app, Hs, Hs'. repeat split; congruence.
Qed.

Lemma steps_weaken (P Q : Event -> Prop) (st st' : State) (d : list Event) :
  (forall e, P e -> Q e) -> steps P st st' d -> steps Q st st' d.
Proof. intros HPQ []. split; auto. eapply Forall_impl; eauto. Qed.

(** the bookkeeping of one logged action, possibly after the clock moved
    or the limiter's list changed *)
Lemma steps_action (P : Event -> Prop) (e : Event) (st : State) (t : Z) (rs : list Z) :
  P EvStop -> P e -> is_stop e = false -> (forall b, e <> EvFlag b) ->
  clock st <= t ->
  steps P st (log e (deliver_stop (with_clock t (with_requests rs st))))
        (stop_mark st ++ [e]).
Proof.
  intros HPs HPe He Hnf Ht.
  set (st1 := with_clock t (with_requests rs st)).
  assert (Hcoh : coherent st -> coherent st1) by (intros H; exact H).
  split.
  - unfold log. simpl. rewrite trace_deliver_stop. now rewrite app_assoc.
  - apply Forall_app. split; [|now repeat constructor].
    unfold stop_mark. destruct (pending_stop st) as [[|n]|]; repeat constructor; auto.
  - simpl. destruct (deliver_stop_frame st1) as (-> & _). exact Ht.
  - simpl. destruct (deliver_stop_frame st1) as (_ & -> & _). reflexivity.
  - simpl. destruct (deliver_stop_frame st1) as (_ & -> & _). reflexivity.
  - simpl. destruct (deliver_stop_frame st1) as (_ & _ & ->). reflexivity.
  - intros Hp. rewrite (deliver_stop_none st1 Hp). simpl.
    unfold stop_mark. rewrite Hp. simpl. rewrite He. auto.
  - intros H. simpl. now apply (deliver_stop_false st1).
  - intros H. apply coherent_log; auto using coherent_deliver.
    destruct e; try reflexivity. now destruct (Hnf seen).
Qed.

Lemma with_same (st : State) :
  with_clock (clock st) (with_requests (requests (rate_limiter st)) st) = st.
Proof. destruct st as [c p t r [m w rs] ex]. reflexivity. Qed.

Lemma steps_plain (P : Event -> Prop) (e : Event) (st : State) :
  P EvStop -> P e -> is_stop e = false -> (forall b, e <> EvFlag b) ->
  steps P st (log e (deliver_stop st)) (stop_mark st ++ [e]).
Proof.
  intros. rewrite <- (with_same st) at 2. apply steps_action; auto. lia.
Qed.

Lemma steps_requests (P : Event -> Prop) (e : Event) (st : State) (rs : list Z) :
  P EvStop -> P e -> is_stop e = false -> (forall b, e <> EvFlag b) ->
  steps P st (log e (deliver_stop (with_requests rs st))) (stop_mark st ++ [e]).
Proof.
  intros. apply (steps_action P e st (clock st) rs); auto. lia.
Qed.

Lemma steps_clock (P : Event -> Prop) (e : Event) (st : State) (t : Z) :
  P EvStop -> P e -> is_stop e = false -> (forall b, e <> EvFlag b) ->
  clock st <= t ->
  steps P st (log e (deliver_stop (with_clock t st))) (stop_mark st ++ [e]).
Proof.
  intros. rewrite <- (with_same st) at 2.
  replace (with_clock t (with_clock (clock st) (with_requests (requests (rate_limiter st)) st)))
    with (with_clock t (with_requests (requests (rate_limiter st)) st)) by reflexivity.
  apply steps_action; auto.
Qed.

Lemma with_clock_deliver (t : Z) (st : State) :
  with_clock t (deliver_stop st) = deliver_stop (with_clock t st).
Proof.
  unfold deliver_stop. simpl. destruct (pending_stop st) as [[|n]|]; reflexivity.
Qed.

Lemma steps_read (st : State) :
  steps quiet st
    (log (EvFlag (is_running (deliver_stop st))) (deliver_stop st))
    (stop_mark st ++ [EvFlag (is_running (deliver_stop st))]).
Proof.
  split.
  - unfold log. simpl. rewrite trace_deliver_stop. now rewrite app_assoc.
  - apply Forall_app. split; [|now repeat constructor].
    apply calm_quiet, stop_mark_calm.
  - simpl. destruct (deliver_stop_frame st) as (-> & _). lia.
  - simpl. destruct (deliver_stop_frame st) as (_ & -> & _). reflexivity.
  - simpl. destruct (deliver_stop_frame st) as (_ & -> & _). reflexivity.
  - simpl. destruct (deliver_stop_frame st) as (_ & _ & ->). reflexivity.
  - intros Hp. rewrite (deliver_stop_none st Hp). simpl.
    unfold stop_mark. rewrite Hp. auto.
  - intros H. simpl. now apply deliver_stop_false.
  - intros H. apply coherent_log; auto using coherent_deliver.
    simpl. rewrite negb_involutive. now destruct (is_running (deliver_stop st)).
Qed.

(** ** The limiter *)

Lemma purge_suffix (cutoff : Z) (rs : list Z) :
  exists dropped, rs = dropped ++ purge cutoff rs /\ Forall (fun t => t <= cutoff) dropped.
Proof.
  induction rs as [|r rs IH]; simpl.
  - exists []. auto.
  - destruct (Z.leb_spec r cutoff) as [Hle | Hgt].
    + destruct IH as (dr & Heq & Hall). exists (r :: dr). split.
      * simpl. now rewrite <- Heq.
      * now constructor.
    + exists []. auto.
Qed.

Lemma purge_length (cutoff : Z) (rs : list Z) :
  (length (purge cutoff rs) <= length rs)%nat.
Proof.
  destruct (purge_suffix cutoff rs) as (dr & Heq & _).
  rewrite Heq at 2. rewrite length_app. lia.
Qed.

Lemma purge_head (cutoff r0 : Z) (rs rest : list Z) :
  purge cutoff rs = r0 :: rest -> cutoff < r0.
Proof.
  induction rs as [|r rs IH]; simpl; [discriminate|].
  destruct (Z.leb_spec r cutoff); [exact IH|].
  intros [= -> _]. assumption.
Qed.

Lemma purge_purge (c1 c2 : Z) (rs : list Z) :
  c1 <= c2 -> purge c2 (purge c1 rs) = purge c2 rs.
Proof.
  intros Hc. induction rs as [|r rs IH]; simpl; [reflexivity|].
  destruct (Z.leb_spec r c1) as [H1|H1].
  - destruct (Z.leb_spec r c2); [exact IH | lia].
  - reflexivity.
Qed.

Lemma admissions_app (a b : list Event) :
  admissions (a ++ b) = admissions a ++ admissions b.
Proof. apply flat_map_app. Qed.

Lemma held_snapshots_app (a b : list Event) :
  held_snapshots (a ++ b) = held_snapshots a ++ held_snapshots b.
Proof. apply flat_map_app. Qed.

Lemma stop_mark_silent (st : State) :
  admissions (stop_mark st) = [] /\ held_snapshots (stop_mark st) = [] /\
  progress (stop_mark st) = [] /\ io_events (stop_mark st) = [] /\
  in_flight (stop_mark st) = 0.
Proof. unfold stop_mark. destruct (pending_stop st) as [[|n]|]; auto. Qed.

Lemma log_deliver_limiter (e : Event) (st : State) :
  rate_limiter (log e (deliver_stop st)) = rate_limiter st /\
  clock (log e (deliver_stop st)) = clock st.
Proof. simpl. destruct (deliver_stop_frame st) as (-> & -> & _). auto. Qed.

(** the [while] loop computes [purge], holds ever shorter lists on the way
    and admits nobody *)
Lemma purge_loop_spec (cutoff : Z) (rs : list Z) (st : State) :
  requests (rate_limiter st) = rs ->
  exists st' d,
    purge_loop cutoff rs st = (inr tt, st') /\ steps calm st st' d /\
    requests (rate_limiter st') = purge cutoff rs /\
    clock st' = clock st /\
    admissions d = [] /\
    Forall (fun held => (length held <= length rs)%nat) (held_snapshots d).
Proof.
  revert st. induction rs as [|r rs IH]; intros st Hrs; simpl.
  - exists st, []. split; [reflexivity|]. split; [apply steps_refl|].
    repeat split; auto.
  - destruct (Z.leb_spec r cutoff) as [Hle | Hgt].
    + unfold bind, pop_front.
      set (st1 := log (EvPurge rs) (deliver_stop (with_requests rs st))).
      destruct (log_deliver_limiter (EvPurge rs) (with_requests rs st)) as [Hrl Hck].
      fold st1 in Hrl, Hck.
      destruct (IH st1) as (st' & d & Hrun & Hsteps & Hreq & Hclock & Hadm & Hheld).
      { now rewrite Hrl. }
      exists st', ((stop_mark st ++ [EvPurge rs]) ++ d).
      split; [exact Hrun|]. split.
      { eapply steps_trans; [|exact Hsteps].
        apply steps_requests; simpl; auto; discriminate. }
      split; [exact Hreq|]. split; [now rewrite Hclock, Hck|]. split.
      { rewrite !admissions_app, Hadm.
        destruct (stop_mark_silent st) as (-> & _). reflexivity. }
      rewrite !held_snapshots_app.
      destruct (stop_mark_silent st) as (_ & -> & _). simpl.
      constructor; [lia|].
      eapply Forall_impl; [exact Hheld|]. simpl. intros; lia.
    + exists st, []. split; [reflexivity|]. split; [apply steps_refl|].
      repeat split; auto.
Qed.

Section Operations.

Variable E : Env.

Lemma time_sleep_spec (d : Z) (st : State) :
  0 <= d ->
  exists st',
    time_sleep E d st = (inr tt, st') /\
    steps calm st st' (stop_mark st ++ [EvSleep d]) /\
    clock st' = clock st + d + Z.of_N (sleep_extra E (clock st) d) /\
    requests (rate_limiter st') = requests (rate_limiter st).
Proof.
  intros Hd. unfold time_sleep. eexists. split; [reflexivity|].
  destruct (deliver_stop_frame st) as (Hck & Hrl & _).
  rewrite with_clock_deliver, Hck. split; [|split].
  - apply steps_clock; simpl; auto; try discriminate. lia.
  - destruct (log_deliver_limiter (EvSleep d)
               (with_clock (clock st + d + Z.of_N (sleep_extra E (clock st) d)) st))
      as [_ ->]. reflexivity.
  - destruct (log_deliver_limiter (EvSleep d)
               (with_clock (clock st + d + Z.of_N (sleep_extra E (clock st) d)) st))
      as [-> _]. reflexivity.
Qed.

Lemma append_request_spec (t : Z) (st : State) :
  exists st',
    append_request t st = (inr tt, st') /\
    steps calm st st'
      (stop_mark st ++ [EvAdmit t (requests (rate_limiter st) ++ [t])]) /\
    clock st' = clock st /\
    requests (rate_limiter st') = requests (rate_limiter st) ++ [t].
Proof.
  unfold append_request. eexists. split; [reflexivity|]. split; [|split].
  - apply steps_requests; simpl; auto; discriminate.
  - destruct (log_deliver_limiter
               (EvAdmit t (requests (rate_limiter st) ++ [t]))
               (with_requests (requests (rate_limiter st) ++ [t]) st)) as [_ ->].
    reflexivity.
  - destruct (log_deliver_limiter
               (EvAdmit t (requests (rate_limiter st) ++ [t]))
               (with_requests (requests (rate_limiter st) ++ [t]) st)) as [-> _].
    reflexivity.
Qed.

(** whatever [acquire] does, it only adds limiter events to the trace *)
Lemma acquire_sound (depth : nat) (st : State) (r : Exc + unit) (st' : State) :
  acquire E depth st = (r, st') -> exists d, steps calm st st' d.
Proof.
  revert st r st'. induction depth as [|depth IH]; intros st r st' H.
  - injection H as <- <-. exists []. apply steps_refl.
  - cbn [acquire] in H. unfold bind at 1 2 3, time_time, get_limiter in H.
    destruct (purge_loop_spec (clock st - time_window (rate_limiter st))
                (requests (rate_limiter st)) st eq_refl)
      as (st1 & d1 & Hrun & Hst1 & Hreq & Hck & _).
    rewrite Hrun in H. unfold bind at 1 in H.
    destruct (max_requests (rate_limiter st1) <=? Z.of_nat (length (requests (rate_limiter st1)))).
    + destruct (requests (rate_limiter st1)) as [|r0 rest].
      * injection H as <- <-. eauto.
      * destruct (Z.ltb_spec 0 (r0 + time_window (rate_limiter st1) - clock st)) as [Hpos|Hneg].
        -- unfold bind in H.
           destruct (time_sleep_spec (r0 + time_window (rate_limiter st1) - clock st) st1)
             as (st2 & Hsl & Hst2 & _); [lia|].
           rewrite Hsl in H. apply IH in H as (d3 & Hst3).
           eexists. eapply steps_trans; [|exact Hst3].
           eapply steps_trans; eassumption.
        -- destruct (append_request_spec (clock st) st1) as (st2 & Hap & Hst2 & _).
           rewrite Hap in H. injection H as <- <-.
           eexists. eapply steps_trans; eassumption.
    + destruct (append_request_spec (clock st) st1) as (st2 & Hap & Hst2 & _).
      rewrite Hap in H. injection H as <- <-.
      eexists. eapply steps_trans; eassumption.
Qed.

(** a call that finds room after purging admits at once *)
Lemma acquire_direct (depth : nat) (st : State) :
  let rl := rate_limiter st in
  Z.of_nat (length (purge (clock st - time_window rl) (requests rl))) < max_requests rl ->
  exists st' d,
    acquire E (S depth) st = (inr tt, st') /\ admitted_at st st' d /\ clock st' = clock st.
Proof.
  intros rl Hroom. cbn [acquire]. unfold bind at 1 2 3, time_time, get_limiter.
  destruct (purge_loop_spec (clock st - time_window (rate_limiter st))
              (requests (rate_limiter st)) st eq_refl)
    as (st1 & d1 & Hrun & Hst1 & Hreq & Hck & Hadm & Hheld).
  rewrite Hrun. unfold bind at 1.
  rewrite (st_max _ _ _ _ Hst1), Hreq.
  fold rl. fold rl in Hreq, Hheld.
  destruct (Z.leb_spec (max_requests rl)
              (Z.of_nat (length (purge (clock st - time_window rl) (requests rl)))));
    [lia|].
  destruct (append_request_spec (clock st) st1) as (st2 & Hap & Hst2 & Hck2 & Hreq2).
  rewrite Hap. exists st2, (d1 ++ stop_mark st1 ++ [EvAdmit (clock st) (requests (rate_limiter st1) ++ [clock st])]).
  assert (Hclock : clock st2 = clock st) by congruence.
  split; [reflexivity|]. split; [|exact Hclock].
  unfold admitted_at. fold rl. rewrite Hclock. split; [|split; [|split; [|split]]].
  - eapply steps_trans; eassumption.
  - now rewrite Hreq2, Hreq.
  - assumption.
  - rewrite !admissions_app, Hadm.
    destruct (stop_mark_silent st1) as (-> & _). reflexivity.
  - rewrite !held_snapshots_app.
    destruct (stop_mark_silent st1) as (_ & -> & _). simpl.
    apply Forall_app. split.
    + eapply Forall_impl; [exact Hheld|]. simpl. intros; lia.
    + repeat constructor. rewrite Hreq, length_app. simpl. lia.
Qed.

(** a call on a limiter that holds at most [max_requests] timestamps
    returns, after at most one sleep *)
Lemma acquire_admits (depth : nat) (st : State) :
  let rl := rate_limiter st in
  (2 <= depth)%nat -> 1 <= max_requests rl ->
  Z.of_nat (length (requests rl)) <= max_requests rl ->
  exists st' d, acquire E depth st = (inr tt, st') /\ admitted_at st st' d.
Proof.
  intros rl Hdepth Hmax Hlen.
  destruct depth as [|depth]; [lia|].
  destruct (Z.ltb_spec
              (Z.of_nat (length (purge (clock st - time_window rl) (requests rl))))
              (max_requests rl)) as [Hroom | Hfull].
  - destruct (acquire_direct depth st Hroom) as (st' & d & Hrun & Hadm & _).
    eauto.
  - cbn [acquire]. unfold bind at 1 2 3, time_time, get_limiter.
    destruct (purge_loop_spec (clock st - time_window (rate_limiter st))
                (requests (rate_limiter st)) st eq_refl)
      as (st1 & d1 & Hrun & Hst1 & Hreq & Hck & Hadm & Hheld).
    rewrite Hrun. unfold bind at 1.
    rewrite (st_max _ _ _ _ Hst1), (st_window _ _ _ _ Hst1), Hreq.
    fold rl. fold rl in Hreq, Hheld.
    destruct (Z.leb_spec (max_requests rl)
                (Z.of_nat (length (purge (clock st - time_window rl) (requests rl)))));
      [|lia].
    destruct (purge (clock st - time_window rl) (requests rl)) as [|r0 rest] eqn:Hp;
      [simpl in *; lia|].
    pose proof (purge_head _ _ _ _ Hp) as Hhead.
    destruct (Z.ltb_spec 0 (r0 + time_window rl - clock st)); [|lia].
    unfold bind.
    destruct (time_sleep_spec (r0 + time_window rl - clock st) st1)
      as (st2 & Hsl & Hst2 & Hck2 & Hreq2); [lia|].
    rewrite Hsl.
    pose proof (purge_length (clock st - time_window rl) (requests rl)) as Hpl.
    rewrite Hp in Hpl.
    assert (Hrl2 : max_requests (rate_limiter st2) = max_requests rl /\
                   time_window (rate_limiter st2) = time_window rl).
    { rewrite (st_max _ _ _ _ Hst2), (st_window _ _ _ _ Hst2).
      rewrite (st_max _ _ _ _ Hst1), (st_window _ _ _ _ Hst1). auto. }
    destruct Hrl2 as [Hmax2 Hwin2].
    assert (Hroom2 : Z.of_nat (length (purge (clock st2 - time_window (rate_limiter st2))
                                         (requests (rate_limiter st2))))
                     < max_requests (rate_limiter st2)).
    { rewrite Hmax2, Hwin2, Hreq2, Hreq. simpl.
      destruct (Z.leb_spec r0 (clock st2 - time_window rl)); [|lia].
      pose proof (purge_length (clock st2 - time_window rl) rest).
      simpl in Hpl. lia. }
    destruct depth as [|depth]; [lia|].
    destruct (acquire_direct depth st2 Hroom2) as (st3 & d3 & Hrun3 & Hadm3 & Hck3).
    rewrite Hrun3. exists st3, ((d1 ++ stop_mark st1 ++ [EvSleep (r0 + time_window rl - clock st)]) ++ d3).
    split; [reflexivity|].
    destruct Hadm3 as (Hst3 & Hreq3 & Hlen3 & Hadm3 & Hheld3).
    assert (Hmono : clock st <= clock st3).
    { pose proof (N2Z.is_nonneg
                    (sleep_extra E (clock st1) (r0 + time_window rl - clock st))).
      lia. }
    rewrite Hmax2, Hwin2, Hreq2, Hreq in *.
    unfold admitted_at. fold rl. split; [|split; [|split; [|split]]].
    + eapply steps_trans; [|exact Hst3]. eapply steps_trans; eassumption.
    + rewrite Hreq3, <- Hp. rewrite purge_purge; [reflexivity|]. lia.
    + rewrite <- Hp in Hlen3. rewrite purge_purge in Hlen3; [assumption|lia].
    + rewrite !admissions_app, Hadm, Hadm3.
      destruct (stop_mark_silent st1) as (-> & _). reflexivity.
    + rewrite !held_snapshots_app.
      destruct (stop_mark_silent st1) as (_ & -> & _). simpl.
      rewrite app_nil_r. apply Forall_app. split.
      * eapply Forall_impl; [exact Hheld|]. simpl. intros; lia.
      * eapply Forall_impl; [exact Hheld3|]. cbv beta. intros; lia.
Qed.

End Operations.

Section Limiter.

Variable E : Env.

(** the limiter never holds more than [max_requests] timestamps, whatever
    the outcome of the call *)
Lemma acquire_bounded (depth : nat) (st : State) (r : Exc + unit) (st' : State) :
  let rl := rate_limiter st in
  Z.of_nat (length (requests rl)) <= max_requests rl ->
  acquire E depth st = (r, st') ->
  exists d, steps calm st st' d /\
    Z.of_nat (length (requests (rate_limiter st'))) <= max_requests rl /\
    Forall (fun held => Z.of_nat (length held) <= max_requests rl) (held_snapshots d).
Proof.
  revert st r st'. induction depth as [|depth IH]; intros st r st' rl Hlen H.
  - injection H as <- <-. exists []. split; [apply steps_refl|]. split; [assumption|constructor].
  - cbn [acquire] in H. unfold bind at 1 2 3, time_time, get_limiter in H.
    destruct (purge_loop_spec (clock st - time_window (rate_limiter st))
                (requests (rate_limiter st)) st eq_refl)
      as (st1 & d1 & Hrun & Hst1 & Hreq & Hck & _ & Hheld).
    rewrite Hrun in H. unfold bind at 1 in H.
    rewrite (st_max _ _ _ _ Hst1), (st_window _ _ _ _ Hst1), Hreq in H.
    fold rl in H, Hreq, Hheld.
    pose proof (purge_length (clock st - time_window rl) (requests rl)) as Hpl.
    assert (Hheld1 : Forall (fun held => Z.of_nat (length held) <= max_requests rl)
                       (held_snapshots d1)).
    { eapply Forall_impl; [exact Hheld|]. cbv beta. intros; lia. }
    assert (Happend : forall r st',
               append_request (clock st) st1 = (r, st') ->
               Z.of_nat (length (purge (clock st - time_window rl) (requests rl)))
                 < max_requests rl ->
               exists d, steps calm st st' d /\
                 Z.of_nat (length (requests (rate_limiter st'))) <= max_requests rl /\
                 Forall (fun held => Z.of_nat (length held) <= max_requests rl)
                   (held_snapshots d)).
    { intros r1 st1' Hap Hroom.
      destruct (append_request_spec (clock st) st1) as (st2 & Hap2 & Hst2 & _ & Hreq2).
      rewrite Hap2 in Hap. injection Hap as <- <-.
      eexists. split; [eapply steps_trans; eassumption|].
      rewrite Hreq2, Hreq, length_app. simpl. split; [lia|].
      rewrite !held_snapshots_app.
      destruct (stop_mark_silent st1) as (_ & -> & _). simpl.
      apply Forall_app. split; [assumption|].
      repeat constructor. rewrite length_app. simpl. lia. }
    destruct (Z.leb_spec (max_requests rl)
                (Z.of_nat (length (purge (clock st - time_window rl) (requests rl)))))
      as [Hfull | Hroom]; [|now apply (Happend r st')].
    destruct (purge (clock st - time_window rl) (requests rl)) as [|r0 rest] eqn:Hp.
    + injection H as <- <-. exists d1. split; [assumption|].
      rewrite Hreq. split; [simpl; lia | assumption].
    + pose proof (purge_head _ _ _ _ Hp) as Hhead.
      destruct (Z.ltb_spec 0 (r0 + time_window rl - clock st)); [|lia].
      unfold bind in H.
      destruct (time_sleep_spec E (r0 + time_window rl - clock st) st1)
        as (st2 & Hsl & Hst2 & Hck2 & Hreq2); [lia|].
      rewrite Hsl in H.
      assert (Hmax2 : max_requests (rate_limiter st2) = max_requests rl).
      { rewrite (st_max _ _ _ _ Hst2). apply (st_max _ _ _ _ Hst1). }
      apply IH in H; [|rewrite Hmax2, Hreq2, Hreq; lia].
      destruct H as (d3 & Hst3 & Hlen3 & Hheld3). rewrite Hmax2 in Hlen3, Hheld3.
      exists ((d1 ++ stop_mark st1 ++ [EvSleep (r0 + time_window rl - clock st)]) ++ d3).
      split; [eapply steps_trans; [eapply steps_trans|]; eassumption|].
      split; [assumption|].
      rewrite !held_snapshots_app.
      destruct (stop_mark_silent st1) as (_ & -> & _). simpl.
      rewrite app_nil_r. apply Forall_app. auto.
Qed.

Lemma limiter_inv_init (t0 max window : Z) :
  0 <= max -> limiter_inv (limiter_state t0 (RateLimiter_init max window)).
Proof.
  intros Hmax. exists []. simpl. repeat split; auto. intros k a b Hk. discriminate.
Qed.

Lemma limiter_inv_pass_time (g : N) (st : State) :
  limiter_inv st -> limiter_inv (with_clock (clock st + Z.of_N g) st).
Proof.
  intros (purged & Hadm & Hold & Hlen & Hsp). exists purged. simpl.
  repeat split; auto.
  eapply Forall_impl; [exact Hold|]. cbv beta. intros; lia.
Qed.

Lemma limiter_inv_admitted (st st' : State) (d : list Event) :
  1 <= max_requests (rate_limiter st) ->
  limiter_inv st -> admitted_at st st' d -> limiter_inv st'.
Proof.
  intros Hmax (purged & Hadm & Hold & Hlen & Hsp) (Hst & Hreq & Hroom & Hnew & _).
  unfold limiter_inv.
  rewrite (st_max _ _ _ _ Hst), (st_window _ _ _ _ Hst), (st_trace _ _ _ _ Hst).
  set (rl := rate_limiter st) in *.
  destruct (purge_suffix (clock st' - time_window rl) (requests rl))
    as (dropped & Hsplit & Hdropped).
  rewrite admissions_app, Hnew, Hadm.
  pose proof (st_clock _ _ _ _ Hst) as Hmono.
  assert (Hgone : Forall (fun t => t + time_window rl <= clock st') (purged ++ dropped)).
  { apply Forall_app. split.
    - eapply Forall_impl; [exact Hold|]. cbv beta. intros; lia.
    - eapply Forall_impl; [exact Hdropped|]. cbv beta. intros; lia. }
  exists (purged ++ dropped). split; [|split; [|split]].
  - rewrite Hreq. rewrite Hsplit at 1. now rewrite !app_assoc.
  - exact Hgone.
  - rewrite Hreq, length_app. simpl. lia.
  - intros k a b Ha Hb.
    destruct (decide (k + Z.to_nat (max_requests rl) < length (purged ++ requests rl))%nat)
      as [Hin | Hout].
    + rewrite lookup_app_l in Hb by exact Hin.
      rewrite lookup_app_l in Ha by lia.
      rewrite <- Hadm in Ha, Hb. eapply Hsp; eassumption.
    + assert (Hb' : b = clock st').
      { apply lookup_lt_Some in Hb as Hlt. rewrite length_app in Hlt. simpl in Hlt.
        rewrite lookup_app_r in Hb by lia.
        destruct (k + Z.to_nat (max_requests rl) - length (purged ++ requests rl))%nat
          as [|n] eqn:Hidx; simpl in Hb; [congruence|].
        destruct n; discriminate. }
      subst b.
      assert (Hk : (k < length (purged ++ dropped))%nat).
      { apply lookup_lt_Some in Hb as Hlt.
        rewrite !length_app in *. simpl in Hlt.
        rewrite Hsplit in Hout, Hlt. rewrite length_app in Hout, Hlt. lia. }
      rewrite Hsplit in Ha. rewrite !app_assoc in Ha.
      rewrite <- (app_assoc purged) in Ha. rewrite app_assoc in Ha.
      rewrite <- app_assoc in Ha.
      rewrite lookup_app_l in Ha by exact Hk.
      eapply Forall_lookup_1 in Hgone; [|exact Ha]. cbv beta in Hgone. lia.
Qed.

(** sequential calls all return and keep the invariant *)
Lemma acquire_calls_spec (gaps : list N) (st : State) :
  (2 <= recursion_limit E)%nat ->
  1 <= max_requests (rate_limiter st) ->
  limiter_inv st ->
  exists st',
    acquire_calls E gaps st = (inr tt, st') /\ limiter_inv st' /\
    rate_limiter st' = {| max_requests := max_requests (rate_limiter st);
                          time_window := time_window (rate_limiter st);
                          requests := requests (rate_limiter st') |} /\
    length (admissions (trace st')) = (length (admissions (trace st)) + length gaps)%nat.
Proof.
  intros Hdepth. revert st. induction gaps as [|g gaps IH]; intros st Hmax Hinv.
  - exists st. simpl. split; [reflexivity|]. split; [assumption|].
    split; [now destruct (rate_limiter st) | lia].
  - cbn [acquire_calls]. unfold bind at 1, pass_time. unfold bind at 1.
    set (st1 := with_clock (clock st + Z.of_N g) st).
    pose proof (limiter_inv_pass_time g st Hinv) as Hinv1. fold st1 in Hinv1.
    destruct Hinv1 as (p1 & Hp1).
    assert (Hlen1 : Z.of_nat (length (requests (rate_limiter st1)))
                    <= max_requests (rate_limiter st1)) by apply Hp1.
    destruct (acquire_admits E (recursion_limit E) st1 Hdepth Hmax Hlen1)
      as (st2 & d & Hrun & Hadm).
    rewrite Hrun.
    pose proof (limiter_inv_admitted st1 st2 d Hmax (ex_intro _ p1 Hp1) Hadm) as Hinv2.
    destruct Hadm as (Hst & _ & _ & Hnew & _).
    destruct (IH st2) as (st' & Hrun' & Hinv' & Hrl' & Hcount); [|assumption|].
    { rewrite (st_max _ _ _ _ Hst). exact Hmax. }
    exists st'. split; [exact Hrun'|]. split; [exact Hinv'|]. split.
    + rewrite (st_max _ _ _ _ Hst), (st_window _ _ _ _ Hst) in Hrl'. exact Hrl'.
    + rewrite Hcount, (st_trace _ _ _ _ Hst), admissions_app, Hnew, length_app.
      simpl. lia.
Qed.

End Limiter.

(** ** Properties of the limiter *)

Lemma spaced_first (max window : Z) (history : list Z) (a b : Z) :
  spaced max window history ->
  history !! 0%nat = Some a -> history !! Z.to_nat max = Some b -> a + window <= b.
Proof. intros Hsp Ha Hb. exact (Hsp 0%nat a b Ha Hb). Qed.

(** C5: with twenty requests per sixty seconds, twenty-five calls made one
    after the other (with any pauses between them, at any resolution of the
    clock) all return; the twenty-first is admitted no sooner than sixty
    seconds after the first, and no call is admitted sooner than sixty
    seconds after the call twenty places before it. *)
Theorem C5_rate_limiter_25_calls (E : Env) (ticks_per_second t0 : Z) (gaps : list N) :
  length gaps = 25%nat -> (2 <= recursion_limit E)%nat ->
  exists st',
    acquire_calls E gaps
      (limiter_state t0 (RateLimiter_init 20 (60 * ticks_per_second))) = (inr tt, st') /\
    length (admissions (trace st')) = 25%nat /\
    (forall first twenty_first,
        admissions (trace st') !! 0%nat = Some first ->
        admissions (trace st') !! 20%nat = Some twenty_first ->
        first + 60 * ticks_per_second <= twenty_first) /\
    spaced 20 (60 * ticks_per_second) (admissions (trace st')).
Proof.
  intros Hgaps Hdepth.
  destruct (acquire_calls_spec E gaps
              (limiter_state t0 (RateLimiter_init 20 (60 * ticks_per_second))))
    as (st' & Hrun & (purged & _ & _ & _ & Hsp) & Hrl & Hcount);
    [assumption | simpl; lia | apply limiter_inv_init; lia |].
  rewrite Hrl in Hsp. cbn [max_requests time_window limiter_state rate_limiter
                            RateLimiter_init] in Hsp.
  simpl in Hcount.
  exists st'. split; [exact Hrun|]. split; [now rewrite Hcount, Hgaps|].
  split; [|exact Hsp].
  intros a b Ha Hb. exact (spaced_first 20 _ _ a b Hsp Ha Hb).
Qed.

Lemma C5_rate_limiter_25_calls_witness :
  exists st',
    acquire_calls blank_env (replicate 25 0%N)
      (limiter_state 0 (RateLimiter_init 20 (60 * 1000))) = (inr tt, st') /\
    length (admissions (trace st')) = 25%nat /\
    (forall first twenty_first,
        admissions (trace st') !! 0%nat = Some first ->
        admissions (trace st') !! 20%nat = Some twenty_first ->
        first + 60 * 1000 <= twenty_first) /\
    spaced 20 (60 * 1000) (admissions (trace st')).
Proof.
  apply (C5_rate_limiter_25_calls blank_env 1000 0 (replicate 25 0%N)).
  - reflexivity.
  - simpl. lia.
Defined.

(** back to back from time 0: twenty admissions at 0, five at 60 *)
Example acquire_calls_back_to_back :
  admissions (trace (acquire_calls blank_env (replicate 25 0%N)
                       (limiter_state 0 (RateLimiter_init 20 60))).2)
  = replicate 20 0 ++ replicate 5 60.
Proof. vm_compute. reflexivity. Qed.

Lemma acquire_calls_bounded (E : Env) (gaps : list N) (st : State)
    (r : Exc + unit) (st' : State) :
  Z.of_nat (length (requests (rate_limiter st))) <= max_requests (rate_limiter st) ->
  acquire_calls E gaps st = (r, st') ->
  exists d, trace st' = trace st ++ d /\
    Z.of_nat (length (requests (rate_limiter st'))) <= max_requests (rate_limiter st) /\
    Forall (fun held => Z.of_nat (length held) <= max_requests (rate_limiter st))
      (held_snapshots d).
Proof.
  revert st. induction gaps as [|g gaps IH]; intros st Hlen H.
  - injection H as <- <-. exists []. rewrite app_nil_r. repeat split; auto.
  - cbn [acquire_calls] in H. unfold bind at 1, pass_time in H. unfold bind at 1 in H.
    set (st1 := with_clock (clock st + Z.of_N g) st) in *.
    destruct (acquire E (recursion_limit E) st1) as [[e|[]] st2] eqn:Hacq;
      destruct (acquire_bounded E _ st1 _ _ Hlen Hacq) as (d & Hst & Hlen2 & Hheld);
      simpl in Hlen2, Hheld.
    + injection H as <- <-. exists d. split; [apply (st_trace _ _ _ _ Hst)|]. auto.
    + apply IH in H; [|rewrite (st_max _ _ _ _ Hst); exact Hlen2].
      destruct H as (d' & Htr & Hlen' & Hheld').
      rewrite (st_max _ _ _ _ Hst) in Hlen', Hheld'.
      exists (d ++ d'). split; [|split; [exact Hlen'|]].
      * rewrite Htr, (st_trace _ _ _ _ Hst). simpl. now rewrite app_assoc.
      * rewrite held_snapshots_app. apply Forall_app. auto.
Qed.

Lemma count_in_window_length (now window : Z) (held : list Z) :
  (count_in_window now window held <= length held)%nat.
Proof. apply length_filter. Qed.

(** C6: from its construction on and through any sequence of calls to
    [acquire], whatever their outcome, every list the limiter ever holds has
    at most [max_requests] timestamps in the window ending at any instant
    [now]. *)
Theorem C6_limiter_window_invariant (E : Env) (max window t0 : Z) (gaps : list N)
    (held : list Z) (now : Z) :
  0 <= max ->
  let final := (acquire_calls E gaps (limiter_state t0 (RateLimiter_init max window))).2 in
  held ∈ held_snapshots (trace final) \/ held = requests (rate_limiter final) ->
  Z.of_nat (count_in_window now window held) <= max.
Proof.
  intros Hmax final Hheld.
  destruct (acquire_calls E gaps (limiter_state t0 (RateLimiter_init max window)))
    as [r st'] eqn:Hrun.
  apply acquire_calls_bounded in Hrun as (d & Htr & Hlen & Hall); [|simpl; lia].
  simpl in Htr, Hlen, Hall, final. subst final.
  pose proof (count_in_window_length now window held) as Hcount.
  destruct Hheld as [Hin | ->].
  - rewrite Htr in Hin. eapply Forall_forall in Hall; [|exact Hin]. lia.
  - pose proof (count_in_window_length now window (requests (rate_limiter st'))). lia.
Qed.

Lemma C6_limiter_window_invariant_witness :
  Z.of_nat (count_in_window 60 60 [60; 60; 60; 60; 60]) <= 20.
Proof.
  apply (C6_limiter_window_invariant blank_env 20 60 0 (replicate 25 0%N)
           [60; 60; 60; 60; 60] 60).
  - lia.
  - right. vm_compute. reflexivity.
Defined.

(** ** One link *)

Section Checking.

Variable E : Env.

Lemma http_get_spec (url : string) (st : State) :
  exists st' s1 s2,
    http_get E url st = (requests_get E url (clock st), st') /\
    steps any_event st st' (s1 ++ EvFetchStart url :: s2 ++ [EvFetchEnd url]) /\
    Forall calm s1 /\ Forall calm s2 /\
    clock st' = clock st + Z.of_N (get_latency E url (clock st)) /\
    requests (rate_limiter st') = requests (rate_limiter st).
Proof.
  unfold http_get, bind, act.
  set (st1 := log (EvFetchStart url) (deliver_stop st)).
  destruct (log_deliver_limiter (EvFetchStart url) st) as [Hrl1 Hck1].
  fold st1 in Hrl1, Hck1. rewrite Hck1.
  set (t := clock st + Z.of_N (get_latency E url (clock st))).
  set (st2 := log (EvFetchEnd url) (deliver_stop (with_clock t st1))).
  exists st2, (stop_mark st), (stop_mark st1).
  split; [now destruct (requests_get E url (clock st))|].
  destruct (log_deliver_limiter (EvFetchEnd url) (with_clock t st1)) as [Hrl2 Hck2].
  fold st2 in Hrl2, Hck2.
  split; [|split; [apply stop_mark_calm|split; [apply stop_mark_calm|]]].
  - replace (stop_mark st ++ EvFetchStart url :: stop_mark st1 ++ [EvFetchEnd url])
      with ((stop_mark st ++ [EvFetchStart url]) ++ (stop_mark st1 ++ [EvFetchEnd url]))
      by now rewrite <- app_assoc.
    eapply steps_trans.
    + apply steps_plain; unfold any_event; auto; discriminate.
    + apply steps_clock; unfold any_event; auto; try discriminate.
      fold st1. rewrite Hck1. unfold t. lia.
  - split; [exact Hck2|]. rewrite Hrl2.
    change (rate_limiter (with_clock t st1)) with (rate_limiter st1).
    now rewrite Hrl1.
Qed.

Lemma steps_any (P : Event -> Prop) (st st' : State) (d : list Event) :
  steps P st st' d -> steps any_event st st' d.
Proof. apply steps_weaken. intros; exact I. Qed.

Lemma check_link_spec (link : string) (st : State)
    (r : Exc + option CheckResult) (st' : State) :
  check_link E link st = (r, st') ->
  exists d,
    steps any_event st st' d /\ check_outcome E link st r st' d /\
    (bounded st -> bounded st').
Proof.
  unfold check_link. unfold bind at 1, read_is_running.
  pose proof (steps_read st) as Hread.
  set (st1 := log (EvFlag (is_running (deliver_stop st))) (deliver_stop st)) in *.
  destruct (is_running (deliver_stop st)) eqn:Hflag; cbn [negb]; cbv beta iota.
  - destruct (deliver_stop_true st Hflag) as [Hmark Hrun].
    rewrite Hmark in Hread. simpl in Hread.
    assert (Hb1 : bounded st -> bounded st1).
    { unfold bounded, st1. simpl.
      now destruct (deliver_stop_frame st) as (_ & -> & _). }
    unfold bind at 1.
    destruct (acquire E (recursion_limit E) st1) as [[e|[]] st2] eqn:Hacq;
      cbv beta iota.
    + intros [= <- <-].
      destruct (acquire_sound E _ _ _ _ Hacq) as (q & Hq).
      exists ([EvFlag true] ++ q). split; [|split].
      * eapply steps_trans; [apply (steps_any _ _ _ _ Hread) | apply (steps_any _ _ _ _ Hq)].
      * simpl. apply co_raised; [apply (st_events _ _ _ _ Hq) | exact Hacq].
      * intros Hb. apply Hb1 in Hb.
        destruct (acquire_bounded E _ _ _ _ Hb Hacq) as (d & Hst & Hlen & _).
        unfold bounded. now rewrite (st_max _ _ _ _ Hst).
    + set (u := normalize_link link).
      unfold try_except, bind at 1.
      destruct (http_get_spec u st2) as (st3 & s1 & s2 & Hget & Hst3 & Hs1 & Hs2 & Hck3 & Hreq3).
      rewrite Hget.
      destruct (acquire_sound E _ _ _ _ Hacq) as (q & Hq).
      assert (Hres : forall r st',
                 match
                   match requests_get E u (clock st2) with
                   | inl e => (inl e, st3)
                   | inr a =>
                       (soup <- parse_html E (resp_text a);;
                        now <- time_time;;
                        ret (Some (page_result E u a soup now))) st3
                   end
                 with
                 | (inl e, st'0) =>
                     (now <- time_time;; ret (Some (error_result E u e now))) st'0
                 | (inr a, st'0) => (inr a, st'0)
                 end = (r, st') ->
                 r = inr (Some (fetch_result E u (clock st2))) /\ st' = st3).
      { intros r0 st0. unfold fetch_result, bind, time_time, ret, parse_html.
        rewrite <- Hck3.
        destruct (requests_get E u (clock st2)) as [e|resp].
        - intros [= <- <-]. auto.
        - destruct (BeautifulSoup E (resp_text resp)) as [e|soup];
            intros [= <- <-]; auto. }
      intros H. apply Hres in H as [-> ->].
      exists ([EvFlag true] ++ q ++ (s1 ++ EvFetchStart u :: s2 ++ [EvFetchEnd u])).
      split; [|split].
      * eapply steps_trans; [apply (steps_any _ _ _ _ Hread)|].
        eapply steps_trans; [apply (steps_any _ _ _ _ Hq) | exact Hst3].
      * simpl. rewrite app_assoc. apply co_checked; [|exact Hs2].
        apply Forall_app. split; [apply (st_events _ _ _ _ Hq) | exact Hs1].
      * intros Hb. apply Hb1 in Hb.
        destruct (acquire_bounded E _ _ _ _ Hb Hacq) as (d & Hst & Hlen & _).
        unfold bounded. rewrite Hreq3, (st_max _ _ _ _ Hst3), (st_max _ _ _ _ Hst).
        exact Hlen.
  - unfold ret. intros [= <- <-]. exists (stop_mark st ++ [EvFlag false]).
    split; [apply (steps_any _ _ _ _ Hread)|]. split.
    + apply co_skipped. simpl. exact Hflag.
    + unfold bounded, st1. simpl.
      now destruct (deliver_stop_frame st) as (_ & -> & _).
Qed.

End Checking.

(** ** Projections of a trace *)

Lemma progress_app (a b : list Event) : progress (a ++ b) = progress a ++ progress b.
Proof. apply flat_map_app. Qed.

Lemma io_events_app (a b : list Event) : io_events (a ++ b) = io_events a ++ io_events b.
Proof. apply List.filter_app. Qed.

Lemma in_flight_app (a b : list Event) : in_flight (a ++ b) = in_flight a + in_flight b.
Proof. induction a as [|e a IH]; simpl; [reflexivity|]. unfold in_flight in *. simpl. lia. Qed.

Lemma quiet_silent (q : list Event) :
  Forall quiet q ->
  progress q = [] /\ io_events q = [] /\ Forall (fun e => fetch_delta e = 0) q /\
  Forall (fun e => is_fetch_start e = false) q.
Proof.
  induction 1 as [|e q He _ (Hp & Hio & Hfd & Hfs)]; [repeat split; constructor|].
  destruct e; simpl in He; try contradiction; simpl; rewrite ?Hp, ?Hio;
    repeat split; auto.
Qed.

(** ** The loop *)

Section Looping.

Variable E : Env.

Lemma run_loop_stopped (links : list string) (st : State) :
  is_running st = false ->
  exists st' d,
    run_loop E links st = (inr tt, st') /\ steps quiet st st' d /\
    (bounded st -> bounded st').
Proof.
  intros Hstopped. destruct links as [|link rest].
  - exists st, []. split; [reflexivity|]. split; [apply steps_refl | auto].
  - cbn [run_loop]. unfold bind at 1, read_is_running.
    rewrite (deliver_stop_false st Hstopped). cbn [negb]. cbv beta iota.
    eexists _, _. split; [reflexivity|].
    pose proof (steps_read st) as Hread.
    rewrite (deliver_stop_false st Hstopped) in Hread.
    split; [exact Hread|].
    unfold bounded. simpl.
    now destruct (deliver_stop_frame st) as (_ & -> & _).
Qed.

Lemma run_loop_spec (links : list string) (st : State) (r : Exc + unit) (st' : State) :
  run_loop E links st = (r, st') ->
  exists d,
    steps any_event st st' d /\ loop_trace E links d /\ (bounded st -> bounded st') /\
    raised_by_acquire E st r /\
    (r = inr tt -> is_running st' = true -> (progress d).*1 = links).
Proof.
  revert st. induction links as [|link rest IH]; intros st H.
  - injection H as <- <-. exists []. split; [apply steps_refl|].
    split; [apply LT_end; constructor | simpl; auto].
  - cbn [run_loop] in H. unfold bind at 1, read_is_running in H.
    pose proof (steps_read st) as Hread.
    set (st1 := log (EvFlag (is_running (deliver_stop st))) (deliver_stop st)) in *.
    assert (Hb1 : bounded st -> bounded st1).
    { unfold bounded, st1. simpl.
      now destruct (deliver_stop_frame st) as (_ & -> & _). }
    destruct (is_running (deliver_stop st)) eqn:Hflag; cbn [negb] in H; cbv beta iota in H.
    + destruct (deliver_stop_true st Hflag) as [Hmark _].
      rewrite Hmark in Hread. simpl in Hread.
      unfold bind at 1 in H.
      destruct (check_link E (str_strip E link) st1) as [rc st2] eqn:Hcheck.
      destruct (check_link_spec E _ _ _ _ Hcheck) as (dc & Hst2 & Hout & Hb2).
      destruct Hout as [st2 Hstopped | e st2 q Hq Hacq | st2 q1 q2 t Hq1 Hq2].
      * unfold bind, ret in H.
        destruct (run_loop_stopped rest st2 Hstopped) as (st3 & d3 & Hrun & Hst3 & Hb3).
        rewrite Hrun in H. injection H as <- <-.
        exists ([EvFlag true] ++ (stop_mark st1 ++ [EvFlag false]) ++ d3).
        split; [|split; [|split; [auto|split; [exact I|]]]].
        -- eapply steps_trans; [apply (steps_any _ _ _ _ Hread)|].
           eapply steps_trans; [exact Hst2 | apply (steps_any _ _ _ _ Hst3)].
        -- apply LT_end. constructor; [exact I|].
           apply Forall_app. split; [|apply (st_events _ _ _ _ Hst3)].
           apply Forall_app. split; [|now repeat constructor].
           apply calm_quiet, stop_mark_calm.
        -- intros _ Hrunning.
           rewrite (st_false _ _ _ _ Hst3 Hstopped) in Hrunning. discriminate.
      * injection H as <- <-.
        exists ([EvFlag true] ++ EvFlag true :: q).
        split; [|split; [|split; [auto|split; [|discriminate]]]].
        -- eapply steps_trans; [apply (steps_any _ _ _ _ Hread) | exact Hst2].
        -- apply LT_end. repeat constructor. now apply calm_quiet.
        -- simpl. eexists _, _. split; [exact Hacq|]. split.
           ++ intros Hb. apply Hb1 in Hb. unfold bounded in *. simpl.
              now destruct (deliver_stop_frame st1) as (_ & -> & _).
           ++ simpl. destruct (deliver_stop_frame st1) as (_ & -> & _).
              apply (st_max _ _ _ _ Hread).
      * unfold bind at 1, act in H.
        set (res := fetch_result E (normalize_link (str_strip E link)) t) in *.
        set (st3 := log (EvProgress link res) (deliver_stop st2)) in *.
        assert (Hst3 : steps any_event st2 st3 (stop_mark st2 ++ [EvProgress link res])).
        { apply steps_plain; unfold any_event; auto; discriminate. }
        assert (Hb3 : bounded st2 -> bounded st3).
        { unfold bounded, st3. simpl.
          now destruct (deliver_stop_frame st2) as (_ & -> & _). }
        apply IH in H as (d & Hst' & Hshape & Hb' & Hraise & Hall).
        exists ([EvFlag true]
                  ++ (EvFlag true :: q1 ++ EvFetchStart (normalize_link (str_strip E link))
                        :: q2 ++ [EvFetchEnd (normalize_link (str_strip E link))])
                  ++ (stop_mark st2 ++ [EvProgress link res]) ++ d).
        split; [|split; [|split; [auto|split]]].
        -- eapply steps_trans; [apply (steps_any _ _ _ _ Hread)|].
           eapply steps_trans; [exact Hst2|].
           eapply steps_trans; [exact Hst3 | exact Hst'].
        -- simpl. rewrite <- !app_assoc. simpl. rewrite <- !app_assoc. simpl.
           apply LT_item; auto using stop_mark_calm.
        -- destruct r as [e|u]; [|exact I].
           destruct Hraise as (st_a & st_b & Hacq & Hba & Hmax).
           exists st_a, st_b. split; [exact Hacq|]. split; [auto|].
           rewrite Hmax, (st_max _ _ _ _ Hst3), (st_max _ _ _ _ Hst2).
           apply (st_max _ _ _ _ Hread).
        -- intros Hr Hrunning. specialize (Hall Hr Hrunning).
           destruct (quiet_silent q1 (calm_quiet _ Hq1)) as (Hp1 & _).
           destruct (quiet_silent q2 (calm_quiet _ Hq2)) as (Hp2 & _).
           destruct (quiet_silent _ (calm_quiet _ (stop_mark_calm st2))) as (Hp3 & _).
           change (EvFlag true :: ?x) with ([EvFlag true] ++ x).
           change (EvFetchStart ?u :: ?x) with ([EvFetchStart u] ++ x).
           rewrite !progress_app, Hp1, Hp2, Hp3. rewrite <- Hall. reflexivity.
    + unfold ret in H. injection H as <- <-.
      exists (stop_mark st ++ [EvFlag false]).
      split; [apply (steps_any _ _ _ _ Hread)|]. split; [|split; [auto|split; [exact I|]]].
      * apply LT_end. apply (st_events _ _ _ _ Hread).
      * intros _ Hrunning. unfold st1 in Hrunning. simpl in Hrunning. congruence.
Qed.

End Looping.

(** ** What the shape of the loop's trace says *)
Lemma quiet_is_silent (q : list Event) : Forall quiet q -> Forall silent q.
Proof.
  intros H. eapply Forall_impl; [exact H|].
  intros []; simpl; try contradiction; reflexivity.
Qed.

Lemma silent_facts (q : list Event) :
  Forall silent q ->
  progress q = [] /\ io_events q = [] /\ Forall (fun e => fetch_delta e = 0) q /\
  Forall (fun e => is_fetch_start e = false) q.
Proof.
  induction 1 as [|e q He _ (Hp & Hio & Hfd & Hfs)]; [repeat split; constructor|].
  destruct e; unfold silent in He; simpl in He; try discriminate; simpl;
    rewrite ?Hp, ?Hio; repeat split; auto.
Qed.

Lemma alternates_skip (busy : bool) (q tr : list Event) :
  Forall (fun e => fetch_delta e = 0) q ->
  alternates busy tr -> alternates busy (q ++ tr).
Proof.
  induction 1 as [|e q He _ IH]; intros Htr; [exact Htr|].
  destruct e; simpl in He; try discriminate; simpl; auto.
Qed.

Lemma alternates_in_flight (busy : bool) (tr : list Event) (n : nat) :
  alternates busy tr ->
  0 <= (if busy then 1 else 0) + in_flight (take n tr) <= 1.
Proof.
  revert busy n. induction tr as [|e tr IH]; intros busy n H.
  - rewrite take_nil. simpl. destruct busy; lia.
  - destruct n as [|n]; [simpl; destruct busy; lia|].
    rewrite firstn_cons.
    change (in_flight (e :: take n tr)) with (fetch_delta e + in_flight (take n tr)).
    destruct e; simpl in H; simpl fetch_delta; try (specialize (IH busy n H); lia).
    + destruct H as [-> H]. specialize (IH true n H). simpl in IH. lia.
    + destruct H as [-> H]. specialize (IH false n H). simpl in IH. lia.
Qed.

Section Shape.

Variable E : Env.

Lemma loop_trace_io (links : list string) (d : list Event) :
  loop_trace E links d -> io_events d = flat_map (link_io E) (progress d).
Proof.
  induction 1 as [links q Hq | link links q1 q2 q3 t d Hq1 Hq2 Hq3 _ IH].
  - destruct (quiet_silent q Hq) as (-> & -> & _). reflexivity.
  - destruct (quiet_silent q1 (calm_quiet _ Hq1)) as (Hp1 & Hio1 & _).
    destruct (quiet_silent q2 (calm_quiet _ Hq2)) as (Hp2 & Hio2 & _).
    destruct (quiet_silent q3 (calm_quiet _ Hq3)) as (Hp3 & Hio3 & _).
    change (EvFlag true :: EvFlag true :: ?x) with ([EvFlag true; EvFlag true] ++ x).
    rewrite !io_events_app, !progress_app.
    change (EvFetchStart ?u :: ?x) with ([EvFetchStart u] ++ x).
    rewrite !io_events_app, !progress_app.
    change (EvFetchEnd ?u :: ?x) with ([EvFetchEnd u] ++ x).
    rewrite !io_events_app, !progress_app.
    change (EvProgress ?l ?r :: ?x) with ([EvProgress l r] ++ x).
    rewrite !io_events_app, !progress_app.
    rewrite Hp1, Hp2, Hp3, Hio1, Hio2, Hio3, IH. reflexivity.
Qed.

Lemma loop_trace_progress (links : list string) (d : list Event) :
  loop_trace E links d ->
  exists later,
    links = (progress d).*1 ++ later /\
    Forall (fun lr => exists t,
                lr.2 = fetch_result E (normalize_link (str_strip E lr.1)) t)
           (progress d).
Proof.
  induction 1 as [links q Hq | link links q1 q2 q3 t d Hq1 Hq2 Hq3 _ IH].
  - destruct (quiet_silent q Hq) as (-> & _). exists links. split; [reflexivity|constructor].
  - destruct (quiet_silent q1 (calm_quiet _ Hq1)) as (Hp1 & _).
    destruct (quiet_silent q2 (calm_quiet _ Hq2)) as (Hp2 & _).
    destruct (quiet_silent q3 (calm_quiet _ Hq3)) as (Hp3 & _).
    destruct IH as (later & Hlinks & Hall).
    change (EvFlag true :: EvFlag true :: ?x) with ([EvFlag true; EvFlag true] ++ x).
    rewrite !progress_app.
    change (EvFetchStart ?u :: ?x) with ([EvFetchStart u] ++ x).
    rewrite !progress_app.
    change (EvFetchEnd ?u :: ?x) with ([EvFetchEnd u] ++ x).
    rewrite !progress_app.
    change (EvProgress ?l ?r :: ?x) with ([EvProgress l r] ++ x).
    rewrite !progress_app, Hp1, Hp2, Hp3. simpl.
    exists later. split; [now rewrite Hlinks at 1|].
    constructor; [|exact Hall]. simpl. eauto.
Qed.

Lemma loop_trace_alternates (links : list string) (d tail : list Event) :
  loop_trace E links d -> Forall silent tail -> alternates false (d ++ tail).
Proof.
  intros Hd Htail.
  assert (Hend : alternates false tail).
  { destruct (silent_facts tail Htail) as (_ & _ & Hfd & _).
    rewrite <- (app_nil_r tail). now apply alternates_skip. }
  induction Hd as [links q Hq | link links q1 q2 q3 t d Hq1 Hq2 Hq3 _ IH].
  - destruct (quiet_silent q Hq) as (_ & _ & Hfd & _). now apply alternates_skip.
  - destruct (quiet_silent q1 (calm_quiet _ Hq1)) as (_ & _ & Hfd1 & _).
    destruct (quiet_silent q2 (calm_quiet _ Hq2)) as (_ & _ & Hfd2 & _).
    destruct (quiet_silent q3 (calm_quiet _ Hq3)) as (_ & _ & Hfd3 & _).
    cbn [app alternates]. rewrite <- app_assoc.
    apply alternates_skip; [exact Hfd1|].
    cbn [app alternates]. split; [reflexivity|]. rewrite <- app_assoc.
    apply alternates_skip; [exact Hfd2|].
    cbn [app alternates]. split; [reflexivity|]. rewrite <- app_assoc.
    apply alternates_skip; [exact Hfd3|].
    cbn [app alternates]. exact IH.
Qed.

End Shape.

(** ** The pool plays no part *)

Lemma pool_blind_ret {A : Type} (a : A) : pool_blind (ret a).
Proof. intros ex st. reflexivity. Qed.

Lemma pool_blind_raise {A : Type} (e : Exc) : pool_blind (@raise A e).
Proof. intros ex st. reflexivity. Qed.

Lemma pool_blind_bind {A B : Type} (m : M A) (k : A -> M B) :
  pool_blind m -> (forall a, pool_blind (k a)) -> pool_blind (bind m k).
Proof.
  intros Hm Hk ex st. unfold bind. rewrite Hm.
  destruct (m st) as [[e|a] st1]; simpl; [reflexivity | apply Hk].
Qed.

Lemma pool_blind_try {A : Type} (m : M A) (h : Exc -> M A) :
  pool_blind m -> (forall e, pool_blind (h e)) -> pool_blind (try_except m h).
Proof.
  intros Hm Hh ex st. unfold try_except. rewrite Hm.
  destruct (m st) as [[e|a] st1]; simpl; [apply Hh | reflexivity].
Qed.

Lemma deliver_stop_executor (ex : option Executor) (st : State) :
  deliver_stop (with_executor ex st) = with_executor ex (deliver_stop st).
Proof.
  unfold deliver_stop. simpl. destruct (pending_stop st) as [[|n]|]; reflexivity.
Qed.

Lemma pool_blind_act (e : Event) : pool_blind (act e).
Proof. intros ex st. unfold act. now rewrite deliver_stop_executor. Qed.

Lemma pool_blind_read : pool_blind read_is_running.
Proof. intros ex st. unfold read_is_running. now rewrite deliver_stop_executor. Qed.

Lemma pool_blind_time : pool_blind time_time.
Proof. intros ex st. reflexivity. Qed.

Lemma pool_blind_limiter : pool_blind get_limiter.
Proof. intros ex st. reflexivity. Qed.

Lemma pool_blind_purge_loop (cutoff : Z) (rs : list Z) : pool_blind (purge_loop cutoff rs).
Proof.
  induction rs as [|r rs IH]; simpl; [apply pool_blind_ret|].
  destruct (r <=? cutoff); [|apply pool_blind_ret].
  apply pool_blind_bind; [|intros _; exact IH].
  intros ex st. unfold pop_front.
  change (with_requests rs (with_executor ex st))
    with (with_executor ex (with_requests rs st)).
  now rewrite deliver_stop_executor.
Qed.

Section Pool.

Variable E : Env.

Lemma pool_blind_sleep (d : Z) : pool_blind (time_sleep E d).
Proof. intros ex st. unfold time_sleep. now rewrite deliver_stop_executor. Qed.

Lemma pool_blind_append (t : Z) : pool_blind (append_request t).
Proof.
  intros ex st. unfold append_request.
  change (with_requests ?rs (with_executor ex st))
    with (with_executor ex (with_requests rs st)).
  now rewrite deliver_stop_executor.
Qed.

Lemma pool_blind_acquire (depth : nat) : pool_blind (acquire E depth).
Proof.
  induction depth as [|depth IH]; cbn [acquire]; [apply pool_blind_raise|].
  apply pool_blind_bind; [apply pool_blind_time | intros t].
  apply pool_blind_bind; [apply pool_blind_limiter | intros rl].
  apply pool_blind_bind; [apply pool_blind_purge_loop | intros _].
  apply pool_blind_bind; [apply pool_blind_limiter | intros rl'].
  destruct (max_requests rl' <=? Z.of_nat (length (requests rl')));
    [|apply pool_blind_append].
  destruct (requests rl') as [|r0 rest]; [apply pool_blind_raise|].
  destruct (0 <? r0 + time_window rl' - t); [|apply pool_blind_append].
  apply pool_blind_bind; [apply pool_blind_sleep | intros _; exact IH].
Qed.

Lemma pool_blind_http_get (url : string) : pool_blind (http_get E url).
Proof.
  unfold http_get. apply pool_blind_bind; [apply pool_blind_act | intros _].
  intros ex st. simpl clock.
  change (with_clock ?t (with_executor ex st)) with (with_executor ex (with_clock t st)).
  rewrite deliver_stop_executor.
  destruct (requests_get E url (clock st)); reflexivity.
Qed.

Lemma pool_blind_parse (text : string) : pool_blind (parse_html E text).
Proof. intros ex st. unfold parse_html. destruct (BeautifulSoup E text); reflexivity. Qed.

Lemma pool_blind_check_link (link : string) : pool_blind (check_link E link).
Proof.
  unfold check_link. apply pool_blind_bind; [apply pool_blind_read | intros running].
  destruct (negb running); [apply pool_blind_ret|].
  apply pool_blind_bind; [apply pool_blind_acquire | intros _].
  apply pool_blind_try.
  - apply pool_blind_bind; [apply pool_blind_http_get | intros response].
    apply pool_blind_bind; [apply pool_blind_parse | intros soup].
    apply pool_blind_bind; [apply pool_blind_time | intros now].
    apply pool_blind_ret.
  - intros e. apply pool_blind_bind; [apply pool_blind_time | intros now].
    apply pool_blind_ret.
Qed.

Lemma pool_blind_run_loop (links : list string) : pool_blind (run_loop E links).
Proof.
  induction links as [|link rest IH]; cbn [run_loop]; [apply pool_blind_ret|].
  apply pool_blind_bind; [apply pool_blind_read | intros running].
  destruct (negb running); [apply pool_blind_ret|].
  apply pool_blind_bind; [apply pool_blind_check_link | intros result].
  apply pool_blind_bind; [|intros _; exact IH].
  destruct result; [apply pool_blind_act | apply pool_blind_ret].
Qed.

(** the loop of [run] is the plain loop *)
Lemma run_loop_sequential (links : list string) (st : State) :
  run_loop E links st = sequential_loop E links st.
Proof.
  revert st. induction links as [|link rest IH]; intros st; [reflexivity|].
  cbn [run_loop sequential_loop]. unfold bind at 1, read_is_running.
  cbv zeta. simpl is_running.
  destruct (is_running (deliver_stop st)); cbn [negb]; cbv beta iota; [|reflexivity].
  unfold bind at 1.
  destruct (check_link E (str_strip E link) _) as [[e|[res|]] st2]; [reflexivity| |].
  - unfold bind, act. apply IH.
  - unfold bind, ret. apply IH.
Qed.

(** [run] is the loop inside the pool block, then one closing signal *)
Lemma run_unfold (links : list string) (st : State) :
  run E links st =
    (inr tt,
     log (closing (run_loop E links (with_executor the_pool st)).1)
         (deliver_stop (run_loop E links (with_executor the_pool st)).2)).
Proof.
  unfold run, try_except, with_pool, bind. fold the_pool.
  destruct (run_loop E links (with_executor the_pool st)) as [[e|[]] st1]; reflexivity.
Qed.

Lemma run_spec (links : list string) (st : State) :
  exists r1 st1 d,
    run_loop E links (with_executor the_pool st) = (r1, st1) /\
    steps any_event (with_executor the_pool st) st1 d /\
    loop_trace E links d /\
    (bounded st -> bounded st1) /\
    run E links st = (inr tt, log (closing r1) (deliver_stop st1)) /\
    trace (run E links st).2 = trace st ++ d ++ stop_mark st1 ++ [closing r1] /\
    Forall silent (stop_mark st1 ++ [closing r1]) /\
    executor (run E links st).2 = the_pool.
Proof.
  rewrite run_unfold.
  destruct (run_loop E links (with_executor the_pool st)) as [r1 st1] eqn:Hloop.
  destruct (run_loop_spec E _ _ _ _ Hloop) as (d & Hst & Hshape & Hb & _).
  exists r1, st1, d. simpl.
  split; [reflexivity|]. split; [exact Hst|]. split; [exact Hshape|].
  split; [exact Hb|]. split; [reflexivity|]. split; [|split].
  - rewrite trace_deliver_stop, (st_trace _ _ _ _ Hst). simpl.
    now rewrite <- !app_assoc.
  - apply Forall_app. split.
    + apply quiet_is_silent, calm_quiet, stop_mark_calm.
    + repeat constructor. now destruct r1.
  - destruct (deliver_stop_frame st1) as (_ & _ & ->).
    now rewrite (st_executor _ _ _ _ Hst).
Qed.

End Pool.

(** C2: [run] computes exactly what the plain one-link-at-a-time loop
    computes, the pool that it creates being left with no task; in the trace
    of a run the requests and signals are those of the processed links, one
    link after the other in the order of submission (each link's request,
    its return, its signal, then the next link's), the processed links are
    an initial part of the submitted ones, and at no point of the run is
    more than one request under way. *)
Theorem C2_run_is_sequential (E : Env) (links : list string) (t0 : Z)
    (stop_after : option nat) :
  (forall st : State,
      run E links st =
        ((sequential_run E links st).1,
         with_executor (Some {| max_workers := 5; work_items := [] |})
                       (sequential_run E links st).2)) /\
  executor (run E links (LinkChecker_init t0 stop_after)).2
    = Some {| max_workers := 5; work_items := [] |} /\
  io_events (trace (run E links (LinkChecker_init t0 stop_after)).2)
    = flat_map (link_io E) (progress (trace (run E links (LinkChecker_init t0 stop_after)).2)) /\
  (progress (trace (run E links (LinkChecker_init t0 stop_after)).2)).*1 `prefix_of` links /\
  (forall n : nat,
      0 <= in_flight (take n (trace (run E links (LinkChecker_init t0 stop_after)).2)) <= 1).
Proof.
  split.
  { intros st. rewrite run_unfold. fold the_pool.
    rewrite (pool_blind_run_loop E links the_pool st), run_loop_sequential.
    unfold sequential_run. simpl.
    destruct (sequential_loop E links st) as [[e|[]] st1]; simpl;
      now rewrite deliver_stop_executor. }
  destruct (run_spec E links (LinkChecker_init t0 stop_after))
    as (r1 & st1 & d & _ & _ & Hshape & _ & _ & Htrace & Htail & Hpool).
  rewrite Htrace. simpl.
  destruct (silent_facts _ Htail) as (Hp & Hio & _).
  destruct (loop_trace_progress E links d Hshape) as (later & Hlinks & _).
  split; [exact Hpool|]. split; [|split].
  - rewrite io_events_app, progress_app, Hp, Hio, !app_nil_r.
    now apply (loop_trace_io E links).
  - rewrite progress_app, Hp, app_nil_r. now exists later.
  - intros n. pose proof (loop_trace_alternates E links d _ Hshape Htail) as Halt.
    pose proof (alternates_in_flight false _ n Halt). simpl in *. lia.
Qed.

(** ** The result dictionary *)

Lemma aggregate_list_to_map (tr : list Event) :
  aggregate tr = list_to_map (reverse (progress tr)).
Proof.
  unfold aggregate. induction (progress tr) as [|[k v] l IH] using rev_ind.
  - reflexivity.
  - rewrite foldl_snoc, reverse_snoc, list_to_map_cons, <- IH. reflexivity.
Qed.

Lemma aggregate_facts (tr : list Event) :
  NoDup (progress tr).*1 ->
  size (aggregate tr) = length (progress tr) /\
  dom (aggregate tr) = list_to_set (progress tr).*1 /\
  (forall link r, (link, r) ∈ progress tr <-> aggregate tr !! link = Some r).
Proof.
  intros Hnd. rewrite aggregate_list_to_map.
  assert (Hnd' : NoDup (reverse (progress tr)).*1).
  { rewrite fmap_reverse, reverse_Permutation. exact Hnd. }
  split; [|split].
  - rewrite map_size_list_to_map by exact Hnd'. apply length_reverse.
  - rewrite dom_list_to_map_L, fmap_reverse.
    apply set_eq. intros x. rewrite !elem_of_list_to_set. apply elem_of_reverse.
  - intros link r. rewrite <- elem_of_list_to_map by exact Hnd'.
    symmetry. apply elem_of_reverse.
Qed.

Lemma prefix_append (p s : string) : String.prefix p (p +:+ s) = true.
Proof.
  induction p as [|c p IH]; simpl; [now destruct s|].
  destruct (Ascii.ascii_dec c c); [exact IH | congruence].
Qed.

Section Results.

Variable E : Env.

Lemma fetch_result_terminal (u : string) (t : Z) :
  terminal_status (r_status (fetch_result E u t)) = true.
Proof.
  unfold fetch_result, terminal_status.
  assert (Herr : forall e now,
             bool_decide (r_status (error_result E u e now) = status_valid)
             || bool_decide (r_status (error_result E u e now) = status_invalid)
             || String.prefix status_error_prefix (r_status (error_result E u e now)) = true).
  { intros e now. cbn [r_status error_result]. rewrite prefix_append. apply orb_true_r. }
  destruct (requests_get E u t) as [e|response]; [apply Herr|].
  destruct (BeautifulSoup E (resp_text response)) as [e|soup]; [apply Herr|].
  cbn [r_status page_result].
  destruct (find_title soup).
  - rewrite (bool_decide_eq_true_2 _ eq_refl). reflexivity.
  - rewrite (bool_decide_eq_true_2 (status_invalid = status_invalid) eq_refl).
    now rewrite orb_true_r.
Qed.

Lemma fetch_result_raises (u : string) (t : Z) (msg : Exc) :
  fetch_raises E u t msg ->
  fetch_result E u t = error_result E u msg (t + Z.of_N (get_latency E u t)).
Proof.
  unfold fetch_result. intros [-> | (response & -> & ->)]; reflexivity.
Qed.

Lemma run_loop_returns (links : list string) (st : State) (r : Exc + unit) (st' : State) :
  bounded st -> 1 <= max_requests (rate_limiter st) -> (2 <= recursion_limit E)%nat ->
  run_loop E links st = (r, st') -> r = inr tt.
Proof.
  intros Hb Hmax Hdepth Hrun.
  destruct (run_loop_spec E _ _ _ _ Hrun) as (d & _ & _ & _ & Hraise & _).
  destruct r as [e|[]]; [|reflexivity].
  destruct Hraise as (st_a & st_b & Hacq & Hba & Hmax_a).
  destruct (acquire_admits E (recursion_limit E) st_a Hdepth) as (st2 & d2 & Hok & _).
  - now rewrite Hmax_a.
  - now apply Hba.
  - congruence.
Qed.

(** a run that nobody stops: it ends with [finished_signal], still running,
    and has emitted one record per link, in order *)
Lemma run_unstopped (links : list string) (t0 : Z) :
  (2 <= recursion_limit E)%nat ->
  let final := (run E links (LinkChecker_init t0 None)).2 in
  is_running final = true /\
  last (trace final) = Some EvFinished /\
  (progress (trace final)).*1 = links /\
  Forall (fun lr => exists t,
              lr.2 = fetch_result E (normalize_link (str_strip E lr.1)) t)
         (progress (trace final)).
Proof.
  intros Hdepth final. subst final.
  destruct (run_spec E links (LinkChecker_init t0 None))
    as (r1 & st1 & d & Hloop & Hst & Hshape & Hb & Hrun & Htrace & Htail & _).
  assert (Hb0 : bounded (LinkChecker_init t0 None)) by (unfold bounded; simpl; lia).
  assert (r1 = inr tt) as ->.
  { eapply run_loop_returns; [| | exact Hdepth | exact Hloop]; [exact Hb0 | simpl; lia]. }
  destruct (st_unstopped _ _ _ _ Hst eq_refl) as (Hpend & Hrunning & _).
  simpl in Hrunning.
  destruct (run_loop_spec E _ _ _ _ Hloop) as (d' & Hst' & _ & _ & _ & Hall).
  assert (d' = d) as ->.
  { pose proof (st_trace _ _ _ _ Hst) as H1. pose proof (st_trace _ _ _ _ Hst') as H2.
    rewrite H1 in H2. now apply app_inv_head in H2. }
  specialize (Hall eq_refl Hrunning).
  destruct (loop_trace_progress E links d Hshape) as (later & _ & Hres).
  assert (Hmark : stop_mark st1 = []) by (unfold stop_mark; now rewrite Hpend).
  rewrite Hmark in Htrace. simpl in Htrace.
  rewrite Htrace, progress_app, app_nil_r. split; [|split; [|split]].
  - rewrite Hrun. simpl. now rewrite (deliver_stop_none st1 Hpend).
  - apply last_snoc.
  - exact Hall.
  - exact Hres.
Qed.

End Results.

(** ** Properties of checked links *)

(** C8: a run over distinct links that nobody stops ends in Completed, and
    the dictionary then has exactly one entry per link, keyed by the link as
    it was submitted, each with one of the three final statuses. *)
Theorem C8_every_link_aggregated (E : Env) (links : list string) (t0 : Z) :
  NoDup links -> (2 <= recursion_limit E)%nat ->
  let results := aggregate (trace (run E links (LinkChecker_init t0 None)).2) in
  engine_state (run E links (LinkChecker_init t0 None)).2 = Completed /\
  size results = length links /\
  dom results = list_to_set links /\
  (forall link, link ∈ links ->
     exists r, results !! link = Some r /\ terminal_status (r_status r) = true).
Proof.
  intros Hnd Hdepth results. subst results.
  destruct (run_unstopped E links t0 Hdepth) as (Hrunning & Hlast & Hkeys & Hres).
  set (final := (run E links (LinkChecker_init t0 None)).2) in *.
  assert (Hnd' : NoDup (progress (trace final)).*1) by now rewrite Hkeys.
  destruct (aggregate_facts (trace final) Hnd') as (Hsize & Hdom & Hlook).
  split; [|split; [|split]].
  - unfold engine_state. now rewrite Hlast, Hrunning.
  - now rewrite Hsize, <- Hkeys, length_fmap.
  - now rewrite Hdom, Hkeys.
  - intros link Hin. rewrite <- Hkeys in Hin.
    apply list_elem_of_fmap in Hin as ([l r] & -> & Hin).
    exists r. split; [now apply Hlook|].
    eapply Forall_forall in Hres; [|exact Hin].
    destruct Hres as (t & Hr). simpl in Hr. rewrite Hr.
    apply fetch_result_terminal.
Qed.

Lemma C8_every_link_aggregated_witness :
  let results := aggregate (trace (run blank_env ["@a"; " b "] (LinkChecker_init 0 None)).2) in
  engine_state (run blank_env ["@a"; " b "] (LinkChecker_init 0 None)).2 = Completed /\
  size results = length ["@a"; " b "] /\
  dom results = list_to_set ["@a"; " b "] /\
  (forall link, link ∈ ["@a"; " b "] ->
     exists r, results !! link = Some r /\ terminal_status (r_status r) = true).
Proof.
  apply (C8_every_link_aggregated blank_env ["@a"; " b "] 0).
  - apply NoDup_cons. split; [|apply NoDup_singleton].
    rewrite list_elem_of_singleton. discriminate.
  - simpl. lia.
Defined.

(** ** The request a record comes from *)

Section Exact.

Variable E : Env.

(** a call of [acquire] that returns has just recorded the reading of the
    clock at which it returns *)
Lemma acquire_returns (depth : nat) (st st' : State) :
  acquire E depth st = (inr tt, st') ->
  exists held, last (trace st') = Some (EvAdmit (clock st') held).
Proof.
  revert st st'. induction depth as [|depth IH]; intros st st' H; [discriminate|].
  cbn [acquire] in H. unfold bind at 1 2 3, time_time, get_limiter in H.
  destruct (purge_loop_spec (clock st - time_window (rate_limiter st))
              (requests (rate_limiter st)) st eq_refl)
    as (st1 & d1 & Hrun & Hst1 & Hreq & Hck & _).
  rewrite Hrun in H. unfold bind at 1 in H.
  assert (Happend : append_request (clock st) st1 = (inr tt, st') ->
                    exists held, last (trace st') = Some (EvAdmit (clock st') held)).
  { intros Hap.
    destruct (append_request_spec (clock st) st1) as (st2 & Hap2 & Hst2 & Hck2 & _).
    rewrite Hap2 in Hap. injection Hap as <-.
    rewrite (st_trace _ _ _ _ Hst2), app_assoc, last_snoc, Hck2, Hck. eauto. }
  destruct (max_requests (rate_limiter st1) <=? Z.of_nat (length (requests (rate_limiter st1))));
    [|now apply Happend].
  destruct (requests (rate_limiter st1)) as [|r0 rest]; [discriminate|].
  destruct (Z.ltb_spec 0 (r0 + time_window (rate_limiter st1) - clock st)) as [Hpos|Hneg];
    [|now apply Happend].
  unfold bind in H.
  destruct (time_sleep_spec E (r0 + time_window (rate_limiter st1) - clock st) st1)
    as (st2 & Hsl & _); [lia|].
  rewrite Hsl in H. now apply IH in H.
Qed.

Lemma last_admission (tr : list Event) (t : Z) (held : list Z) :
  last tr = Some (EvAdmit t held) -> last (admissions tr) = Some t.
Proof.
  intros H. destruct tr as [|e tr _] using rev_ind; [discriminate|].
  rewrite last_snoc in H. injection H as ->.
  rewrite admissions_app. simpl. apply last_snoc.
Qed.

(** [requests.get] is called with the reading of the clock at the call *)
Lemma http_get_exact (url : string) (st : State) :
  exists st' d,
    http_get E url st = (requests_get E url (clock st), st') /\
    trace st' = trace st ++ d /\ admissions d = [] /\ progress d = [] /\
    clock st' = clock st + Z.of_N (get_latency E url (clock st)).
Proof.
  unfold http_get, bind, act.
  set (st1 := log (EvFetchStart url) (deliver_stop st)).
  destruct (log_deliver_limiter (EvFetchStart url) st) as [_ Hck1].
  fold st1 in Hck1. rewrite Hck1.
  set (t := clock st + Z.of_N (get_latency E url (clock st))).
  set (st2 := log (EvFetchEnd url) (deliver_stop (with_clock t st1))).
  exists st2, ((stop_mark st ++ [EvFetchStart url])
               ++ stop_mark (with_clock t st1) ++ [EvFetchEnd url]).
  split; [now destruct (requests_get E url (clock st))|].
  split; [|split; [|split]].
  - unfold st2, log. cbn [trace with_trace]. rewrite trace_deliver_stop.
    cbn [trace with_clock]. unfold st1, log. cbn [trace with_trace].
    rewrite trace_deliver_stop. now rewrite <- !app_assoc.
  - rewrite !admissions_app.
    destruct (stop_mark_silent st) as (-> & _).
    destruct (stop_mark_silent (with_clock t st1)) as (-> & _). reflexivity.
  - rewrite !progress_app.
    destruct (stop_mark_silent st) as (_ & _ & -> & _).
    destruct (stop_mark_silent (with_clock t st1)) as (_ & _ & -> & _). reflexivity.
  - destruct (log_deliver_limiter (EvFetchEnd url) (with_clock t st1)) as [_ Hck2].
    exact Hck2.
Qed.

(** how [check_link] ends: it saw the flag cleared; or [acquire] raised; or
    it returns the outcome of the request made at the reading of the clock
    at which [acquire] returned, the one the limiter has just recorded *)
Lemma check_link_cases (link : string) (st : State) :
  (is_running (deliver_stop st) = false /\
   check_link E link st = (inr None, log (EvFlag false) (deliver_stop st)))
  \/
  (exists e st2,
      acquire E (recursion_limit E) (log (EvFlag true) (deliver_stop st)) = (inl e, st2) /\
      check_link E link st = (inl e, st2))
  \/
  (exists st2 st' d,
      acquire E (recursion_limit E) (log (EvFlag true) (deliver_stop st)) = (inr tt, st2) /\
      check_link E link st
        = (inr (Some (fetch_result E (normalize_link link) (clock st2))), st') /\
      trace st' = trace st2 ++ d /\ admissions d = [] /\ progress d = [] /\
      last (admissions (trace st')) = Some (clock st2)).
Proof.
  remember (check_link E link st) as res eqn:Hres.
  unfold check_link in Hres. unfold bind at 1, read_is_running in Hres. cbv zeta in Hres.
  destruct (is_running (deliver_stop st)) eqn:Hflag; cbn [negb] in Hres; cbv beta iota in Hres.
  - right. unfold bind at 1 in Hres.
    destruct (acquire E (recursion_limit E) (log (EvFlag true) (deliver_stop st)))
      as [[e|[]] st2] eqn:Hacq; cbv beta iota in Hres.
    + left. exists e, st2. auto.
    + right. set (u := normalize_link link) in *.
      unfold try_except, bind at 1 in Hres.
      destruct (http_get_exact u st2) as (st3 & d & Hget & Htr & Hadm & Hprog & Hck3).
      rewrite Hget in Hres. exists st2, st3, d.
      split; [reflexivity|]. split; [|split; [exact Htr|split; [exact Hadm|split; [exact Hprog|]]]].
      * rewrite Hres. unfold fetch_result, bind, time_time, ret, parse_html. rewrite <- Hck3.
        destruct (requests_get E u (clock st2)) as [e|resp]; [reflexivity|].
        destruct (BeautifulSoup E (resp_text resp)) as [e|soup]; reflexivity.
      * rewrite Htr, admissions_app, Hadm, app_nil_r.
        destruct (acquire_returns _ _ _ Hacq) as (held & Hlast).
        now apply last_admission in Hlast.
  - left. split; [reflexivity | exact Hres].
Qed.

(** a link checked while nobody stops the run *)
Lemma check_link_unstopped (link : string) (st : State) :
  pending_stop st = None -> is_running st = true -> bounded st ->
  1 <= max_requests (rate_limiter st) -> (2 <= recursion_limit E)%nat ->
  exists st' d t,
    check_link E link st = (inr (Some (fetch_result E (normalize_link link) t)), st') /\
    trace st' = trace st ++ d /\ admissions d = [t] /\ progress d = [] /\
    pending_stop st' = None /\ is_running st' = true /\ bounded st' /\
    max_requests (rate_limiter st') = max_requests (rate_limiter st).
Proof.
  intros Hpend Hrunning Hb Hmax Hdepth.
  assert (Hst1 : deliver_stop st = st) by now apply deliver_stop_none.
  set (st1 := log (EvFlag true) st).
  destruct (acquire_admits E (recursion_limit E) st1 Hdepth Hmax Hb)
    as (st2 & d2 & Hacq & Hadm2).
  destruct (check_link_cases link st)
    as [[Hflag _] | [(e & st2' & Hacq' & _) | (st2' & st' & d & Hacq' & Hrun & Htr & Hadm & Hprog & _)]].
  - rewrite Hst1 in Hflag. congruence.
  - rewrite Hst1 in Hacq'. fold st1 in Hacq'. congruence.
  - rewrite Hst1 in Hacq'. fold st1 in Hacq'.
    assert (st2' = st2) as -> by congruence.
    destruct Hadm2 as (Hsteps2 & _ & _ & Hadm2 & _).
    destruct (check_link_spec E _ _ _ _ Hrun) as (d' & Hsteps & _ & Hb').
    destruct (st_unstopped _ _ _ _ Hsteps Hpend) as (Hpend' & Hrunning' & _).
    exists st', ([EvFlag true] ++ d2 ++ d), (clock st2).
    split; [exact Hrun|]. split; [|split; [|split]].
    + rewrite Htr, (st_trace _ _ _ _ Hsteps2). unfold st1, log. cbn [trace with_trace].
      now rewrite <- !app_assoc.
    + rewrite !admissions_app, Hadm2, Hadm. reflexivity.
    + rewrite !progress_app, Hprog.
      destruct (quiet_silent d2 (calm_quiet d2 (st_events _ _ _ _ Hsteps2))) as (-> & _).
      reflexivity.
    + split; [exact Hpend'|]. split; [congruence|]. split; [now apply Hb'|].
      apply (st_max _ _ _ _ Hsteps).
Qed.



(** the loop of a run that nobody stops: one record per link, each the
    outcome of the request made at the link's admission *)
Lemma run_loop_exact (links : list string) (st : State) :
  pending_stop st = None -> is_running st = true -> bounded st ->
  1 <= max_requests (rate_limiter st) -> (2 <= recursion_limit E)%nat ->
  exists st' d,
    run_loop E links st = (inr tt, st') /\
    trace st' = trace st ++ d /\ pending_stop st' = None /\
    length (admissions d) = length links /\
    progress d
      = zip_with (fun link t =>
                    (link, fetch_result E (normalize_link (str_strip E link)) t))
                 links (admissions d).
Proof.
  revert st. induction links as [|link links IH]; intros st Hpend Hrunning Hb Hmax Hdepth.
  - exists st, []. rewrite app_nil_r. repeat split; auto.
  - cbn [run_loop]. unfold bind at 1, read_is_running. cbv zeta.
    rewrite (deliver_stop_none st Hpend), Hrunning. cbn [negb]. cbv beta iota.
    set (st1 := log (EvFlag true) st).
    destruct (check_link_unstopped (str_strip E link) st1 Hpend Hrunning Hb Hmax Hdepth)
      as (st2 & d2 & t & Hcheck & Htr2 & Hadm2 & Hprog2 & Hpend2 & Hrunning2 & Hb2 & Hmax2).
    unfold bind at 1. rewrite Hcheck. cbv beta iota.
    unfold bind at 1, act. rewrite (deliver_stop_none st2 Hpend2).
    set (r := fetch_result E (normalize_link (str_strip E link)) t).
    set (st3 := log (EvProgress link r) st2).
    destruct (IH st3) as (st' & d & Hloop & Htr & Hpend' & Hlen & Hprog);
      [exact Hpend2 | exact Hrunning2 | exact Hb2 | | exact Hdepth |].
    { change (max_requests (rate_limiter st3)) with (max_requests (rate_limiter st2)).
      rewrite Hmax2. exact Hmax. }
    exists st', ([EvFlag true] ++ d2 ++ [EvProgress link r] ++ d).
    split; [exact Hloop|]. split; [|split; [exact Hpend'|split]].
    + rewrite Htr. unfold st3, log. cbn [trace with_trace]. rewrite Htr2.
      unfold st1, log. cbn [trace with_trace]. now rewrite <- !app_assoc.
    + rewrite !admissions_app, Hadm2. cbn. now rewrite Hlen.
    + rewrite !progress_app, !admissions_app, Hprog2, Hadm2, Hprog. reflexivity.
Qed.

(** a run that nobody stops *)
Lemma run_exact (links : list string) (t0 : Z) :
  (2 <= recursion_limit E)%nat ->
  let final := (run E links (LinkChecker_init t0 None)).2 in
  last (trace final) = Some EvFinished /\
  length (admissions (trace final)) = length links /\
  progress (trace final)
    = zip_with (fun link t =>
                  (link, fetch_result E (normalize_link (str_strip E link)) t))
               links (admissions (trace final)).
Proof.
  intros Hdepth final. subst final. rewrite run_unfold.
  destruct (run_loop_exact links (with_executor the_pool (LinkChecker_init t0 None)))
    as (st' & d & Hloop & Htr & Hpend & Hlen & Hprog);
    [reflexivity | reflexivity | unfold bounded; simpl; lia | simpl; lia | exact Hdepth |].
  rewrite Hloop. cbn [fst snd closing]. rewrite (deliver_stop_none st' Hpend).
  unfold log. cbn [trace with_trace]. rewrite Htr. cbn [trace with_executor LinkChecker_init app].
  split; [apply last_snoc|].
  rewrite admissions_app, progress_app. simpl. rewrite !app_nil_r. auto.
Qed.

End Exact.

(** C3: [check_link] returns nothing only when it saw the flag cleared,
    and the only exception that can leave it is one raised by [acquire],
    before the [try]; otherwise it returns the record of the request it
    made, at the reading of the clock that the limiter has just recorded:
    when that request, or the parsing of its answer, raises, be it this one
    time only, the record has the name 错误 and the status 错误： followed
    by the message.  A run that nobody stops emits exactly one record per
    submitted link, in order, each the record of the request made at the
    link's admission, so that every request that fails leaves its error
    record whatever the other requests do, and ends with [finished_signal],
    not with [error_signal]. *)
Theorem C3_failure_becomes_error_record (E : Env) (links : list string) (t0 : Z) :
  (2 <= recursion_limit E)%nat ->
  let final := (run E links (LinkChecker_init t0 None)).2 in
  let emitted := progress (trace final) in
  let times := admissions (trace final) in
  let address := fun link => normalize_link (str_strip E link) in
  (forall link st r st',
      check_link E link st = (r, st') ->
      match r with
      | inr (Some record) =>
          exists st2,
            acquire E (recursion_limit E) (log (EvFlag true) (deliver_stop st))
              = (inr tt, st2) /\
            last (admissions (trace st')) = Some (clock st2) /\
            record = fetch_result E (normalize_link link) (clock st2) /\
            (forall msg,
                fetch_raises E (normalize_link link) (clock st2) msg ->
                r_status record = status_error_prefix +:+ msg /\
                r_name record = name_error)
      | inr None => is_running st' = false
      | inl e =>
          acquire E (recursion_limit E) (log (EvFlag true) (deliver_stop st)) = (inl e, st')
      end) /\
  last (trace final) = Some EvFinished /\
  emitted.*1 = links /\
  length times = length links /\
  emitted = zip_with (fun link t => (link, fetch_result E (address link) t)) links times /\
  (forall i link t msg,
      links !! i = Some link -> times !! i = Some t ->
      fetch_raises E (address link) t msg ->
      exists record,
        emitted !! i = Some (link, record) /\
        r_status record = status_error_prefix +:+ msg /\
        r_name record = name_error /\ r_link record = address link).
Proof.
  intros Hdepth final emitted times address.
  destruct (run_exact E links t0 Hdepth) as (Hlast & Hlen & Hprog).
  fold final in Hlast, Hlen, Hprog. fold emitted times in Hlen, Hprog.
  split.
  { intros link st r st' Hcheck.
    destruct (check_link_cases E link st)
      as [[Hflag Hrun] | [(e & st2 & Hacq & Hrun)
                         | (st2 & st3 & d & Hacq & Hrun & _ & _ & _ & Hlast')]];
      rewrite Hrun in Hcheck; injection Hcheck as <- <-.
    - simpl. exact Hflag.
    - exact Hacq.
    - exists st2. split; [exact Hacq|]. split; [exact Hlast'|]. split; [reflexivity|].
      intros msg Hraises. rewrite (fetch_result_raises E _ _ msg Hraises). auto. }
  split; [exact Hlast|].
  assert (Hkeys : emitted.*1 = links).
  { rewrite Hprog. clear Hprog. revert Hlen. generalize times. clear.
    induction links as [|link links IH]; intros [|t times] Hlen; try discriminate;
      [reflexivity|].
    cbn. f_equal. apply IH. now injection Hlen. }
  split; [exact Hkeys|]. split; [exact Hlen|]. split; [exact Hprog|].
  intros i link t msg Hlink Ht Hraises.
  exists (fetch_result E (address link) t). split.
  - rewrite Hprog, lookup_zip_with, Hlink, Ht. reflexivity.
  - rewrite (fetch_result_raises E _ _ msg Hraises). auto.
Qed.

Lemma C3_failure_becomes_error_record_witness :
  let final := (run flaky_env ["news"; "news"] (LinkChecker_init 0 None)).2 in
  let emitted := progress (trace final) in
  let times := admissions (trace final) in
  let address := fun link => normalize_link (str_strip flaky_env link) in
  ((forall link st r st',
      check_link flaky_env link st = (r, st') ->
      match r with
      | inr (Some record) =>
          exists st2,
            acquire flaky_env (recursion_limit flaky_env)
              (log (EvFlag true) (deliver_stop st)) = (inr tt, st2) /\
            last (admissions (trace st')) = Some (clock st2) /\
            record = fetch_result flaky_env (normalize_link link) (clock st2) /\
            (forall msg,
                fetch_raises flaky_env (normalize_link link) (clock st2) msg ->
                r_status record = status_error_prefix +:+ msg /\
                r_name record = name_error)
      | inr None => is_running st' = false
      | inl e =>
          acquire flaky_env (recursion_limit flaky_env)
            (log (EvFlag true) (deliver_stop st)) = (inl e, st')
      end) /\
   last (trace final) = Some EvFinished /\
   emitted.*1 = ["news"; "news"] /\
   length times = length ["news"; "news"] /\
   emitted
     = zip_with (fun link t => (link, fetch_result flaky_env (address link) t))
                ["news"; "news"] times /\
   (forall i link t msg,
       ["news"; "news"] !! i = Some link -> times !! i = Some t ->
       fetch_raises flaky_env (address link) t msg ->
       exists record,
         emitted !! i = Some (link, record) /\
         r_status record = status_error_prefix +:+ msg /\
         r_name record = name_error /\ r_link record = address link)) /\
  times = [0; 1] /\
  map (fun lr => r_status lr.2) emitted
    = [status_valid; status_error_prefix +:+ "Read timed out."].
Proof.
  split.
  - apply (C3_failure_becomes_error_record flaky_env ["news"; "news"] 0).
    simpl. lia.
  - vm_compute. split; reflexivity.
Defined.

Lemma status_valid_not_invalid : status_valid <> status_invalid.
Proof. discriminate. Qed.

(** C4 as the code has it: the status of a fetched page is 有效 exactly
    when the title element was found and 无效 exactly when it was not; the
    name is the text of the title element with the surrounding white space
    stripped when the element is there, and the placeholder 未知 when it is
    not. *)
Theorem C4_page_status_and_name (E : Env) (link : string) (response : Response)
    (soup : Soup) (now : Z) :
  (r_status (page_result E link response soup now) = status_valid
     <-> is_Some (find_title soup)) /\
  (r_status (page_result E link response soup now) = status_invalid
     <-> find_title soup = None) /\
  r_name (page_result E link response soup now)
    = from_option (str_strip E) name_unknown (find_title soup).
Proof.
  cbn [r_status r_name page_result].
  destruct (find_title soup) as [text|]; simpl; repeat split; auto.
  - intros H. now apply status_valid_not_invalid in H.
  - discriminate.
  - intros H. symmetry in H. now apply status_valid_not_invalid in H.
  - intros [x Hx]. discriminate.
Qed.

(** C4 as stated fails: the name is not the text of the title element. *)
Lemma C4_name_is_stripped :
  find_title padded_title = Some " ExampleChannel " /\
  r_name (page_result blank_env "https://t.me/x"
            {| resp_url := "https://t.me/x"; resp_text := "" |} padded_title 0)
    = "ExampleChannel" /\
  String.eqb
    (r_name (page_result blank_env "https://t.me/x"
               {| resp_url := "https://t.me/x"; resp_text := "" |} padded_title 0))
    " ExampleChannel " = false.
Proof. vm_compute. auto. Qed.

(** C1 evaluated on two links: the second request starts only after the
    first link's record has been emitted, and the pool of five workers ends
    the run without ever having been given a task. *)
Theorem C1_two_links_one_after_the_other :
  io_events (trace (run blank_env ["@a"; "@b"] (LinkChecker_init 0 None)).2)
    = link_io blank_env
        ("@a", fetch_result blank_env "https://t.me/a" 0)
      ++ link_io blank_env
        ("@b", fetch_result blank_env "https://t.me/b" 1) /\
  executor (run blank_env ["@a"; "@b"] (LinkChecker_init 0 None)).2
    = Some {| max_workers := 5; work_items := [] |} /\
  (forall n : nat,
     in_flight (take n (trace (run blank_env ["@a"; "@b"] (LinkChecker_init 0 None)).2)) <= 1).
Proof.
  split; [vm_compute; reflexivity|]. split; [vm_compute; reflexivity|].
  intros n.
  destruct (run_spec blank_env ["@a"; "@b"] (LinkChecker_init 0 None))
    as (r1 & st1 & d & _ & _ & Hshape & _ & _ & Htrace & Htail & _).
  rewrite Htrace.
  pose proof (loop_trace_alternates blank_env _ d _ Hshape Htail) as Halt.
  pose proof (alternates_in_flight false _ n Halt). simpl in *. lia.
Qed.

(** ** Stopping a run *)








Section Stopping.

Variable E : Env.








End Stopping.






(** * Verification of the window *)

Local Open Scope nat_scope.

(** ** Strings *)

Lemma append_cons (x : ascii) (a b : string) : String x a +:+ b = String x (a +:+ b).
Proof. reflexivity. Qed.

Lemma append_assoc (a b c : string) : (a +:+ b) +:+ c = a +:+ (b +:+ c).
Proof.
  induction a as [|x a IH]; [reflexivity|]. rewrite !append_cons. now rewrite IH.
Qed.

Lemma append_empty_r (a : string) : a +:+ "" = a.
Proof.
  induction a as [|x a IH]; [reflexivity|]. rewrite append_cons. now rewrite IH.
Qed.

Lemma length_append (a b : string) :
  String.length (a +:+ b) = (String.length a + String.length b)%nat.
Proof.
  induction a as [|x a IH]; [reflexivity|]. rewrite append_cons. simpl. now rewrite IH.
Qed.

Lemma string_take_drop (n : nat) (s : string) : string_take n s +:+ string_drop n s = s.
Proof.
  revert s. induction n as [|n IH]; intros [|c s]; simpl; try reflexivity.
  rewrite append_cons. now rewrite IH.
Qed.

Lemma string_drop_length (n : nat) (s : string) :
  String.length (string_drop n s) = (String.length s - n)%nat.
Proof.
  revert s. induction n as [|n IH]; intros [|c s]; simpl; try reflexivity; try lia.
  apply IH.
Qed.

Lemma string_drop_append (a b : string) : string_drop (String.length a) (a +:+ b) = b.
Proof.
  induction a as [|x a IH]; [now destruct b|]. rewrite append_cons. simpl. exact IH.
Qed.

Lemma string_drop_app_l (n : nat) (a b : string) :
  (n <= String.length a)%nat -> string_drop n (a +:+ b) = string_drop n a +:+ b.
Proof.
  revert a. induction n as [|n IH]; intros [|x a] Hn; simpl in Hn;
    try reflexivity; try lia; try (now destruct b).
  rewrite append_cons. simpl. apply IH. lia.
Qed.

(** ** The pattern *)

Lemma word_prefix_all_word (s : string) : all_word (word_prefix s) = true.
Proof.
  induction s as [|c s IH]; simpl; [reflexivity|].
  destruct (is_word c) eqn:Hc; simpl; [now rewrite Hc | reflexivity].
Qed.

Lemma word_prefix_split (s : string) : exists rest, s = word_prefix s +:+ rest.
Proof.
  induction s as [|c s [rest IH]]; simpl; [now exists ""|].
  destruct (is_word c); [|now exists (String c s)].
  exists rest. rewrite append_cons. now rewrite <- IH.
Qed.

Lemma word_prefix_id (s : string) : all_word s = true -> word_prefix s = s.
Proof.
  induction s as [|c s IH]; simpl; [reflexivity|].
  intros H. apply andb_prop in H as [-> H]. now rewrite IH.
Qed.

Lemma after_literal_some (p s rest : string) :
  after_literal p s = Some rest -> s = p +:+ rest.
Proof.
  revert s. induction p as [|a p IH]; intros s; simpl; [now intros [= ->]|].
  destruct s as [|b s]; [discriminate|].
  destruct (Ascii.eqb_spec a b) as [->|]; [|discriminate].
  intros H. rewrite append_cons. now rewrite (IH _ H).
Qed.

Lemma after_literal_append (p rest : string) : after_literal p (p +:+ rest) = Some rest.
Proof.
  induction p as [|a p IH]; [reflexivity|].
  rewrite append_cons. simpl. now rewrite Ascii.eqb_refl.
Qed.

Lemma match_alternative_some (literal s username : string) (len : nat) :
  match_alternative literal s = Some (username, len) ->
  username <> "" /\ all_word username = true /\
  len = (String.length literal + String.length username)%nat /\
  exists rest, s = literal +:+ username +:+ rest.
Proof.
  unfold match_alternative.
  destruct (after_literal literal s) as [rest|] eqn:Hlit; [|discriminate].
  apply after_literal_some in Hlit.
  pose proof (word_prefix_all_word rest) as Hall.
  destruct (word_prefix_split rest) as [rest' Hrest].
  destruct (word_prefix rest) as [|c u] eqn:Hw; [discriminate|].
  intros [= <- <-]. repeat split; [discriminate | exact Hall|].
  exists rest'. now rewrite Hlit, Hrest at 1.
Qed.

Lemma match_here_some (s username : string) (len : nat) :
  match_here s = Some (username, len) ->
  username <> "" /\ all_word username = true /\
  (1 <= len <= String.length s)%nat /\
  exists rest,
    (s = "https://t.me/" +:+ username +:+ rest \/ s = "@" +:+ username +:+ rest) /\
    string_drop len s = rest.
Proof.
  unfold match_here. intros H.
  assert (Hcase : match_alternative "https://t.me/" s = Some (username, len) \/
                  match_alternative "@" s = Some (username, len)).
  { destruct (match_alternative "https://t.me/" s) as [m|]; [left | right]; congruence. }
  destruct Hcase as [Hm | Hm];
    apply match_alternative_some in Hm as (Hne & Hall & -> & rest & ->);
    (split; [exact Hne|]; split; [exact Hall|]; split;
     [rewrite !length_append; simpl String.length; lia|]);
    exists rest; (split; [auto|]);
    rewrite <- length_append, <- append_assoc; apply string_drop_append.
Qed.

Lemma findall_from_drop (k : nat) (s : string) :
  findall_from k s = re_findall (string_drop k s).
Proof.
  revert k. induction s as [|c s IH]; intros [|k]; try reflexivity.
  simpl. apply IH.
Qed.

(** [re.findall] resumes the search right after each match *)
Lemma re_findall_step (s : string) :
  re_findall s =
    match s with
    | EmptyString => []
    | String _ rest =>
        match match_here s with
        | Some (username, len) => username :: re_findall (string_drop len s)
        | None => re_findall rest
        end
    end.
Proof.
  destruct s as [|c rest]; [reflexivity|].
  unfold re_findall at 1. cbn [findall_from].
  destruct (match_here (String c rest)) as [[username len]|] eqn:Hm; [|reflexivity].
  apply match_here_some in Hm as (_ & _ & [Hlen _] & _).
  rewrite findall_from_drop. destruct len as [|len]; [lia|].
  simpl. now rewrite Nat.sub_0_r.
Qed.

Lemma found_in_later (before text username : string) :
  found_in text username -> found_in (before +:+ text) username.
Proof.
  intros (b & a & [-> | ->]); exists (before +:+ b), a; [left | right];
    now rewrite append_assoc.
Qed.

Lemma re_findall_sound (text : string) :
  Forall (fun username =>
            username <> "" /\ all_word username = true /\ found_in text username)
         (re_findall text).
Proof.
  remember (String.length text) as n eqn:Hn.
  revert text Hn. induction n as [n IH] using lt_wf_ind. intros text Hn.
  rewrite re_findall_step. destruct text as [|c rest]; [constructor|].
  destruct (match_here (String c rest)) as [[username len]|] eqn:Hm.
  - apply match_here_some in Hm as (Hne & Hall & [Hlen1 Hlen2] & tail & Hsplit & Hdrop).
    constructor.
    + split; [exact Hne|]. split; [exact Hall|].
      exists "", tail. simpl. exact Hsplit.
    + pose proof (string_drop_length len (String c rest)) as Hl.
      eapply Forall_impl.
      * apply (IH (String.length (string_drop len (String c rest)))); [|reflexivity].
        rewrite Hl, Hn. lia.
      * intros u (Hu1 & Hu2 & Hu3). split; [exact Hu1|]. split; [exact Hu2|].
        rewrite <- (string_take_drop len (String c rest)). now apply found_in_later.
  - eapply Forall_impl.
    + apply (IH (String.length rest)); [|reflexivity]. rewrite Hn. simpl. lia.
    + intros u (Hu1 & Hu2 & Hu3). split; [exact Hu1|]. split; [exact Hu2|].
      apply (found_in_later (String c "") rest u Hu3).
Qed.

Lemma replace_at_word (username : string) :
  all_word username = true -> replace_char_by_empty "@" username = username.
Proof.
  induction username as [|c u IH]; simpl; [reflexivity|].
  intros H. apply andb_prop in H as [Hc Hu].
  destruct (Ascii.eqb_spec c "@") as [->|_]; [discriminate|]. now rewrite IH.
Qed.

Lemma extract_links_findall (text : string) :
  extract_links text = map (String.append "https://t.me/") (re_findall text).
Proof.
  unfold extract_links. apply map_ext_Forall.
  eapply Forall_impl; [apply re_findall_sound|].
  intros u (_ & Hall & _). cbv beta. now rewrite replace_at_word.
Qed.

(** X1: every link that [extract_links] returns is https://t.me/ followed by
    a non-empty name of letters, digits and underscores that stands in the
    text right after https://t.me/ or after an [@]; the [replace] applied to
    the captured name never changes it. *)
Theorem extract_links_shape (text : string) :
  extract_links text = map (String.append "https://t.me/") (re_findall text) /\
  Forall (fun link =>
            exists username,
              link = "https://t.me/" +:+ username /\ username <> "" /\
              all_word username = true /\ found_in text username)
         (extract_links text).
Proof.
  split; [apply extract_links_findall|].
  rewrite extract_links_findall. apply Forall_map.
  eapply Forall_impl; [apply re_findall_sound|].
  intros u Hu. exists u. split; [reflexivity | exact Hu].
Qed.

(** ** Lines *)

Lemma after_literal_line (p a b : string) :
  no_line_feed p = true -> p <> "" ->
  after_literal p (a +:+ newline +:+ b)
  = (fun rest => rest +:+ newline +:+ b) <$> after_literal p a.
Proof.
  revert a. induction p as [|x p IH]; intros a Hp Hne; [congruence|].
  simpl in Hp. apply andb_prop in Hp as [Hx Hp].
  destruct a as [|y a].
  - simpl. destruct (Ascii.eqb x "010"); [discriminate | reflexivity].
  - rewrite append_cons. simpl.
    destruct (Ascii.eqb x y); [|reflexivity].
    destruct p as [|x' p]; [reflexivity|]. now apply IH.
Qed.

Lemma word_prefix_line (a b : string) :
  word_prefix (a +:+ newline +:+ b) = word_prefix a.
Proof.
  induction a as [|c a IH]; [reflexivity|].
  rewrite append_cons. simpl. destruct (is_word c); [now rewrite IH | reflexivity].
Qed.

Lemma match_alternative_line (p a b : string) :
  no_line_feed p = true -> p <> "" ->
  match_alternative p (a +:+ newline +:+ b) = match_alternative p a.
Proof.
  intros Hp Hne. unfold match_alternative.
  rewrite (after_literal_line p a b Hp Hne).
  destruct (after_literal p a) as [rest|]; simpl; [|reflexivity].
  now rewrite word_prefix_line.
Qed.

Lemma match_here_line (a b : string) :
  match_here (a +:+ newline +:+ b) = match_here a.
Proof.
  unfold match_here. now rewrite !match_alternative_line.
Qed.

Lemma re_findall_line_feed (a b : string) :
  re_findall (a +:+ newline +:+ b) = re_findall a ++ re_findall b.
Proof.
  remember (String.length a) as n eqn:Hn.
  revert a Hn. induction n as [n IH] using lt_wf_ind. intros a Hn.
  rewrite (re_findall_step (a +:+ newline +:+ b)), (re_findall_step a).
  destruct a as [|c a]; [reflexivity|].
  rewrite append_cons. rewrite <- (append_cons c a (newline +:+ b)).
  rewrite match_here_line.
  destruct (match_here (String c a)) as [[username len]|] eqn:Hm.
  - apply match_here_some in Hm as (_ & _ & [Hlen1 Hlen2] & _).
    rewrite string_drop_app_l by exact Hlen2. simpl app. f_equal.
    apply (IH (String.length (string_drop len (String c a)))); [|reflexivity].
    rewrite string_drop_length, Hn. lia.
  - apply (IH (String.length a)); [|reflexivity].
    rewrite Hn. simpl. lia.
Qed.

(** X2: a link never runs across a line break: what [re.findall] finds in
    two texts joined by a line feed is what it finds in the first followed
    by what it finds in the second. *)
Theorem re_findall_lines (a b : string) :
  re_findall (a +:+ newline +:+ b) = re_findall a ++ re_findall b /\
  extract_links (a +:+ newline +:+ b) = extract_links a ++ extract_links b.
Proof.
  split; [apply re_findall_line_feed|].
  rewrite !extract_links_findall, re_findall_line_feed. apply map_app.
Qed.

(** ** Writing links out and reading them back *)

Lemma re_findall_one (username : string) :
  username <> "" -> all_word username = true ->
  re_findall ("https://t.me/" +:+ username) = [username].
Proof.
  intros Hne Hall. rewrite re_findall_step.
  assert (Hm : match_here ("https://t.me/" +:+ username)
               = Some (username, (13 + String.length username)%nat)).
  { unfold match_here, match_alternative.
    rewrite after_literal_append, (word_prefix_id _ Hall).
    destruct username; [congruence | reflexivity]. }
  change ("https://t.me/" +:+ username)
    with (String "h" ("ttps://t.me/" +:+ username)) at 1.
  change (String "h" ("ttps://t.me/" +:+ username)) with ("https://t.me/" +:+ username).
  rewrite Hm. f_equal.
  change 13%nat with (String.length "https://t.me/").
  rewrite <- length_append.
  rewrite <- (append_empty_r ("https://t.me/" +:+ username)) at 2.
  now rewrite string_drop_append.
Qed.

Lemma re_findall_joined (usernames : list string) :
  Forall (fun u => u <> "" /\ all_word u = true) usernames ->
  re_findall (str_join newline (map (String.append "https://t.me/") usernames))
  = usernames.
Proof.
  induction 1 as [|u us [Hne Hall] Hus IH]; [reflexivity|].
  destruct us as [|u' us].
  - simpl. now apply re_findall_one.
  - change (str_join newline (map (String.append "https://t.me/") (u :: u' :: us)))
      with (("https://t.me/" +:+ u) +:+ newline
              +:+ str_join newline (map (String.append "https://t.me/") (u' :: us))).
    rewrite re_findall_line_feed, IH, re_findall_one by assumption.
    reflexivity.
Qed.

Lemma extract_links_rejoined (text : string) :
  extract_links (str_join newline (extract_links text)) = extract_links text.
Proof.
  rewrite !extract_links_findall. f_equal.
  apply re_findall_joined.
  eapply Forall_impl; [apply re_findall_sound|]. intros u (H1 & H2 & _). auto.
Qed.

(** X3: the links that [extract_links] returns survive being written out
    one per line and extracted again: extracting from the joined text gives
    the same list, so extraction is idempotent on its own output. *)
Theorem extract_links_round_trip (text : string) :
  extract_links (str_join newline (extract_links text)) = extract_links text.
Proof. apply extract_links_rejoined. Qed.

(** X4: every extracted link is an address the checker fetches as it is:
    [check_link]'s normalization leaves it unchanged. *)
Theorem extract_links_normalized (text : string) :
  Forall (fun link => normalize_link link = link) (extract_links text).
Proof.
  rewrite extract_links_findall. apply Forall_map, Forall_true.
  intros u. apply normalize_t_me.
Qed.

(** ** Comparing files and removing duplicates *)

Lemma extract_links_written (text : string) : Forall written_link (extract_links text).
Proof.
  rewrite extract_links_findall. apply Forall_map.
  eapply Forall_impl; [apply re_findall_sound|].
  intros u (Hne & Hall & _). now exists u.
Qed.

Lemma extract_links_joined (links : list string) :
  Forall written_link links -> extract_links (str_join newline links) = links.
Proof.
  intros Hall.
  assert (Hus : exists usernames,
             links = map (String.append "https://t.me/") usernames /\
             Forall (fun u => u <> "" /\ all_word u = true) usernames).
  { induction Hall as [|link links (u & -> & Hu) _ (us & -> & Hus)].
    - now exists [].
    - exists (u :: us). split; [reflexivity | now constructor]. }
  destruct Hus as (us & -> & Hus).
  rewrite extract_links_findall. f_equal. now apply re_findall_joined.
Qed.

Lemma remove_duplicate_links_kept (content save_path : string) (tab : CompareTab) :
  links_to_remove tab <> ∅ ->
  let kept := filter (fun link => link ∉ links_to_remove tab) (extract_links content) in
  let removed := filter (fun link => link ∈ links_to_remove tab) (extract_links content) in
  exists text,
    remove_duplicate_links (Some (Content content)) (Some (save_path, None)) tab
    = ([Information "成功"
          ("已删除 " +:+ pretty.pretty (length removed) +:+ " 个重复链接" +:+ newline
           +:+ "结果已保存到：" +:+ save_path)],
       Some (save_path, text)) /\
    extract_links text = kept /\
    Forall (fun link => link ∉ links_to_remove tab) (extract_links text) /\
    (length kept + length removed = length (extract_links content))%nat.
Proof.
  intros Hne kept removed.
  assert (Hlen : (length kept + length removed = length (extract_links content))%nat).
  { subst kept removed. induction (extract_links content) as [|l ls IH]; [reflexivity|].
    rewrite !filter_cons. destruct (decide (l ∈ links_to_remove tab)) as [Hin|Hout].
    - rewrite decide_False by tauto. simpl. lia.
    - rewrite decide_True by exact Hout. simpl. lia. }
  exists (str_join newline kept). unfold remove_duplicate_links.
  rewrite decide_False by exact Hne. fold kept.
  assert (Hkept : extract_links (str_join newline kept) = kept).
  { apply extract_links_joined. subst kept.
    apply Forall_forall. intros l Hl. apply list_elem_of_filter in Hl as [_ Hl].
    pose proof (extract_links_written content) as Hw.
    now apply (proj1 (Forall_forall _ _) Hw). }
  split; [|split; [exact Hkept|split; [|exact Hlen]]].
  - replace (length (extract_links content) - length kept)%nat with (length removed) by lia.
    reflexivity.
  - rewrite Hkept. subst kept. apply Forall_forall. intros l Hl.
    now apply list_elem_of_filter in Hl as [Hl _].
Qed.

(** X5: when [remove_duplicate_links] saves, the file it writes holds
    exactly the links of the chosen file that are not in [links_to_remove],
    in their order and with their repetitions: extracting from the written
    text gives that list back, none of them is a link to remove, and the
    number reported as deleted is the number of occurrences left out. *)
Theorem remove_duplicate_links_saves (content save_path : string) (tab : CompareTab) :
  links_to_remove tab <> ∅ ->
  let kept := filter (fun link => link ∉ links_to_remove tab) (extract_links content) in
  let removed := filter (fun link => link ∈ links_to_remove tab) (extract_links content) in
  exists text,
    remove_duplicate_links (Some (Content content)) (Some (save_path, None)) tab
    = ([Information "成功"
          ("已删除 " +:+ pretty.pretty (length removed) +:+ " 个重复链接" +:+ newline
           +:+ "结果已保存到：" +:+ save_path)],
       Some (save_path, text)) /\
    extract_links text = kept /\
    Forall (fun link => link ∉ links_to_remove tab) (extract_links text) /\
    (length kept + length removed = length (extract_links content))%nat.
Proof. apply remove_duplicate_links_kept. Qed.

Lemma remove_duplicate_links_saves_witness :
  let tab := {| links_to_remove := {["https://t.me/b"]}; remove_btn := true;
                compare_result := [] |} in
  let kept := filter (fun link => link ∉ links_to_remove tab)
                     (extract_links "@a @b https://t.me/b @c") in
  let removed := filter (fun link => link ∈ links_to_remove tab)
                        (extract_links "@a @b https://t.me/b @c") in
  exists text,
    remove_duplicate_links (Some (Content "@a @b https://t.me/b @c"))
      (Some ("out.txt", None)) tab
    = ([Information "成功"
          ("已删除 " +:+ pretty.pretty (length removed) +:+ " 个重复链接" +:+ newline
           +:+ "结果已保存到：" +:+ "out.txt")],
       Some ("out.txt", text)) /\
    extract_links text = kept /\
    Forall (fun link => link ∉ links_to_remove tab) (extract_links text) /\
    (length kept + length removed = length (extract_links "@a @b https://t.me/b @c"))%nat.
Proof.
  apply (remove_duplicate_links_saves "@a @b https://t.me/b @c" "out.txt"
           {| links_to_remove := {["https://t.me/b"]}; remove_btn := true;
              compare_result := [] |}).
  simpl. apply non_empty_singleton_L.
Defined.

Lemma filter_iff_in {A : Type} (P Q : A -> Prop) `{!forall x, Decision (P x)}
    `{!forall x, Decision (Q x)} (l : list A) :
  (forall x, x ∈ l -> (P x <-> Q x)) -> filter P l = filter Q l.
Proof.
  induction l as [|a l IH]; intros Hiff; [reflexivity|].
  rewrite !filter_cons, IH by (intros x Hx; apply Hiff; now right).
  pose proof (Hiff a (list_elem_of_here a l)) as Ha.
  destruct (decide (P a)) as [HP|HP], (decide (Q a)) as [HQ|HQ];
    try reflexivity; tauto.
Qed.

(** X6: comparing two files, removing the duplicates from the first and
    comparing what was written with the second file finds no duplicate any
    more and disables the remove button; what was written holds the links
    of the first file that the second one does not have. *)
Theorem compare_remove_compare (text1 text2 save_path : string) (tab : CompareTab) :
  let compared := (compare_files (Some (Content text1)) (Some (Content text2)) tab).1 in
  links_to_remove compared <> ∅ ->
  exists cleaned,
    (remove_duplicate_links (Some (Content text1)) (Some (save_path, None)) compared).2
      = Some (save_path, cleaned) /\
    extract_links cleaned
      = filter (fun link => link ∉ extract_links text2) (extract_links text1) /\
    links_to_remove
      (compare_files (Some (Content cleaned)) (Some (Content text2)) compared).1 = ∅ /\
    remove_btn
      (compare_files (Some (Content cleaned)) (Some (Content text2)) compared).1 = false.
Proof.
  intros compared Hne.
  destruct (remove_duplicate_links_kept text1 save_path compared Hne)
    as (cleaned & Hrun & Hkept & _ & _).
  exists cleaned. rewrite Hrun. split; [reflexivity|].
  assert (Hdup : links_to_remove compared
                 = list_to_set (extract_links text1) ∩ list_to_set (extract_links text2)).
  { subst compared. unfold compare_files. cbv zeta.
    destruct (decide (_ = ∅)); reflexivity. }
  assert (Hclean : extract_links cleaned
                   = filter (fun link => link ∉ extract_links text2) (extract_links text1)).
  { rewrite Hkept, Hdup. apply filter_iff_in.
    intros l Hl. rewrite elem_of_intersection, !elem_of_list_to_set. tauto. }
  split; [exact Hclean|].
  assert (Hnone : (list_to_set (extract_links cleaned) : gset string)
                    ∩ list_to_set (extract_links text2) = ∅).
  { apply set_eq. intros l.
    rewrite elem_of_intersection, !elem_of_list_to_set, Hclean, list_elem_of_filter.
    split; [intros [[Hn _] Hy]; contradiction | intros H; now apply not_elem_of_empty in H]. }
  unfold compare_files. cbv zeta. rewrite Hnone.
  rewrite decide_True by reflexivity. split; reflexivity.
Qed.

Lemma compare_remove_compare_witness :
  let compared :=
    (compare_files (Some (Content "@a @b")) (Some (Content "https://t.me/b"))
       CompareTab_init).1 in
  exists cleaned,
    (remove_duplicate_links (Some (Content "@a @b")) (Some ("out.txt", None)) compared).2
      = Some ("out.txt", cleaned) /\
    extract_links cleaned
      = filter (fun link => link ∉ extract_links "https://t.me/b") (extract_links "@a @b") /\
    links_to_remove
      (compare_files (Some (Content cleaned)) (Some (Content "https://t.me/b")) compared).1
      = ∅ /\
    remove_btn
      (compare_files (Some (Content cleaned)) (Some (Content "https://t.me/b")) compared).1
      = false.
Proof.
  apply (compare_remove_compare "@a @b" "https://t.me/b" "out.txt" CompareTab_init).
  intros H. apply (f_equal (fun s : gset string => bool_decide ("https://t.me/b" ∈ s))) in H.
  vm_compute in H. discriminate.
Defined.

(** ** The check tab *)

Lemma dict_set_keys {V : Type} (k : string) (v : V) (d : PyDict V) :
  (dict_set k v d).*1 = if decide (k ∈ d.*1) then d.*1 else d.*1 ++ [k].
Proof.
  induction d as [|[k' v'] d IH].
  - cbn [dict_set fmap list_fmap fst app].
    case_decide as H; [now apply not_elem_of_nil in H|reflexivity].
  - cbn [dict_set]. destruct (decide (k' = k)) as [->|Hne].
    + cbn [fmap list_fmap fst].
      clear IH. case_decide as H; [reflexivity|].
      exfalso. apply H, list_elem_of_here.
    + cbn [fmap list_fmap fst] in IH |- *. rewrite IH.
      repeat case_decide; try reflexivity.
      * exfalso. match goal with H : _ ∉ _ :: _ |- _ => apply H end. now right.
      * exfalso.
        match goal with H : _ ∈ _ :: _ |- _ => apply elem_of_cons in H as [->|H] end;
          [now apply Hne|contradiction].
Qed.

Lemma dict_set_list_to_map (k : string) (v : CheckResult) (d : PyDict CheckResult) :
  (list_to_map (dict_set k v d) : gmap string CheckResult)
  = update_check_result k v (list_to_map d).
Proof.
  unfold update_check_result.
  induction d as [|[k' v'] d IH]; simpl; [reflexivity|].
  destruct (decide (k' = k)) as [->|Hne]; simpl.
  - now rewrite insert_insert_eq.
  - rewrite IH. now apply insert_insert_ne.
Qed.

Lemma filter_absent_known (k : string) (ks l : list string) :
  k ∈ ks ->
  filter (fun k' => k' ∉ ks) (filter (fun k' => k' <> k) l)
  = filter (fun k' => k' ∉ ks) l.
Proof.
  intros Hk. induction l as [|a l IH]; [reflexivity|].
  rewrite !filter_cons. destruct (decide (a <> k)) as [Hne|Heq].
  - rewrite filter_cons, IH. reflexivity.
  - apply dec_stable in Heq. subst a. rewrite IH.
    rewrite decide_False by (intros H; now apply H). reflexivity.
Qed.

Lemma filter_absent_snoc (k : string) (ks l : list string) :
  filter (fun k' => k' ∉ ks ++ [k]) l
  = filter (fun k' => k' ∉ ks) (filter (fun k' => k' <> k) l).
Proof.
  induction l as [|a l IH]; [reflexivity|].
  rewrite !filter_cons, IH. destruct (decide (a <> k)) as [Hne|Heq].
  - rewrite filter_cons. destruct (decide (a ∉ ks)) as [Hn|Hn].
    + rewrite decide_True; [reflexivity|].
      intros H. apply elem_of_app in H as [H|H]; [now apply Hn|].
      apply list_elem_of_singleton in H. now apply Hne.
    + rewrite decide_False; [reflexivity|].
      intros H. apply Hn. intros Hin. apply H, elem_of_app. now left.
  - apply dec_stable in Heq. subst a.
    rewrite decide_False; [reflexivity|].
    intros H. apply H, elem_of_app. right. apply list_elem_of_singleton. reflexivity.
Qed.

Lemma first_occurrences_elem (l : list string) (k : string) :
  k ∈ first_occurrences l <-> k ∈ l.
Proof.
  induction l as [|a l IH]; [reflexivity|].
  cbn [first_occurrences]. rewrite !elem_of_cons, list_elem_of_filter, IH.
  destruct (decide (k = a)); tauto.
Qed.

Lemma first_occurrences_NoDup (l : list string) : NoDup (first_occurrences l).
Proof.
  induction l as [|a l IH]; [constructor|].
  cbn [first_occurrences]. apply NoDup_cons. split.
  - rewrite list_elem_of_filter. intros [H _]. now apply H.
  - now apply NoDup_filter.
Qed.

Lemma fold_dict_keys (emits : list (string * CheckResult)) (d : PyDict CheckResult) :
  (foldl (fun d lr => dict_set lr.1 lr.2 d) d emits).*1
  = d.*1 ++ filter (fun k => k ∉ d.*1) (first_occurrences emits.*1).
Proof.
  revert d. induction emits as [|[k v] emits IH]; intros d.
  - simpl. now rewrite app_nil_r.
  - cbn [foldl fst snd]. rewrite IH, dict_set_keys.
    rewrite fmap_cons. cbn [first_occurrences fst]. rewrite filter_cons.
    destruct (decide (k ∈ d.*1)) as [Hin|Hin].
    + rewrite decide_False by (intros H; now apply H).
      now rewrite filter_absent_known.
    + rewrite decide_True by exact Hin.
      rewrite filter_absent_snoc, <- app_assoc. reflexivity.
Qed.

Lemma fold_dict_map (emits : list (string * CheckResult)) (d : PyDict CheckResult) :
  (list_to_map (foldl (fun d lr => dict_set lr.1 lr.2 d) d emits)
     : gmap string CheckResult)
  = foldl (fun m lr => update_check_result lr.1 lr.2 m) (list_to_map d) emits.
Proof.
  revert d. induction emits as [|[k v] emits IH]; intros d; [reflexivity|].
  cbn [foldl fst snd]. now rewrite IH, dict_set_list_to_map.
Qed.

Lemma deliver_snoc (emits : list (string * CheckResult)) (lr : string * CheckResult)
    (tab : CheckTab) :
  deliver (emits ++ [lr]) tab = update_check_result_slot lr.1 lr.2 (deliver emits tab).
Proof. unfold deliver. now rewrite foldl_app. Qed.

Lemma deliver_check_results (emits : list (string * CheckResult)) (tab : CheckTab) :
  check_results (deliver emits tab)
  = foldl (fun d lr => dict_set lr.1 lr.2 d) (check_results tab) emits.
Proof.
  unfold deliver. revert tab.
  induction emits as [|[k v] emits IH]; intros tab; [reflexivity|].
  cbn [foldl]. now rewrite IH.
Qed.

Lemma deliver_check_result (emits : list (string * CheckResult)) (tab : CheckTab) :
  check_result (deliver emits tab)
  = check_result tab ++ map (fun lr => format_result lr.2) emits.
Proof.
  unfold deliver. revert tab. induction emits as [|[k v] emits IH]; intros tab.
  - simpl. now rewrite app_nil_r.
  - cbn [foldl]. rewrite IH. cbn [update_check_result_slot check_result map fst snd].
    now rewrite <- app_assoc.
Qed.

Lemma deliver_progress_value (emits : list (string * CheckResult)) (tab : CheckTab) :
  emits <> [] ->
  progress_value (deliver emits tab) = Some (length (check_results (deliver emits tab))).
Proof.
  destruct emits as [|lr emits _] using rev_ind; [congruence|intros _].
  rewrite deliver_snoc. reflexivity.
Qed.

Lemma deliver_spec (tr : list Event) (tab : CheckTab)
    (Hclear : check_results tab = []) :
  let tab' := deliver (progress tr) tab in
  list_to_map (check_results tab') = aggregate tr /\
  (check_results tab').*1 = first_occurrences (progress tr).*1 /\
  check_result tab' = check_result tab ++ map (fun lr => format_result lr.2) (progress tr) /\
  (progress tr <> [] -> progress_value tab' = Some (size (aggregate tr))).
Proof.
  intros tab'.
  assert (Hkeys : (check_results tab').*1 = first_occurrences (progress tr).*1).
  { unfold tab'. rewrite deliver_check_results, fold_dict_keys, Hclear. simpl.
    induction (first_occurrences (progress tr).*1) as [|a l IH]; [reflexivity|].
    rewrite filter_cons, decide_True by apply not_elem_of_nil. now rewrite IH. }
  assert (Hmap : list_to_map (check_results tab') = aggregate tr).
  { unfold tab'. rewrite deliver_check_results, fold_dict_map, Hclear. reflexivity. }
  split; [exact Hmap|]. split; [exact Hkeys|].
  split; [apply deliver_check_result|].
  intros Hne. unfold tab'. rewrite deliver_progress_value by exact Hne.
  fold tab'. rewrite <- Hmap, map_size_list_to_map; [reflexivity|].
  rewrite Hkeys. apply first_occurrences_NoDup.
Qed.

(** X7: when the emissions of a run are delivered to a tab whose dictionary
    is empty, the dictionary holds the aggregate of the run, with one entry
    per distinct link in order of first emission; one block of text is
    appended per emission; and from the first emission on the progress bar
    shows the number of distinct links seen, not the number of emissions. *)
Theorem delivered_results (tr : list Event) (tab : CheckTab)
    (Hclear : check_results tab = []) :
  let tab' := deliver (progress tr) tab in
  list_to_map (check_results tab') = aggregate tr /\
  (check_results tab').*1 = first_occurrences (progress tr).*1 /\
  check_result tab' = check_result tab ++ map (fun lr => format_result lr.2) (progress tr) /\
  (progress tr <> [] -> progress_value tab' = Some (size (aggregate tr))).
Proof. exact (deliver_spec tr tab Hclear). Qed.

Lemma delivered_results_witness :
  let tr := [EvProgress "a" (sample_result "a" "有效"); EvFetchStart "b";
             EvProgress "b" (sample_result "b" "有效");
             EvProgress "a" (sample_result "a" "错误")] in
  let tab' := deliver (progress tr) CheckTab_init in
  list_to_map (check_results tab') = aggregate tr /\
  (check_results tab').*1 = first_occurrences (progress tr).*1 /\
  check_result tab'
    = check_result CheckTab_init ++ map (fun lr => format_result lr.2) (progress tr) /\
  (progress tr <> [] -> progress_value tab' = Some (size (aggregate tr))).
Proof.
  apply (delivered_results
           [EvProgress "a" (sample_result "a" "有效"); EvFetchStart "b";
            EvProgress "b" (sample_result "b" "有效");
            EvProgress "a" (sample_result "a" "错误")] CheckTab_init).
  reflexivity.
Defined.

Lemma deliver_frame (emits : list (string * CheckResult)) (tab : CheckTab) :
  shown (deliver emits tab) = shown tab /\ saved (deliver emits tab) = saved tab.
Proof.
  unfold deliver. revert tab. induction emits as [|[k v] emits IH]; intros tab.
  - split; reflexivity.
  - cbn [foldl]. destruct (IH (update_check_result_slot k v tab)) as [H1 H2].
    split; [exact H1|exact H2].
Qed.

Lemma dict_lookup_items (d : PyDict CheckResult) :
  NoDup d.*1 ->
  Forall2 (fun k r => (list_to_map d : gmap string CheckResult) !! k = Some r) d.*1 d.*2.
Proof.
  intros Hnodup.
  assert (H : Forall (fun kv => (list_to_map d : gmap string CheckResult) !! kv.1
                                = Some kv.2) d).
  { apply Forall_forall. intros [k v] Hin. now apply elem_of_list_to_map_1. }
  revert H. generalize (list_to_map d : gmap string CheckResult). intros m H.
  clear Hnodup. induction H as [|[k v] d Hkv _ IH]; constructor; assumption.
Qed.

(** X8: saving after the emissions of a run were delivered writes one block
    per distinct link, in order of first emission, and the block of a link
    is that of its last record: earlier records of a link that was emitted
    twice are shown in the tab but not saved. *)
Theorem save_check_results_blocks (tr : list Event) (path : string) (tab : CheckTab)
    (Hclear : check_results tab = []) (Hsome : progress tr <> []) :
  let tab' := save_check_results (Some (path, None)) (deliver (progress tr) tab) in
  exists results,
    saved tab' = saved tab ++ [(path, str_join newline (map format_result results))] /\
    Forall2 (fun link result => aggregate tr !! link = Some result)
            (first_occurrences (progress tr).*1) results /\
    shown tab' = shown tab ++ [Information "成功" ("文件已保存到：" +:+ path)].
Proof.
  intros tab'.
  destruct (deliver_spec tr tab Hclear) as (Hmap & Hkeys & _ & _).
  destruct (deliver_frame (progress tr) tab) as [Hshown Hsaved].
  exists (check_results (deliver (progress tr) tab)).*2.
  assert (Hne : check_results (deliver (progress tr) tab) <> []).
  { intros Hnil. rewrite Hnil in Hkeys. destruct (progress tr) as [|[k v] l]; [congruence|].
    discriminate Hkeys. }
  unfold tab', save_check_results.
  destruct (check_results (deliver (progress tr) tab)) as [|kv d] eqn:Hd; [congruence|].
  cbn [save_to_file saved shown]. rewrite Hshown, Hsaved.
  split; [|split; [|reflexivity]].
  - do 2 f_equal. f_equal. rewrite <- list_fmap_compose. reflexivity.
  - rewrite <- Hkeys, <- Hmap. apply dict_lookup_items.
    rewrite Hkeys. apply first_occurrences_NoDup.
Qed.

Lemma save_check_results_blocks_witness :
  let tr := [EvProgress "a" (sample_result "a" "有效"); EvFetchStart "b";
             EvProgress "b" (sample_result "b" "有效");
             EvProgress "a" (sample_result "a" "错误")] in
  let tab' := save_check_results (Some ("out.txt", None))
                (deliver (progress tr) CheckTab_init) in
  exists results,
    saved tab'
      = saved CheckTab_init ++ [("out.txt", str_join newline (map format_result results))] /\
    Forall2 (fun link result => aggregate tr !! link = Some result)
            (first_occurrences (progress tr).*1) results /\
    shown tab'
      = shown CheckTab_init ++ [Information "成功" ("文件已保存到：" +:+ "out.txt")].
Proof.
  apply (save_check_results_blocks
           [EvProgress "a" (sample_result "a" "有效"); EvFetchStart "b";
            EvProgress "b" (sample_result "b" "有效");
            EvProgress "a" (sample_result "a" "错误")] "out.txt" CheckTab_init).
  - reflexivity.
  - discriminate.
Defined.

Lemma connect_update_check_result (signal : string) (tab : CheckTab) :
  connect signal "update_check_result" tab
  = (inr tt,
     with_checker
       (option_map (fun c => {| ck_links := ck_links c; ck_is_running := ck_is_running c;
                                ck_connected := ck_connected c
                                                ++ [(signal, "update_check_result")];
                                ck_started := ck_started c |})
                   (checker tab)) tab).
Proof. reflexivity. Qed.

Lemma connect_check_finished (signal : string) (tab : CheckTab) :
  connect signal "check_finished" tab
  = (inr tt,
     with_checker
       (option_map (fun c => {| ck_links := ck_links c; ck_is_running := ck_is_running c;
                                ck_connected := ck_connected c
                                                ++ [(signal, "check_finished")];
                                ck_started := ck_started c |})
                   (checker tab)) tab).
Proof. reflexivity. Qed.

Lemma connect_handle_check_error (signal : string) (tab : CheckTab) :
  connect signal "handle_check_error" tab
  = (inl "'TelegramToolsManager' object has no attribute 'handle_check_error'", tab).
Proof. reflexivity. Qed.

(** X9: [start_check] never starts the checker thread.  Either it returns
    early (blank input, no link, or the question answered with No), having
    at most shown a message box, or it raises the AttributeError of the
    missing method [handle_check_error]: the tab is then left reset, with the
    start button disabled, the stop button enabled, the input read-only and
    a checker that has two signals connected and was not started. *)
Theorem start_check_never_starts (E : Env) (reply_yes : bool) (tab : CheckTab) :
  let r := (start_check E reply_yes tab).1 in
  let tab' := (start_check E reply_yes tab).2 in
  (r = inr tt /\ checker tab' = checker tab /\ check_results tab' = check_results tab /\
   check_result tab' = check_result tab /\
   start_check_btn tab' = start_check_btn tab /\ stop_check_btn tab' = stop_check_btn tab /\
   check_input_read_only tab' = check_input_read_only tab)
  \/
  (r = inl "'TelegramToolsManager' object has no attribute 'handle_check_error'" /\
   input_links E (str_strip E (check_input tab)) <> [] /\
   checker tab'
     = Some {| ck_links := input_links E (str_strip E (check_input tab));
               ck_is_running := true;
               ck_connected := [("progress_signal", "update_check_result");
                                ("finished_signal", "check_finished")];
               ck_started := false |} /\
   check_results tab' = [] /\
   start_check_btn tab' = false /\ stop_check_btn tab' = true /\
   save_check_btn tab' = false /\ clear_check_btn tab' = false /\
   check_input_read_only tab' = true /\
   progress_value tab' = Some O /\
   progress_maximum tab'
     = Some (length (input_links E (str_strip E (check_input tab))))).
Proof.
  cbv zeta. unfold start_check.
  destruct (decide (str_strip E (check_input tab) = "")) as [Hblank|Hblank].
  { left. repeat split. }
  destruct (decide (input_links E (str_strip E (check_input tab)) = [])) as [Hnone|Hsome].
  { left. repeat split. }
  destruct ((50 <? length (input_links E (str_strip E (check_input tab))))%nat) eqn:Hmany;
    destruct reply_yes; cbn [andb negb].
  - right. rewrite connect_update_check_result, connect_check_finished,
      connect_handle_check_error. repeat split. exact Hsome.
  - left. repeat split.
  - right. rewrite connect_update_check_result, connect_check_finished,
      connect_handle_check_error. repeat split. exact Hsome.
  - right. rewrite connect_update_check_result, connect_check_finished,
      connect_handle_check_error. repeat split. exact Hsome.
Qed.

Lemma start_check_idle (E : Env) (reply_yes : bool) (tab : CheckTab) :
  check_tab_idle tab -> check_tab_idle (start_check E reply_yes tab).2.
Proof.
  intros (Hsave & Hclear & Hresults & Hsaved & Hstarted).
  unfold start_check.
  destruct (decide (str_strip E (check_input tab) = "")) as [Hblank|Hblank].
  { repeat split; assumption. }
  destruct (decide (input_links E (str_strip E (check_input tab)) = [])) as [Hnone|Hsome].
  { repeat split; assumption. }
  destruct ((50 <? length (input_links E (str_strip E (check_input tab))))%nat) eqn:Hmany;
    destruct reply_yes; cbn [andb negb];
    try rewrite connect_update_check_result, connect_check_finished,
      connect_handle_check_error;
    repeat split; assumption.
Qed.

Lemma handle_idle (E : Env) (tab : CheckTab) (ev : TabEvent) :
  check_tab_idle tab -> check_tab_idle (handle E tab ev).
Proof.
  intros Hidle. pose proof Hidle as (Hsave & Hclear & Hresults & Hsaved & Hstarted).
  destruct ev as [text|reply_yes| |save| |link result|]; cbn [handle].
  - destruct (check_input_read_only tab); [exact Hidle|]. repeat split; assumption.
  - destruct (start_check_btn tab); [|exact Hidle]. now apply start_check_idle.
  - destruct (stop_check_btn tab); [|exact Hidle].
    unfold stop_check, thread_started in *.
    destruct (checker tab) as [c|]; [|exact Hidle].
    repeat split; assumption.
  - rewrite Hsave. exact Hidle.
  - rewrite Hclear. exact Hidle.
  - rewrite Hstarted. exact Hidle.
  - rewrite Hstarted. exact Hidle.
Qed.

(** X10: whatever the user does on the check tab, from the start of the
    program on, no checker thread is ever started, so that no result
    arrives; the save and clear buttons are never enabled, the dictionary
    of results stays empty and the tab writes no file. *)
Theorem check_tab_never_checks (E : Env) (events : list TabEvent) :
  let tab := foldl (handle E) CheckTab_init events in
  save_check_btn tab = false /\ clear_check_btn tab = false /\
  check_results tab = [] /\ saved tab = [] /\ thread_started tab = false.
Proof.
  cbv zeta. change (check_tab_idle (foldl (handle E) CheckTab_init events)).
  assert (Hinit : check_tab_idle CheckTab_init) by (repeat split).
  revert Hinit. generalize CheckTab_init.
  induction events as [|ev events IH]; intros tab Hidle; [exact Hidle|].
  cbn [foldl]. apply IH. now apply handle_idle.
Qed.

Lemma handle_locked (E : Env) (tab : CheckTab) (ev : TabEvent) :
  start_check_btn tab = false -> check_input_read_only tab = true ->
  start_check_btn (handle E tab ev) = false /\
  check_input_read_only (handle E tab ev) = true /\
  check_input (handle E tab ev) = check_input tab.
Proof.
  intros Hbtn Hro.
  destruct ev as [text|reply_yes| |save| |link result|]; cbn [handle].
  - rewrite Hro. auto.
  - rewrite Hbtn. auto.
  - destruct (stop_check_btn tab); [|auto].
    unfold stop_check. destruct (checker tab); auto.
  - destruct (save_check_btn tab); [|auto].
    unfold save_check_results. destruct (check_results tab); [auto|].
    destruct (save_to_file _ save) as [[dialogs written] ok]. auto.
  - destruct (clear_check_btn tab); auto.
  - destruct (thread_started tab); auto.
  - destruct (thread_started tab); auto.
Qed.

(** X11: once the start button is disabled and the input read-only, as
    [start_check] leaves them when it raises, nothing the user does and no
    signal enables the one or unlocks the other: no second check can be
    started and the links cannot be edited. *)
Theorem check_tab_stays_locked (E : Env) (tab : CheckTab) (events : list TabEvent)
    (Hbtn : start_check_btn tab = false) (Hro : check_input_read_only tab = true) :
  let tab' := foldl (handle E) tab events in
  start_check_btn tab' = false /\ check_input_read_only tab' = true /\
  check_input tab' = check_input tab.
Proof.
  cbv zeta. revert tab Hbtn Hro.
  induction events as [|ev events IH]; intros tab Hbtn Hro; [auto|].
  cbn [foldl]. destruct (handle_locked E tab ev Hbtn Hro) as (Hbtn' & Hro' & Hin').
  rewrite <- Hin'. now apply IH.
Qed.

Lemma check_tab_stays_locked_witness :
  let tab := foldl (handle blank_env) CheckTab_init
               [EditInput "https://t.me/a"; ClickStart true] in
  let tab' := foldl (handle blank_env) tab
                [ClickStart true; EditInput "https://t.me/b"; ClickStop; ClickClear] in
  start_check_btn tab' = false /\ check_input_read_only tab' = true /\
  check_input tab' = check_input tab.
Proof.
  apply (check_tab_stays_locked blank_env
           (foldl (handle blank_env) CheckTab_init
              [EditInput "https://t.me/a"; ClickStart true])
           [ClickStart true; EditInput "https://t.me/b"; ClickStop; ClickClear]).
  - reflexivity.
  - reflexivity.
Defined.

(** ** The comparison tab as a whole *)

Lemma compare_files_enabled (file1 file2 : option FileRead) (tab : CompareTab) :
  (remove_btn tab = true -> exists link, link ∈ links_to_remove tab) ->
  remove_btn (compare_files file1 file2 tab).1 = true ->
  exists link, link ∈ links_to_remove (compare_files file1 file2 tab).1.
Proof.
  intros Hinv. unfold compare_files, compare_failed.
  destruct file1 as [[e1|e1|text1]|], file2 as [[e2|e2|text2]|];
    cbn [fst remove_btn links_to_remove]; try exact Hinv; try discriminate.
  cbv zeta.
  destruct (decide (list_to_set (extract_links text1) ∩ list_to_set (extract_links text2)
                    = (∅ : gset string))) as [Hnone|Hsome];
    cbn [fst remove_btn links_to_remove]; [discriminate|].
  intros _. apply set_choose_L in Hsome. exact Hsome.
Qed.

(** X12: whatever files were compared since the start of the program, and
    whichever comparisons failed, when the remove button is enabled there
    is a duplicate to remove, so that [remove_duplicate_links] never shows
    its warning of having nothing to remove. *)
Theorem remove_button_has_work (comparisons : list (option FileRead * option FileRead))
    (file : option FileRead) (save : option (string * option Exc))
    (Henabled : remove_btn (after_comparisons comparisons CompareTab_init) = true) :
  let tab := after_comparisons comparisons CompareTab_init in
  (exists link, link ∈ links_to_remove tab) /\
  Forall (fun d => is_warning d = false) (remove_duplicate_links file save tab).1.
Proof.
  cbv zeta.
  assert (Hlinks : exists link, link ∈ links_to_remove (after_comparisons comparisons CompareTab_init)).
  { revert Henabled. unfold after_comparisons.
    assert (Hinit : remove_btn CompareTab_init = true ->
                    exists link, link ∈ links_to_remove CompareTab_init) by discriminate.
    revert Hinit. generalize CompareTab_init.
    induction comparisons as [|[file1 file2] comparisons IH]; intros tab Hinv; [exact Hinv|].
    cbn [foldl fst snd]. apply IH. now apply compare_files_enabled. }
  split; [exact Hlinks|].
  unfold remove_duplicate_links.
  destruct Hlinks as [link Hlink].
  rewrite decide_False by (intros Hnone; rewrite Hnone in Hlink; now apply not_elem_of_empty in Hlink).
  destruct file as [[e|e|content]|]; cbn [fst]; try (repeat constructor).
  destruct save as [[save_path [e|]]|]; cbn [fst]; repeat constructor.
Qed.

Lemma remove_button_has_work_witness :
  let tab := after_comparisons [(Some (Content "@a @b"), Some (Content "https://t.me/b"));
                       (Some (Content "@a"), Some (OpenError "No such file"));
                       (Some (Content "@c @b"), Some (Content "@c"))]
                      CompareTab_init in
  (exists link, link ∈ links_to_remove tab) /\
  Forall (fun d => is_warning d = false)
         (remove_duplicate_links (Some (Content "@c @d")) (Some ("out.txt", None)) tab).1.
Proof.
  apply (remove_button_has_work
           [(Some (Content "@a @b"), Some (Content "https://t.me/b"));
            (Some (Content "@a"), Some (OpenError "No such file"));
            (Some (Content "@c @b"), Some (Content "@c"))]
           (Some (Content "@c @d")) (Some ("out.txt", None))).
  vm_compute. reflexivity.
Defined.

(** ** The extraction tab *)

Lemma str_join_cons_nonempty (sep first : string) (more : list string) :
  first <> "" -> str_join sep (first :: more) <> "".
Proof.
  intros Hfirst. destruct first as [|c first]; [congruence|].
  cbn [str_join]. destruct more; [discriminate|]. rewrite append_cons. discriminate.
Qed.

(** X13: saving what an extraction shows writes a file from which the same
    links are extracted again, when there were any; when there were none,
    the file holds the message that none was found: the warning
    of [save_extract_results] is for a result that is blank, which an
    extraction never leaves. *)
Theorem extract_then_save (E : Env) (text path : string)
    (Hstrip : str_strip E (extract_links_from_text text) = extract_links_from_text text) :
  let shown := extract_links_from_text text in
  save_extract_results E shown (Some (path, None))
    = ([Information "成功" ("文件已保存到：" +:+ path)], Some (path, shown)) /\
  extract_links shown = extract_links text /\
  (if decide (extract_links text = []) then shown = "未找到任何Telegram链接"
   else shown = str_join newline (extract_links text)).
Proof.
  cbv zeta.
  assert (Hshown : extract_links_from_text text <> "").
  { unfold extract_links_from_text.
    destruct (extract_links text) as [|link links] eqn:Hl; [discriminate|].
    apply str_join_cons_nonempty.
    pose proof (extract_links_written text) as Hall. rewrite Hl in Hall.
    apply Forall_cons in Hall as [(username & -> & _) _]. discriminate. }
  split; [|split].
  - unfold save_extract_results. rewrite Hstrip.
    rewrite decide_False by exact Hshown. reflexivity.
  - unfold extract_links_from_text.
    destruct (extract_links text) as [|link links] eqn:Hl; [reflexivity|].
    rewrite <- Hl. apply extract_links_rejoined.
  - unfold extract_links_from_text.
    destruct (extract_links text) as [|link links] eqn:Hl.
    + rewrite decide_True by reflexivity. reflexivity.
    + rewrite decide_False by discriminate. reflexivity.
Qed.

Lemma extract_then_save_witness :
  let shown := extract_links_from_text "no link here" in
  save_extract_results blank_env shown (Some ("out.txt", None))
    = ([Information "成功" ("文件已保存到：" +:+ "out.txt")], Some ("out.txt", shown)) /\
  extract_links shown = extract_links "no link here" /\
  (if decide (extract_links "no link here" = []) then shown = "未找到任何Telegram链接"
   else shown = str_join newline (extract_links "no link here")).
Proof.
  apply (extract_then_save blank_env "no link here" "out.txt").
  reflexivity.
Defined.

(** ** The limiter at its edges *)

Local Open Scope Z_scope.

Lemma sleeps_app (a b : list Event) : sleeps (a ++ b) = sleeps a ++ sleeps b.
Proof. apply flat_map_app. Qed.

Lemma stop_mark_no_sleep (st : State) : sleeps (stop_mark st) = [].
Proof. unfold stop_mark. destruct (pending_stop st) as [[|n]|]; reflexivity. Qed.

Lemma purge_loop_sleeps (cutoff : Z) (rs : list Z) (st : State) :
  sleeps (trace (purge_loop cutoff rs st).2) = sleeps (trace st).
Proof.
  revert st. induction rs as [|r rs IH]; intros st; [reflexivity|].
  cbn [purge_loop]. destruct (r <=? cutoff); [|reflexivity].
  unfold bind, pop_front. rewrite IH. unfold log. cbn [trace with_trace].
  rewrite trace_deliver_stop. cbn [trace with_requests].
  rewrite !sleeps_app, stop_mark_no_sleep. simpl. now rewrite !app_nil_r.
Qed.

(** X14: a limiter constructed with [max_requests <= 0] admits nothing:
    every call to [acquire] ends in an exception and records no timestamp.
    The exception is the IndexError of [self.requests[0]], raised once the
    list is empty, unless the nesting of the calls is used up first, each
    call having slept once. *)
Theorem acquire_without_quota (E : Env) (depth : nat) (st : State)
    (Hmax : max_requests (rate_limiter st) <= 0) :
  exists e st',
    acquire E depth st = (inl e, st') /\
    admissions (trace st') = admissions (trace st) /\
    (e = "list index out of range" /\ requests (rate_limiter st') = [] \/
     length (sleeps (trace st')) = (length (sleeps (trace st)) + depth)%nat).
Proof.
  revert st Hmax. induction depth as [|depth IH]; intros st Hmax.
  - exists "maximum recursion depth exceeded", st.
    split; [reflexivity|]. split; [reflexivity|]. right. now rewrite Nat.add_0_r.
  - cbn [acquire]. unfold bind at 1 2 3, time_time, get_limiter.
    pose proof (purge_loop_sleeps (clock st - time_window (rate_limiter st))
                  (requests (rate_limiter st)) st) as Hquiet.
    destruct (purge_loop_spec (clock st - time_window (rate_limiter st))
                (requests (rate_limiter st)) st eq_refl)
      as (st1 & d1 & Hrun & Hst1 & Hreq & Hck & Hadm & _).
    rewrite Hrun in Hquiet |- *. cbn [snd] in Hquiet. unfold bind at 1.
    assert (Htr1 : admissions (trace st1) = admissions (trace st)).
    { rewrite (st_trace _ _ _ _ Hst1), admissions_app, Hadm. apply app_nil_r. }
    rewrite (st_max _ _ _ _ Hst1), (st_window _ _ _ _ Hst1).
    destruct (Z.leb_spec (max_requests (rate_limiter st))
                (Z.of_nat (length (requests (rate_limiter st1))))); [|lia].
    destruct (requests (rate_limiter st1)) as [|r0 rest] eqn:Hheld.
    + exists "list index out of range", st1. auto.
    + symmetry in Hreq. pose proof (purge_head _ _ _ _ Hreq) as Hhead.
      destruct (Z.ltb_spec 0 (r0 + time_window (rate_limiter st) - clock st)); [|lia].
      unfold bind.
      destruct (time_sleep_spec E (r0 + time_window (rate_limiter st) - clock st) st1)
        as (st2 & Hsl & Hst2 & _); [lia|].
      rewrite Hsl.
      destruct (IH st2) as (e & st' & Hrun' & Htr' & He).
      { rewrite (st_max _ _ _ _ Hst2), (st_max _ _ _ _ Hst1). exact Hmax. }
      exists e, st'. split; [exact Hrun'|]. split.
      * rewrite Htr', (st_trace _ _ _ _ Hst2), !admissions_app.
        destruct (stop_mark_silent st1) as (-> & _). simpl.
        now rewrite app_nil_r.
      * destruct He as [He|He]; [now left|right].
        rewrite He, (st_trace _ _ _ _ Hst2), !sleeps_app, stop_mark_no_sleep, Hquiet.
        rewrite length_app. simpl. lia.
Qed.

Lemma acquire_without_quota_witness :
  let st := limiter_state 10 {| max_requests := 0; time_window := 60; requests := [5] |} in
  exists e st',
    acquire blank_env 5 st = (inl e, st') /\
    admissions (trace st') = admissions (trace st) /\
    (e = "list index out of range" /\ requests (rate_limiter st') = [] \/
     length (sleeps (trace st')) = (length (sleeps (trace st)) + 5)%nat).
Proof.
  apply (acquire_without_quota blank_env 5
           (limiter_state 10 {| max_requests := 0; time_window := 60; requests := [5] |})).
  simpl. lia.
Defined.

(** X15: a call that finds the limiter full sleeps until the oldest held
    timestamp is a whole window old and no longer: it returns at that
    instant (plus what the sleep overshoots), has dropped that timestamp,
    which is then exactly on the cutoff, and has recorded the instant of
    return. *)
Theorem acquire_waits_for_oldest (E : Env) (depth : nat) (st : State) (r0 : Z)
    (rest : list Z) (Hdepth : (2 <= depth)%nat)
    (Hheld : purge (clock st - time_window (rate_limiter st)) (requests (rate_limiter st))
             = r0 :: rest)
    (Hfull : Z.of_nat (length (r0 :: rest)) = max_requests (rate_limiter st)) :
  let rl := rate_limiter st in
  let sleep_time := r0 + time_window rl - clock st in
  exists st',
    acquire E depth st = (inr tt, st') /\
    0 < sleep_time /\
    clock st' = r0 + time_window rl + Z.of_N (sleep_extra E (clock st) sleep_time) /\
    requests (rate_limiter st') = purge (clock st' - time_window rl) rest ++ [clock st'] /\
    admissions (trace st') = admissions (trace st) ++ [clock st'].
Proof.
  intros rl sleep_time. destruct depth as [|depth]; [lia|].
  cbn [acquire]. unfold bind at 1 2 3, time_time, get_limiter.
  destruct (purge_loop_spec (clock st - time_window (rate_limiter st))
              (requests (rate_limiter st)) st eq_refl)
    as (st1 & d1 & Hrun & Hst1 & Hreq & Hck & Hadm & _).
  rewrite Hrun. unfold bind at 1.
  rewrite (st_max _ _ _ _ Hst1), (st_window _ _ _ _ Hst1), Hreq, Hheld, <- Hfull.
  fold rl. fold rl in Hreq, Hheld, Hfull.
  rewrite Z.leb_refl.
  pose proof (purge_head _ _ _ _ Hheld) as Hhead.
  fold sleep_time.
  assert (Hpos : 0 < sleep_time) by (unfold sleep_time; lia).
  destruct (Z.ltb_spec 0 sleep_time); [|lia].
  unfold bind.
  destruct (time_sleep_spec E sleep_time st1) as (st2 & Hsl & Hst2 & Hck2 & Hreq2); [lia|].
  rewrite Hsl.
  assert (Hmax2 : max_requests (rate_limiter st2) = max_requests rl).
  { now rewrite (st_max _ _ _ _ Hst2), (st_max _ _ _ _ Hst1). }
  assert (Hwin2 : time_window (rate_limiter st2) = time_window rl).
  { now rewrite (st_window _ _ _ _ Hst2), (st_window _ _ _ _ Hst1). }
  pose proof (N2Z.is_nonneg (sleep_extra E (clock st1) sleep_time)) as Hextra.
  assert (Hdrop : purge (clock st2 - time_window rl) (r0 :: rest)
                  = purge (clock st2 - time_window rl) rest).
  { simpl. destruct (Z.leb_spec r0 (clock st2 - time_window rl)); [reflexivity|].
    unfold sleep_time in *. lia. }
  assert (Hroom2 : Z.of_nat (length (purge (clock st2 - time_window (rate_limiter st2))
                                       (requests (rate_limiter st2))))
                   < max_requests (rate_limiter st2)).
  { rewrite Hmax2, Hwin2, Hreq2, Hreq, Hheld, Hdrop, <- Hfull.
    pose proof (purge_length (clock st2 - time_window rl) rest). simpl. lia. }
  destruct depth as [|depth]; [lia|].
  destruct (acquire_direct E depth st2 Hroom2) as (st3 & d3 & Hrun3 & Hadm3 & Hck3).
  rewrite Hrun3. exists st3. split; [reflexivity|]. split; [exact Hpos|].
  destruct Hadm3 as (Hst3 & Hreq3 & _ & Hadm3 & _).
  rewrite Hwin2, Hreq2, Hreq, Hheld in Hreq3.
  split; [|split].
  - rewrite Hck3, Hck2, Hck. unfold sleep_time. lia.
  - rewrite Hreq3, Hck3, Hdrop. reflexivity.
  - rewrite (st_trace _ _ _ _ Hst3), (st_trace _ _ _ _ Hst2), (st_trace _ _ _ _ Hst1).
    rewrite !admissions_app, Hadm, Hadm3.
    destruct (stop_mark_silent st1) as (-> & _). simpl.
    now rewrite !app_nil_r.
Qed.

Lemma acquire_waits_for_oldest_witness :
  let st := limiter_state 70 {| max_requests := 2; time_window := 60; requests := [5; 20; 30] |} in
  exists st',
    acquire blank_env 2 st = (inr tt, st') /\
    0 < 20 + 60 - 70 /\
    clock st' = 20 + 60 + Z.of_N (sleep_extra blank_env 70 (20 + 60 - 70)) /\
    requests (rate_limiter st') = purge (clock st' - 60) [30] ++ [clock st'] /\
    admissions (trace st') = admissions (trace st) ++ [clock st'].
Proof.
  apply (acquire_waits_for_oldest blank_env 2
           (limiter_state 70 {| max_requests := 2; time_window := 60;
                                requests := [5; 20; 30] |}) 20 [30]).
  - lia.
  - reflexivity.
  - reflexivity.
Defined.

(** ** What a run emits *)

Lemma fetch_result_link (E : Env) (u : string) (t : Z) : r_link (fetch_result E u t) = u.
Proof.
  unfold fetch_result. cbv zeta.
  destruct (requests_get E u t) as [e|response]; [reflexivity|].
  destruct (BeautifulSoup E (resp_text response)) as [e|soup]; reflexivity.
Qed.

(** X16: in a run that nobody stops, each result is emitted under the link
    as it stands in the list, while the link field of the record is the
    stripped and normalized address: two spellings of one address are two
    keys of the dictionary whose records name the same link. *)
Theorem emitted_link_is_normalized (E : Env) (links : list string) (t0 : Z)
    (Hdepth : (2 <= recursion_limit E)%nat) :
  let emitted := progress (trace (run E links (LinkChecker_init t0 None)).2) in
  emitted.*1 = links /\
  map (fun lr => r_link lr.2) emitted
    = map (fun link => normalize_link (str_strip E link)) links.
Proof.
  intros emitted.
  destruct (run_unstopped E links t0 Hdepth) as (_ & _ & Hkeys & Hres).
  fold emitted in Hkeys, Hres. split; [exact Hkeys|].
  rewrite <- Hkeys. clear Hkeys.
  induction Hres as [|[link r] rest (t & Hr) _ IH]; [reflexivity|].
  cbn [map fmap list_fmap fst snd] in *. rewrite IH. f_equal.
  rewrite Hr. apply fetch_result_link.
Qed.

Lemma emitted_link_is_normalized_witness :
  let emitted :=
    progress (trace (run blank_env ["@a"; " https://t.me/a"; "a"]
                         (LinkChecker_init 0 None)).2) in
  emitted.*1 = ["@a"; " https://t.me/a"; "a"] /\
  map (fun lr => r_link lr.2) emitted
    = map (fun link => normalize_link (str_strip blank_env link))
          ["@a"; " https://t.me/a"; "a"].
Proof.
  apply (emitted_link_is_normalized blank_env ["@a"; " https://t.me/a"; "a"] 0).
  simpl. lia.
Defined.
